(** * RoadYAML: the scan / parse / dump pipeline of [src/roadyaml/yaml.py]

    A shallow embedding of the scanner, the scalar coercion, the
    recursive-descent parser and the dumper, with the properties the
    specification states about them.

    Text is modelled as a list of characters, a character being a code
    point below 256 ([ascii]); the Python builtins used by the source
    ([str.strip], [str.split], [int], [float], [str], ...) are modelled
    on that range.  A Python [float] is an IEEE-754 binary64 value
    ([spec_float] with precision 53 and maximal exponent 1024). *)

From Stdlib Require Import String Ascii List ZArith Lia Bool Arith.
From Stdlib Require Import Floats.SpecFloat.
Import ListNotations.

Set Implicit Arguments.
Set Warnings "-register-all".

(* ================================================================== *)
(** * Python text builtins *)
(* ================================================================== *)

Module PyStr.

Definition str := list ascii.

(** String literals. *)
Definition txt (s : string) : str := list_ascii_of_string s.

Definition ord (c : ascii) : nat := nat_of_ascii c.

(** [c.isspace()] for a code point below 256: the characters that
    [str.strip()] removes. *)
Definition isspace (c : ascii) : bool :=
  let n := ord c in
  ((9 <=? n) && (n <=? 13)) || ((28 <=? n) && (n <=? 32))
  || (n =? 133) || (n =? 160).

Definition isdigit (c : ascii) : bool :=
  let n := ord c in (48 <=? n) && (n <=? 57).

(** [c.lower()] for a code point below 256. *)
Definition lower_char (c : ascii) : ascii :=
  let n := ord c in
  if ((65 <=? n) && (n <=? 90))
     || ((192 <=? n) && (n <=? 222) && negb (n =? 215))
  then ascii_of_nat (n + 32) else c.

Definition lower (s : str) : str := map lower_char s.

Fixpoint lstrip (s : str) : str :=
  match s with
  | c :: r => if isspace c then lstrip r else s
  | [] => []
  end.

Definition rstrip (s : str) : str := rev (lstrip (rev s)).

Definition strip (s : str) : str := rstrip (lstrip s).

Definition eqb (a b : str) : bool :=
  if list_eq_dec ascii_dec a b then true else false.

(** [s.startswith(p)] *)
Fixpoint startswith (s p : str) {struct p} : bool :=
  match p, s with
  | [], _ => true
  | a :: p', b :: s' => Ascii.eqb a b && startswith s' p'
  | _ :: _, [] => false
  end.

(** [s.endswith(p)] *)
Definition endswith (s p : str) : bool := startswith (rev s) (rev p).

(** [sub in s] *)
Fixpoint contains (s sub : str) : bool :=
  startswith s sub
  || match s with
     | [] => false
     | _ :: r => contains r sub
     end.

(** [any(c in s for c in chars)] *)
Definition any_in (chars s : str) : bool :=
  existsb (fun c => existsb (Ascii.eqb c) s) chars.

(** [s.split(sep, 1)] for a non-empty [sep]: one or two pieces. *)
Fixpoint split1 (s sep : str) : list str :=
  if startswith s sep then [[]; skipn (length sep) s]
  else match s with
       | [] => [[]]
       | c :: r =>
           match split1 r sep with
           | [a; b] => [c :: a; b]
           | _ => [s]
           end
       end.

(** [s.split(c)] for a one-character separator. *)
Fixpoint split_char (c : ascii) (s : str) : list str :=
  match s with
  | [] => [[]]
  | x :: r =>
      if Ascii.eqb x c then [] :: split_char c r
      else match split_char c r with
           | l :: ls => (x :: l) :: ls
           | [] => [[x]]
           end
  end.

(** [sep.join(parts)] *)
Fixpoint join (sep : str) (parts : list str) : str :=
  match parts with
  | [] => []
  | [p] => p
  | p :: ps => p ++ sep ++ join sep ps
  end.

(** [c * n] *)
Definition replicate (n : nat) (c : ascii) : str := repeat c n.

(** [s[1:-1]] *)
Definition slice_1_m1 (s : str) : str := removelast (tl s).

(** [s[:-1]] *)
Definition slice_0_m1 (s : str) : str := removelast s.

Definition newline : ascii := "010"%char.

Definition dquote : ascii := "034"%char.

End PyStr.
Import PyStr.

(* ================================================================== *)
(** * Python number builtins: [int], [float], [str] on numbers *)
(* ================================================================== *)

Module PyNum.

Local Open Scope Z_scope.

Definition digit_val (c : ascii) : Z := Z.of_nat (ord c - 48).

Definition digit_char (d : Z) : ascii := ascii_of_nat (48 + Z.to_nat d).

Definition is_char (a b : ascii) : bool := Ascii.eqb a b.

(** The value of a run of decimal digits. *)
Definition step (a : Z) (c : ascii) : Z := a * 10 + digit_val c.

Definition digits_val (ds : str) : Z := fold_left step ds 0.

(** An optional sign: [(negative, rest)]. *)
Definition sign (s : str) : bool * str :=
  match s with
  | c :: r =>
      if is_char c "-" then (true, r)
      else if is_char c "+" then (false, r)
      else (false, s)
  | [] => (false, s)
  end.

(** ** [int(s)] in base 10, for [s] without surrounding whitespace.
    Digits may be grouped by single underscores.  [None] stands for
    [ValueError]. *)
Fixpoint int_digits (s : str) (acc : Z) (after_digit : bool) : option Z :=
  match s with
  | [] => if after_digit then Some acc else None
  | c :: r =>
      if isdigit c then int_digits r (acc * 10 + digit_val c) true
      else if is_char c "_" then
        if after_digit then int_digits r acc false else None
      else None
  end.

Definition py_int (s : str) : option Z :=
  let '(neg, r) := sign s in
  match int_digits r 0 false with
  | Some n => Some (if neg then - n else n)
  | None => None
  end.

(** ** [str(n)] for an integer *)
Fixpoint dec_digits (fuel : nat) (n : Z) (acc : str) : str :=
  match fuel with
  | O => acc
  | S f =>
      let acc' := digit_char (n mod 10) :: acc in
      if n <? 10 then acc' else dec_digits f (n / 10) acc'
  end.

Definition str_of_nonneg (n : Z) : str :=
  dec_digits (S (Z.to_nat (Z.log2 n))) n [].

Definition py_str_int (n : Z) : str :=
  if n <? 0 then "-"%char :: str_of_nonneg (- n) else str_of_nonneg n.

(** ** [float(s)] for [s] without surrounding whitespace *)

Definition prec : Z := 53.
Definition emax : Z := 1024.

(** The binary64 value nearest to [d * 10^k] (ties to even), [d >= 0]. *)
Definition round_decimal (neg : bool) (d k : Z) : spec_float :=
  match d with
  | Zpos _ =>
      if 0 <=? k then binary_round prec emax neg (Z.to_pos (d * 10 ^ k)) 0
      else
        let '(mz, ez, lz) := SFdiv_core_binary prec emax d 0 (10 ^ (- k)) 0 in
        binary_round_aux prec emax neg mz ez lz
  | _ => S754_zero neg
  end.

Fixpoint span (p : ascii -> bool) (s : str) : str * str :=
  match s with
  | c :: r => if p c then let '(a, b) := span p r in (c :: a, b) else ([], s)
  | [] => ([], [])
  end.

(** Underscores are accepted between two digits only and are dropped. *)
Fixpoint strip_underscores (s : str) (prev : option ascii) : option str :=
  match s with
  | [] =>
      match prev with
      | Some p => if is_char p "_" then None else Some []
      | None => Some []
      end
  | c :: r =>
      if is_char c "_" then
        match prev with
        | Some p => if isdigit p then strip_underscores r (Some c) else None
        | None => None
        end
      else
        match prev with
        | Some p =>
            if is_char p "_" && negb (isdigit c) then None
            else option_map (cons c) (strip_underscores r (Some c))
        | None => option_map (cons c) (strip_underscores r (Some c))
        end
  end.

(** [inf], [infinity], [nan] with an optional sign, in any case. *)
Definition parse_inf_or_nan (s : str) : option spec_float :=
  let '(neg, r) := sign s in
  let l := lower r in
  if PyStr.eqb l (txt "inf") || PyStr.eqb l (txt "infinity")
  then Some (S754_infinity neg)
  else if PyStr.eqb l (txt "nan") then Some S754_nan
  else None.

(** The exponent part, which must reach the end of the text. *)
Definition parse_exponent (s : str) : option Z :=
  match s with
  | [] => Some 0
  | c :: r =>
      if is_char c "e" || is_char c "E" then
        let '(neg, r') := sign r in
        match span isdigit r' with
        | ((_ :: _) as ds, []) =>
            Some (if neg then - digits_val ds else digits_val ds)
        | _ => None
        end
      else None
  end.

(** [digits [. digits] [e [sign] digits]] with at least one mantissa
    digit. *)
Definition parse_decimal (s : str) : option spec_float :=
  let '(neg, s1) := sign s in
  let '(ip, s2) := span isdigit s1 in
  let '(fp, s3) :=
    match s2 with
    | c :: t => if is_char c "." then span isdigit t else ([], s2)
    | [] => ([], s2)
    end in
  match ip ++ fp with
  | [] => None
  | ds =>
      match parse_exponent s3 with
      | Some e =>
          Some (round_decimal neg (digits_val ds) (e - Z.of_nat (List.length fp)))
      | None => None
      end
  end.

(** [None] stands for [ValueError]. *)
Definition py_float (s : str) : option spec_float :=
  match strip_underscores s None with
  | None => None
  | Some s' =>
      match parse_inf_or_nan s' with
      | Some x => Some x
      | None => parse_decimal s'
      end
  end.

(** ** [str(x)] for a float: the shortest decimal text that reads
    back as [x], the closest to [x] among the shortest. *)

Definition float_eqb (x y : spec_float) : bool :=
  match x, y with
  | S754_zero a, S754_zero b => Bool.eqb a b
  | S754_infinity a, S754_infinity b => Bool.eqb a b
  | S754_nan, S754_nan => true
  | S754_finite a m e, S754_finite b m' e' =>
      Bool.eqb a b && Pos.eqb m m' && Z.eqb e e'
  | _, _ => false
  end.

(** [10^d <= num / den] *)
Definition pow10_le (d num den : Z) : bool :=
  if 0 <=? d then 10 ^ d * den <=? num else den <=? num * 10 ^ (- d).

Fixpoint raise_log10 (fuel : nat) (d num den : Z) : Z :=
  match fuel with
  | O => d
  | S f => if pow10_le (d + 1) num den then raise_log10 f (d + 1) num den else d
  end.

(** [floor (log10 (num / den))] *)
Definition floor_log10 (num den : Z) : Z :=
  let lg := Z.log2 num - Z.log2 den in
  raise_log10 8 ((lg - 1) * 30103 / 100000 - 1) num den.

(** [x / 10^p] as a quotient and the two integers around it. *)
Definition scaled (num den p : Z) : Z * Z :=
  if 0 <=? p then (num, den * 10 ^ p) else (num * 10 ^ (- p), den).

Fixpoint shortest (steps : nat) (n : Z) (x : spec_float) (num den d : Z)
  : Z * Z :=
  let p := d - (n - 1) in
  let '(a, b) := scaled num den p in
  let lo := a / b in
  let hi := lo + 1 in
  let lo_ok := float_eqb (round_decimal false lo p) x in
  let hi_ok := float_eqb (round_decimal false hi p) x in
  match steps with
  | O => (if 2 * (a mod b) <=? b then lo else hi, p)
  | S k =>
      if lo_ok && hi_ok then (if 2 * (a mod b) <=? b then lo else hi, p)
      else if lo_ok then (lo, p)
      else if hi_ok then (hi, p)
      else shortest k (n + 1) x num den d
  end.

Fixpoint drop_zeros (fuel : nat) (D p : Z) : Z * Z :=
  match fuel with
  | O => (D, p)
  | S f => if (D mod 10 =? 0) && (0 <? D) then drop_zeros f (D / 10) (p + 1)
           else (D, p)
  end.

(** The digits and the position of the decimal point:
    [x = 0.DIGITS * 10^decpt]. *)
Definition float_digits (m : positive) (e : Z) : str * Z :=
  let num := if 0 <=? e then Zpos m * 2 ^ e else Zpos m in
  let den := if 0 <=? e then 1 else 2 ^ (- e) in
  let d := floor_log10 num den in
  let '(D0, p0) := shortest 16 1 (S754_finite false m e) num den d in
  let '(D, p) := drop_zeros 18 D0 p0 in
  let ds := str_of_nonneg D in
  (ds, Z.of_nat (List.length ds) + p).

Definition exponent_text (e : Z) : str :=
  let a := str_of_nonneg (Z.abs e) in
  (if e <? 0 then "-"%char else "+"%char)
    :: (if Z.abs e <? 10 then "0"%char :: a else a).

Definition format_repr (ds : str) (decpt : Z) : str :=
  let n := Z.of_nat (List.length ds) in
  if (-4 <? decpt) && (decpt <=? 16) then
    if decpt <=? 0 then
      txt "0." ++ replicate (Z.to_nat (- decpt)) "0"%char ++ ds
    else if n <=? decpt then
      ds ++ replicate (Z.to_nat (decpt - n)) "0"%char ++ txt ".0"
    else
      firstn (Z.to_nat decpt) ds ++ "."%char :: skipn (Z.to_nat decpt) ds
  else
    match ds with
    | [] => []
    | [c] => c :: "e"%char :: exponent_text (decpt - 1)
    | c :: r => c :: "."%char :: r ++ "e"%char :: exponent_text (decpt - 1)
    end.

Definition py_str_float (x : spec_float) : str :=
  match x with
  | S754_zero s => if s then txt "-0.0" else txt "0.0"
  | S754_infinity s => if s then txt "-inf" else txt "inf"
  | S754_nan => txt "nan"
  | S754_finite s m e =>
      let '(ds, decpt) := float_digits m e in
      if s then "-"%char :: format_repr ds decpt else format_repr ds decpt
  end.

End PyNum.
Import PyNum.

(* ================================================================== *)
(** * Data model *)
(* ================================================================== *)

(** The [Any] tree that [load] builds and [dump] reads.  A [dict] keeps
    its keys in insertion order, so a mapping is an association list;
    [dict_set] keeps the keys unique. *)
Inductive Value : Type :=
| Null
| Boolean (b : bool)
| Integer (n : Z)
| Float (x : spec_float)
| Str (s : str)
| Sequence (items : list Value)
| Mapping (entries : list (str * Value)).

(** [d[key] = value]: an existing key keeps its place. *)
Fixpoint dict_set (d : list (str * Value)) (key : str) (value : Value)
  : list (str * Value) :=
  match d with
  | [] => [(key, value)]
  | (k, v) :: r =>
      if PyStr.eqb k key then (k, value) :: r
      else (k, v) :: dict_set r key value
  end.

Fixpoint dict_get (d : list (str * Value)) (key : str) : option Value :=
  match d with
  | [] => None
  | (k, v) :: r => if PyStr.eqb k key then Some v else dict_get r key
  end.

Definition dict_keys (d : list (str * Value)) : list str := map fst d.

(** [Token.type] together with [Token.value], whose shape the type
    fixes: the raw text of a list item, a key, a key with its coerced
    value, or a coerced value. *)
Inductive TokenBody : Type :=
| LIST_ITEM (raw : str)
| KEY (key : str)
| KEY_VALUE (key : str) (value : Value)
| VALUE (value : Value).

Record Token : Type := mkToken {
  body : TokenBody;
  line : nat;
  indent : nat
}.

(** What a call does: it returns, it raises, or the model runs out of
    the fuel that bounds its loops. *)
Inductive PyExc : Type := ValueError.

Inductive outcome (A : Type) : Type :=
| Ok (a : A)
| Raise (e : PyExc)
| OutOfFuel.

Arguments Ok {A} a.
Arguments Raise {A} e.
Arguments OutOfFuel {A}.

Definition bind {A B} (c : outcome A) (f : A -> outcome B) : outcome B :=
  match c with
  | Ok a => f a
  | Raise e => Raise e
  | OutOfFuel => OutOfFuel
  end.

Notation "' p <- c ;; k" := (bind c (fun p => k))
  (at level 61, p pattern, c at next level, right associativity).
Notation "x <- c ;; k" := (bind c (fun x => k))
  (at level 61, c at next level, right associativity).

(* ================================================================== *)
(** * Scanner *)
(* ================================================================== *)

Module Scanner.

Definition word_in (value : str) (words : list string) : bool :=
  existsb (fun w => PyStr.eqb (lower value) (txt w)) words.

Definition quote : str := [dquote].

(** [Scanner._parse_value] *)
Definition _parse_value (value : str) : Value :=
  let value := strip value in
  match value with
  | [] => Null
  | _ =>
      if word_in value ["true"; "yes"; "on"]%string then Boolean true
      else if word_in value ["false"; "no"; "off"]%string then Boolean false
      else if word_in value ["null"; "~"]%string then Null
      else if startswith value quote && endswith value quote
      then Str (slice_1_m1 value)
      else if startswith value (txt "'") && endswith value (txt "'")
      then Str (slice_1_m1 value)
      else
        match py_int value with
        | Some n => Integer n
        | None =>
            match py_float value with
            | Some x => Float x
            | None => Str value
            end
        end
  end.

(** The body of the loop of [Scanner.scan] for one line: the token it
    appends, if any. *)
Definition scan_line (line_num : nat) (line : str) : outcome (option Token) :=
  match strip line with
  | [] => Ok None
  | _ =>
      if startswith (strip line) (txt "#") then Ok None
      else
        let indent := List.length line - List.length (lstrip line) in
        let content := strip line in
        if startswith content (txt "- ") then
          Ok (Some (mkToken (LIST_ITEM (skipn 2 content)) line_num indent))
        else if contains content (txt ": ") || endswith content (txt ":") then
          if endswith content (txt ":") then
            let key := slice_0_m1 content in
            Ok (Some (mkToken (KEY key) line_num indent))
          else
            match split1 content (txt ": ") with
            | [key; value] =>
                Ok (Some (mkToken (KEY_VALUE key (_parse_value value))
                                  line_num indent))
            | _ => Raise ValueError
            end
        else
          Ok (Some (mkToken (VALUE (_parse_value content)) line_num indent))
  end.

Fixpoint scan_lines (line_num : nat) (lines : list str)
  : outcome (list Token) :=
  match lines with
  | [] => Ok []
  | line :: rest =>
      t <- scan_line line_num line ;;
      ts <- scan_lines (S line_num) rest ;;
      Ok (match t with Some tok => tok :: ts | None => ts end)
  end.

(** [Scanner.scan] *)
Definition scan (text : str) : outcome (list Token) :=
  scan_lines 1 (split_char newline text).

End Scanner.

(* ================================================================== *)
(** * Parser *)
(* ================================================================== *)

Module Parser.

(** [Parser._parse_scalar] *)
Definition _parse_scalar (value : str) : Value :=
  Scanner._parse_value value.

Section Cursor.

(** [self.tokens]; the cursor [self.pos] is passed in and returned. *)
Variable tokens : list Token.

(** The loop of [Parser._parse_list]. *)
Fixpoint list_loop (fuel : nat) (base_indent pos : nat)
         (result : list Value) : outcome (Value * nat) :=
  match fuel with
  | O => OutOfFuel
  | S fuel' =>
      match nth_error tokens pos with
      | None => Ok (Sequence result, pos)
      | Some token =>
          if indent token <? base_indent then Ok (Sequence result, pos)
          else
            match body token with
            | LIST_ITEM raw =>
                list_loop fuel' base_indent (pos + 1)
                          (result ++ [_parse_scalar raw])
            | _ => Ok (Sequence result, pos)
            end
      end
  end.

(** [Parser._parse_list] *)
Definition _parse_list (fuel : nat) (base_indent pos : nat)
  : outcome (Value * nat) :=
  list_loop fuel base_indent pos [].

(** [Parser._parse_value], and the loop of [Parser._parse_mapping]. *)
Fixpoint _parse_value (fuel : nat) (base_indent pos : nat)
  : outcome (Value * nat) :=
  match fuel with
  | O => OutOfFuel
  | S fuel' =>
      match nth_error tokens pos with
      | None => Ok (Null, pos)
      | Some token =>
          match body token with
          | LIST_ITEM _ => _parse_list fuel' base_indent pos
          | KEY _ => mapping_loop fuel' base_indent pos []
          | KEY_VALUE _ _ => mapping_loop fuel' base_indent pos []
          | VALUE value => Ok (value, pos + 1)
          end
      end
  end

with mapping_loop (fuel : nat) (base_indent pos : nat)
                  (result : list (str * Value)) : outcome (Value * nat) :=
  match fuel with
  | O => OutOfFuel
  | S fuel' =>
      match nth_error tokens pos with
      | None => Ok (Mapping result, pos)
      | Some token =>
          if indent token <? base_indent then Ok (Mapping result, pos)
          else
            match body token with
            | KEY_VALUE key value =>
                mapping_loop fuel' base_indent (pos + 1)
                             (dict_set result key value)
            | KEY key =>
                let pos := pos + 1 in
                match nth_error tokens pos with
                | Some next_token =>
                    if indent token <? indent next_token then
                      '(value, pos') <-
                        _parse_value fuel' (indent next_token) pos ;;
                      mapping_loop fuel' base_indent pos'
                                   (dict_set result key value)
                    else
                      mapping_loop fuel' base_indent pos
                                   (dict_set result key Null)
                | None =>
                    mapping_loop fuel' base_indent pos
                                 (dict_set result key Null)
                end
            | _ => Ok (Mapping result, pos)
            end
      end
  end.


(** Every step of a loop and every nested call moves the cursor
    forward, so this bound is never reached. *)
Definition enough_fuel : nat := 2 * List.length tokens + 2.

(** [Parser.parse] *)
Definition parse : outcome Value :=
  match tokens with
  | [] => Ok Null
  | _ => '(v, _) <- _parse_value enough_fuel 0 0 ;; Ok v
  end.

End Cursor.

End Parser.

(* ================================================================== *)
(** * Dumper *)
(* ================================================================== *)

Module Dumper.

Definition must_quote : str := txt ":#{}[]&*!|>'" ++ dquote :: txt "%@`".

(** [isinstance(v, (dict, list))] *)
Definition is_collection (v : Value) : bool :=
  match v with
  | Sequence _ | Mapping _ => true
  | _ => false
  end.

(** The truth value of a collection: it is not empty. *)
Definition truthy (v : Value) : bool :=
  match v with
  | Sequence [] | Mapping [] => false
  | _ => true
  end.

Section Indent.

(** [self.indent] *)
Variable indent : nat.

Definition prefix (level : nat) : str := replicate (level * indent) " "%char.

(** [Dumper.dump], with the bodies of [_dump_list] and
    [_dump_mapping] in place. *)
Fixpoint dump (data : Value) (level : nat) {struct data} : str :=
  match data with
  | Null => txt "null"
  | Boolean b => if b then txt "true" else txt "false"
  | Integer n => py_str_int n
  | Float x => py_str_float x
  | Str s =>
      if any_in must_quote s then dquote :: s ++ [dquote] else s
  | Sequence items =>
      match items with
      | [] => txt "[]"
      | _ =>
          join [newline]
            (map (fun item =>
                    if is_collection item then
                      (prefix level ++ txt "- ")
                        ++ lstrip (dump item (level + 1))
                    else prefix level ++ txt "- " ++ dump item 0)
                 items)
      end
  | Mapping entries =>
      match entries with
      | [] => txt "{}"
      | _ =>
          join [newline]
            (flat_map (fun kv =>
                         let '(key, value) := kv in
                         if is_collection value && truthy value then
                           [prefix level ++ key ++ txt ":";
                            dump value (level + 1)]
                         else
                           [prefix level ++ key ++ txt ": "
                                   ++ dump value 0])
                      entries)
      end
  end.

(** [Dumper._dump_list] *)
Definition _dump_list (data : list Value) (level : nat) : str :=
  dump (Sequence data) level.

(** [Dumper._dump_mapping] *)
Definition _dump_mapping (data : list (str * Value)) (level : nat) : str :=
  dump (Mapping data) level.

End Indent.

End Dumper.

(* ================================================================== *)
(** * Entry points *)
(* ================================================================== *)

(** [load] *)
Definition load (text : str) : outcome Value :=
  tokens <- Scanner.scan text ;;
  Parser.parse tokens.

(** [loads] *)
Definition loads (text : str) : outcome Value := load text.

(** [dump(data, indent)] *)
Definition dump_indent (data : Value) (indent : nat) : str :=
  Dumper.dump indent data 0.

(** [dump(data)], the indent defaulting to 2 *)
Definition dump (data : Value) : str := dump_indent data 2.

(** [dumps] *)
Definition dumps (data : Value) : str := dump data.

(* ================================================================== *)
(** * Statements of the specification *)
(* ================================================================== *)

(** A line that [Scanner.scan] skips: blank, or a comment. *)
Definition blank_or_comment (line : str) : bool :=
  match strip line with
  | [] => true
  | content => startswith content (txt "#")
  end.

(** A trimmed fragment that none of the coercion rules 1 to 6 takes: it
    is not empty, not a boolean or null word, not wrapped in quotes. *)
Definition passes_rules_1_to_6 (s : str) : Prop :=
  strip s = s /\ s <> [] /\
  Scanner.word_in s ["true"; "yes"; "on"]%string = false /\
  Scanner.word_in s ["false"; "no"; "off"]%string = false /\
  Scanner.word_in s ["null"; "~"]%string = false /\
  startswith s Scanner.quote && endswith s Scanner.quote = false /\
  startswith s (txt "'") && endswith s (txt "'") = false.









Definition key_like (b : TokenBody) : Prop :=
  match b with
  | KEY _ | KEY_VALUE _ _ => True
  | _ => False
  end.

(** A run of decimal digits. *)
Definition digits (ds : str) : Prop := ds <> [] /\ forallb isdigit ds = true.




(** A Float that is a number: a zero or a finite value. *)
Definition is_finite (x : spec_float) : bool :=
  match x with
  | S754_zero _ | S754_finite _ _ _ => true
  | _ => false
  end.


(** *** Values that [load] returns, and what [load] reads from their dump *)

Definition is_scalar (v : Value) : bool := negb (Dumper.is_collection v).

Definition newline_free (s : str) : bool :=
  forallb (fun c => negb (Ascii.eqb c newline)) s.

(** A scalar as the scanner makes it: a String has no line break. *)
Definition loaded_scalar (x : Value) : Prop :=
  is_scalar x = true /\ forall s, x = Str s -> newline_free s = true.

(** A key as the scanner makes it: the start of the content of a line
    that is neither a comment nor a list item. *)
Definition loaded_key (k : str) : Prop :=
  newline_free k = true /\ lstrip k = k /\
  startswith k (txt "#") = false /\ startswith k (txt "- ") = false.

(** The entries of a mapping as the parser makes them: the keys are
    distinct, a value is a scalar, a list of scalars that is not empty,
    or a mapping that is not empty. *)
Inductive loaded_entries : list (str * Value) -> Prop :=
| le_nil : loaded_entries []
| le_scalar k x r :
    loaded_key k -> ~ In k (dict_keys r) -> loaded_scalar x ->
    loaded_entries r -> loaded_entries ((k, x) :: r)
| le_seq k l r :
    loaded_key k -> ~ In k (dict_keys r) ->
    l <> [] -> Forall loaded_scalar l ->
    loaded_entries r -> loaded_entries ((k, Sequence l) :: r)
| le_map k m r :
    loaded_key k -> ~ In k (dict_keys r) ->
    m <> [] -> loaded_entries m ->
    loaded_entries r -> loaded_entries ((k, Mapping m) :: r).

(** The shape of a value that [load] returns. *)
Definition loaded (v : Value) : Prop :=
  match v with
  | Sequence l => l <> [] /\ Forall loaded_scalar l
  | Mapping m => m <> [] /\ loaded_entries m
  | Str s => newline_free s = true /\ contains s (txt ": ") = false
  | _ => True
  end.

(** The scalars of a value, and the keys that are bound to a scalar. *)
Fixpoint leaves (v : Value) : list Value :=
  match v with
  | Sequence l => flat_map leaves l
  | Mapping m => flat_map (fun kv => leaves (snd kv)) m
  | x => [x]
  end.

Fixpoint scalar_keys (v : Value) : list str :=
  match v with
  | Sequence l => flat_map scalar_keys l
  | Mapping m =>
      flat_map (fun kv => if is_scalar (snd kv) then [fst kv]
                          else scalar_keys (snd kv)) m
  | _ => []
  end.

(** The text of a scalar in a dump, and the scalar that the coercion
    reads from that text. *)
Definition scalar_text (x : Value) : str := Dumper.dump 2 x 0.

Definition reread (x : Value) : Value := Scanner._parse_value (scalar_text x).

(** The tree with every scalar read again from its text. *)
Fixpoint reread_tree (v : Value) : Value :=
  match v with
  | Sequence l => Sequence (map reread_tree l)
  | Mapping m => Mapping (map (fun kv => (fst kv, reread_tree (snd kv))) m)
  | x => reread x
  end.

(** A String that the dump writes without quotes. *)
Definition plain (s : str) : Prop := any_in Dumper.must_quote s = false.



(** What the token of a line holds for the parser: its body and its
    indent. *)
Definition shape (t : Token) : TokenBody * nat := (body t, indent t).

(** The first character, if any, is not whitespace. *)
Definition head_solid (s : str) : Prop :=
  match s with
  | c :: _ => isspace c = false
  | [] => True
  end.

(** A text that [strip] leaves as it is and that is not empty. *)
Definition trimmed (s : str) : Prop :=
  s <> [] /\ lstrip s = s /\ rstrip s = s.

(** Characters that are neither whitespace, nor a colon, nor a hash. *)
Definition colon_or_hash (c : ascii) : bool :=
  Ascii.eqb c ":" || Ascii.eqb c "#".

Definition colon_free (s : str) : bool :=
  forallb (fun c => negb (colon_or_hash c)) s.

Definition solid_char (c : ascii) : bool :=
  negb (isspace c) && negb (colon_or_hash c).

Definition solid (s : str) : bool := forallb solid_char s.

(** The characters of the text of a number. *)
Definition number_char (c : ascii) : bool :=
  isdigit c || existsb (Ascii.eqb c) (txt ".e+-infa").

(** The first character is a digit or a minus sign. *)
Definition starts_numeric (t : str) : bool :=
  match t with
  | c :: _ => isdigit c || Ascii.eqb c "-"
  | [] => false
  end.

(** The text of a scalar can follow a dash or a key on a line. *)
Definition line_value_ok (t : str) : Prop :=
  t <> [] /\ rstrip t = t /\ newline_free t = true
  /\ endswith t (txt ":") = false.

(** The text of a scalar can be a line of its own. *)
Definition line_ok (t : str) : Prop :=
  trimmed t /\ newline_free t = true /\
  startswith t (txt "#") = false /\ startswith t (txt "- ") = false /\
  contains t (txt ": ") = false /\ endswith t (txt ":") = false.

Definition point_or_e (c : ascii) : bool :=
  Ascii.eqb c "." || Ascii.eqb c "e".

(** The lines of the dump of a value whose lists hold scalars, and the
    body and indent of the token that the scanner makes of each line. *)
Fixpoint dump_lines (ind : nat) (v : Value) (level : nat) : list str :=
  match v with
  | Sequence l =>
      map (fun x => Dumper.prefix ind level ++ txt "- " ++ scalar_text x) l
  | Mapping m =>
      flat_map (fun kv =>
                  let '(k, x) := kv in
                  if Dumper.is_collection x && Dumper.truthy x then
                    (Dumper.prefix ind level ++ k ++ txt ":")
                      :: dump_lines ind x (level + 1)
                  else
                    [Dumper.prefix ind level ++ k ++ txt ": " ++ scalar_text x])
               m
  | x => [scalar_text x]
  end.

Fixpoint shapes (ind : nat) (v : Value) (level : nat)
  : list (TokenBody * nat) :=
  match v with
  | Sequence l => map (fun x => (LIST_ITEM (scalar_text x), level * ind)) l
  | Mapping m =>
      flat_map (fun kv =>
                  let '(k, x) := kv in
                  if Dumper.is_collection x && Dumper.truthy x then
                    (KEY k, level * ind) :: shapes ind x (level + 1)
                  else [(KEY_VALUE k (reread x), level * ind)])
               m
  | x => [(VALUE (reread x), 0)]
  end.

(** The lines are scanned, from any line number on, into tokens of the
    given bodies and indents. *)
Definition scans_to (lines : list str) (ss : list (TokenBody * nat)) : Prop :=
  forall n, exists ts,
    Scanner.scan_lines n lines = Ok ts /\ map shape ts = ss.

(** The tokens after a block, if any, begin less deep than the block. *)
Definition shallow (base : nat) (post : list (TokenBody * nat)) : Prop :=
  match post with
  | [] => True
  | (_, i) :: _ => i < base
  end.

(** An entry with its value read again. *)
Definition reread_entry (kv : str * Value) : str * Value :=
  (fst kv, reread_tree (snd kv)).

(** The tokens after a list, if any, end the list. *)
Definition ends_list (base : nat) (post : list (TokenBody * nat)) : Prop :=
  match post with
  | [] => True
  | (b, i) :: _ => i < base \/ forall raw, b <> LIST_ITEM raw
  end.

(** What the scanner puts in a token. *)
Definition token_ok (b : TokenBody) : Prop :=
  match b with
  | LIST_ITEM raw => newline_free raw = true
  | KEY k => loaded_key k
  | KEY_VALUE k v => loaded_key k /\ loaded_scalar v
  | VALUE v =>
      loaded_scalar v /\ forall s, v = Str s -> contains s (txt ": ") = false
  end.

(** [s] is a piece of [t]. *)
Definition infix (s t : str) : Prop := exists a b, t = a ++ s ++ b.

(** A value that the parser binds to a key. *)
Definition entry_value_ok (v : Value) : Prop :=
  loaded_scalar v
  \/ (exists l, v = Sequence l /\ l <> [] /\ Forall loaded_scalar l)
  \/ (exists m, v = Mapping m /\ m <> [] /\ loaded_entries m).

(** *** Trees, documents and tokens *)

(** A value and the values inside it, at any depth. *)
Fixpoint subtrees (v : Value) : list Value :=
  v :: match v with
       | Sequence l => flat_map subtrees l
       | Mapping m => flat_map (fun kv => subtrees (snd kv)) m
       | _ => []
       end.

(** What [load] makes of a node of the tree: a list is not empty and
    holds scalars only; a mapping is not empty, its keys are distinct
    and are the start of the content of a line; a String has no line
    break. *)
Definition loaded_node (x : Value) : Prop :=
  match x with
  | Sequence l => l <> [] /\ forallb is_scalar l = true
  | Mapping m =>
      m <> [] /\ NoDup (dict_keys m) /\ Forall loaded_key (dict_keys m)
  | Str s => newline_free s = true
  | _ => True
  end.

(** The number of whitespace characters a line begins with:
    [len(line) - len(line.lstrip())]. *)
Definition leading (l : str) : nat := List.length l - List.length (lstrip l).

(** [enumerate(lines, 1)], without the lines that the scanner skips. *)
Definition content_lines (text : str) : list (nat * str) :=
  let lines := split_char newline text in
  filter (fun nl => negb (blank_or_comment (snd nl)))
         (combine (seq 1 (List.length lines)) lines).

(** A token with its indent changed by [f]. *)
Definition reindent (f : nat -> nat) (t : Token) : Token :=
  mkToken (body t) (line t) (f (indent t)).

(** Two tokens with the same type and value, the indent of the second
    being [f] of the indent of the first. *)
Definition same_token_upto (f : nat -> nat) (t t' : Token) : Prop :=
  body t' = body t /\ indent t' = f (indent t).

(** A line of a list: spaces, a dash, a space and the text of the item. *)
Definition item_line (it : nat * str) : str :=
  replicate (fst it) " "%char ++ txt "- " ++ snd it.

(** A text that can follow a dash on a line and be found again by the
    scanner. *)
Definition item_text (t : str) : Prop :=
  t <> [] /\ rstrip t = t /\ newline_free t = true.

(** A line of a mapping: spaces, the key, a colon, a space and the text
    of the value. *)
Definition entry_line (e : nat * (str * str)) : str :=
  replicate (fst e) " "%char ++ fst (snd e) ++ txt ": " ++ snd (snd e).

(** A key that the scanner finds again before the first colon followed
    by a space. *)
Definition key_text (k : str) : Prop :=
  newline_free k = true /\ lstrip k = k /\
  startswith k (txt "#") = false /\ startswith k (txt "- ") = false /\
  contains k (txt ": ") = false.

(** A text that can follow a key, a colon and a space on a line. *)
Definition value_text (t : str) : Prop :=
  item_text t /\ endswith t (txt ":") = false.

(** The mapping that the assignments [result[key] = coerce(text)] build,
    in the order of the lines. *)
Definition assign_all (entries : list (nat * (str * str)))
  : list (str * Value) :=
  fold_left (fun d e => dict_set d (fst (snd e))
                                 (Scanner._parse_value (snd (snd e))))
            entries [].

(** The text of the last line that gives a value to [key], if any. *)
Definition last_text (entries : list (nat * (str * str))) (key : str)
  : option str :=
  fold_left (fun r e => if PyStr.eqb (fst (snd e)) key
                        then Some (snd (snd e)) else r)
            entries None.

(** *** Documents laid out in blocks *)







(** *** Lists of records *)

(** A mapping whose values are all scalars, and whose first key, if
    any, does not begin with whitespace. *)
Definition record (m : list (str * Value)) : Prop :=
  Forall (fun kx => is_scalar (snd kx) = true) m /\
  match m with
  | (k, _) :: _ => lstrip k = k
  | [] => True
  end.

(** The line of an entry of a record. *)
Definition record_entry (kx : str * Value) : str :=
  fst kx ++ txt ": " ++ scalar_text (snd kx).

(** The lines of a record that is an item of a list: the first entry
    follows the dash, the other entries stand one level deeper. *)
Definition record_lines (ind level : nat) (m : list (str * Value))
  : list str :=
  match m with
  | [] => [Dumper.prefix ind level ++ txt "- {}"]
  | kx :: r =>
      (Dumper.prefix ind level ++ txt "- " ++ record_entry kx)
        :: map (fun e => Dumper.prefix ind (level + 1) ++ record_entry e) r
  end.

(** [float(str(x))] is [x].  It holds by computation for the zeros, the
    infinities, the NaN and any given finite value; for all finite
    values at once it is a hypothesis. *)
Definition float_reads_back (x : spec_float) : Prop :=
  py_float (py_str_float x) = Some x.



(* ================================================================== *)
(** * Properties *)
(* ================================================================== *)

(** ** Text: prefixes, occurrences, splitting *)

Section TextFacts.

Lemma eqb_refl (a : str) : PyStr.eqb a a = true.
Proof. unfold PyStr.eqb. destruct (list_eq_dec ascii_dec a a); congruence. Qed.

Lemma eqb_eq (a b : str) : PyStr.eqb a b = true <-> a = b.
Proof.
  unfold PyStr.eqb. destruct (list_eq_dec ascii_dec a b); split; congruence.
Qed.

Lemma eqb_neq (a b : str) : PyStr.eqb a b = false <-> a <> b.
Proof.
  unfold PyStr.eqb. destruct (list_eq_dec ascii_dec a b); split; congruence.
Qed.

Lemma startswith_iff (s p : str) :
  startswith s p = true <-> exists r, s = p ++ r.
Proof.
  revert s. induction p as [|a p IH]; intros s; simpl.
  - split; [intros _; exists s; reflexivity | reflexivity].
  - destruct s as [|b s].
    + split; [discriminate | intros [r Hr]; discriminate].
    + rewrite andb_true_iff, Ascii.eqb_eq, IH. split.
      * intros [-> [r ->]]. eauto.
      * intros [r Hr]. injection Hr as -> ->. eauto.
Qed.

Lemma startswith_app (p r : str) : startswith (p ++ r) p = true.
Proof. apply startswith_iff. eauto. Qed.

Lemma startswith_skipn (s p : str) :
  startswith s p = true -> s = p ++ skipn (List.length p) s.
Proof.
  intros H. apply startswith_iff in H as [r ->].
  now rewrite skipn_app, Nat.sub_diag, skipn_all.
Qed.

Lemma contains_iff (s sub : str) :
  contains s sub = true <-> exists a b, s = a ++ sub ++ b.
Proof.
  induction s as [|c s IH]; simpl.
  - rewrite orb_false_r, startswith_iff. split.
    + intros [r Hr]. exists [], r. exact Hr.
    + intros [a [b H]]. destruct a; [eauto | discriminate].
  - rewrite orb_true_iff, startswith_iff, IH. split.
    + intros [[r Hr] | [a [b ->]]].
      * exists [], r. exact Hr.
      * exists (c :: a), b. reflexivity.
    + intros [a [b H]]. destruct a as [|x a].
      * left. eauto.
      * right. injection H as -> ->. eauto.
Qed.

(** [s.split(sep, 1)] cuts at the first occurrence of [sep]. *)
Lemma split1_found (s sep : str) :
  sep <> [] -> contains s sep = true ->
  exists a b,
    split1 s sep = [a; b] /\ s = a ++ sep ++ b /\
    forall i, i < List.length a -> startswith (skipn i s) sep = false.
Proof.
  intros Hsep. induction s as [|c s IH]; intros H.
  - simpl in H. rewrite orb_false_r in H. destruct sep; [congruence | discriminate].
  - simpl in H. cbn [split1]. destruct (startswith (c :: s) sep) eqn:E.
    + exists [], (skipn (List.length sep) (c :: s)). repeat split.
      * now apply startswith_skipn.
      * simpl. lia.
    + simpl in H. destruct (IH H) as [a [b [H1 [H2 H3]]]]. rewrite H1.
      exists (c :: a), b. repeat split.
      * simpl. now rewrite H2.
      * intros [|i] Hi; [exact E|]. simpl. apply H3. simpl in Hi. lia.
Qed.

Lemma split1_absent (s sep : str) :
  contains s sep = false -> split1 s sep = [s].
Proof.
  induction s as [|c s IH]; simpl; intros H.
  - rewrite orb_false_r in H. now rewrite H.
  - apply orb_false_iff in H as [H1 H2]. rewrite H1, (IH H2). reflexivity.
Qed.

Lemma endswith_iff (s p : str) :
  endswith s p = true <-> exists r, s = r ++ p.
Proof.
  unfold endswith. rewrite startswith_iff. split.
  - intros [r Hr]. exists (rev r).
    rewrite <- (rev_involutive s), Hr, rev_app_distr, rev_involutive.
    reflexivity.
  - intros [r ->]. exists (rev r). apply rev_app_distr.
Qed.

Lemma endswith_removelast (s : str) (c : ascii) :
  endswith s [c] = true -> s = slice_0_m1 s ++ [c].
Proof.
  intros H. apply endswith_iff in H as [r ->].
  unfold slice_0_m1. now rewrite removelast_last.
Qed.

Lemma lstrip_spaces (s : str) : forallb isspace s = true -> lstrip s = [].
Proof.
  induction s as [|c s IH]; simpl; [reflexivity|].
  intros H. apply andb_true_iff in H as [-> H]. auto.
Qed.



End TextFacts.

(** ** The scanner never raises *)

Section ScannerTotal.

Lemma scan_line_ok (n : nat) (line : str) :
  exists t, Scanner.scan_line n line = Ok t.
Proof.
  unfold Scanner.scan_line. destruct (strip line) as [|c r] eqn:E; [eauto|].
  destruct (startswith (c :: r) (txt "#")); [eauto|].
  destruct (startswith (c :: r) (txt "- ")); [eauto|].
  destruct (endswith (c :: r) (txt ":")) eqn:Ee.
  - rewrite orb_true_r. eauto.
  - rewrite orb_false_r. destruct (contains (c :: r) (txt ": ")) eqn:Ec; [|eauto].
    destruct (@split1_found (c :: r) (txt ": ")) as [a [b [H _]]];
      [discriminate | exact Ec |].
    rewrite H. eauto.
Qed.

Lemma scan_lines_ok (lines : list str) :
  forall n, exists ts, Scanner.scan_lines n lines = Ok ts.
Proof.
  induction lines as [|l ls IH]; intros n; simpl; [eauto|].
  destruct (scan_line_ok n l) as [t ->]. simpl.
  destruct (IH (S n)) as [ts ->]. simpl. eauto.
Qed.


End ScannerTotal.

(** ** The parser: fuel, cursor and consumed tokens *)

Section ParserFacts.

Variable tokens : list Token.

Let len := List.length tokens.

Lemma list_loop_ok (fuel : nat) :
  forall base pos result,
    pos <= len -> len - pos < fuel ->
    exists l pos',
      Parser.list_loop tokens fuel base pos result = Ok (Sequence l, pos')
      /\ pos <= pos' <= len.
Proof.
  induction fuel as [|f IH]; intros base pos result Hp Hf; [lia|].
  simpl. destruct (nth_error tokens pos) as [t|] eqn:E.
  - assert (pos < len) by (apply nth_error_Some; congruence).
    destruct (indent t <? base); [exists result, pos; split; [easy|lia]|].
    destruct (body t); try (exists result, pos; split; [easy|lia]).
    destruct (IH base (pos + 1) (result ++ [Parser._parse_scalar raw]))
      as [l [pos' [H1 H2]]]; try lia.
    exists l, pos'. split; [exact H1 | lia].
  - exists result, pos. split; [easy|lia].
Qed.

(** With the fuel of [Parser.parse] every call returns. *)
Lemma parse_value_mapping_ok (fuel : nat) :
  (forall base pos,
      pos <= len -> 2 * (len - pos) + 2 <= fuel ->
      exists v pos',
        Parser._parse_value tokens fuel base pos = Ok (v, pos')
        /\ pos <= pos' <= len)
  /\
  (forall base pos result,
      pos <= len -> 2 * (len - pos) + 1 <= fuel ->
      exists m pos',
        Parser.mapping_loop tokens fuel base pos result = Ok (Mapping m, pos')
        /\ pos <= pos' <= len).
Proof.
  induction fuel as [|f [IHv IHm]]; [split; intros; lia|].
  split.
  - intros base pos Hp Hf. simpl.
    destruct (nth_error tokens pos) as [t|] eqn:E.
    + assert (pos < len) by (apply nth_error_Some; congruence).
      destruct (body t).
      * destruct (@list_loop_ok f base pos []) as [l [pos' [H1 H2]]]; try lia.
        unfold Parser._parse_list. eauto.
      * destruct (IHm base pos []) as [m [pos' [H1 H2]]]; try lia. eauto.
      * destruct (IHm base pos []) as [m [pos' [H1 H2]]]; try lia. eauto.
      * exists value, (pos + 1). split; [easy|lia].
    + exists Null, pos. split; [easy|lia].
  - intros base pos result Hp Hf. simpl.
    destruct (nth_error tokens pos) as [t|] eqn:E.
    + assert (pos < len) by (apply nth_error_Some; congruence).
      destruct (indent t <? base); [exists result, pos; split; [easy|lia]|].
      destruct (body t); try (exists result, pos; split; [easy|lia]).
      * destruct (nth_error tokens (pos + 1)) as [t'|] eqn:E'.
        -- destruct (indent t <? indent t').
           ++ destruct (IHv (indent t') (pos + 1)) as [v [p1 [H1 H2]]]; try lia.
              rewrite H1. simpl.
              destruct (IHm base p1 (dict_set result key v))
                as [m [p2 [H3 H4]]]; try lia.
              exists m, p2. split; [exact H3|lia].
           ++ destruct (IHm base (pos + 1) (dict_set result key Null))
                as [m [p2 [H3 H4]]]; try lia.
              exists m, p2. split; [exact H3|lia].
        -- destruct (IHm base (pos + 1) (dict_set result key Null))
             as [m [p2 [H3 H4]]]; try lia.
           exists m, p2. split; [exact H3|lia].
      * destruct (IHm base (pos + 1) (dict_set result key value))
          as [m [p2 [H3 H4]]]; try lia.
        exists m, p2. split; [exact H3|lia].
    + exists result, pos. split; [easy|lia].
Qed.


End ParserFacts.


(** ** Input without content *)





(** ** Lines that denote a key *)

(** C8: on a line whose content does not start with a dash and a space,
    a final colon makes a KEY token of the content without that colon,
    also when the content holds a colon followed by a space; the line is
    split at the first colon followed by a space, into the key and the
    coerced value of a KEY_VALUE token, only when the content holds one
    and does not end with a colon. *)
Theorem scan_line_key_before_key_value (line_num : nat) (line : str) :
  let content := strip line in
  let ind := List.length line - List.length (lstrip line) in
  content <> [] ->
  startswith content (txt "#") = false ->
  startswith content (txt "- ") = false ->
  (endswith content (txt ":") = true ->
   content = slice_0_m1 content ++ txt ":" /\
   Scanner.scan_line line_num line
   = Ok (Some (mkToken (KEY (slice_0_m1 content)) line_num ind)))
  /\
  (endswith content (txt ":") = false ->
   contains content (txt ": ") = true ->
   exists key value,
     content = key ++ txt ": " ++ value /\
     (forall i, i < List.length key ->
                startswith (skipn i content) (txt ": ") = false) /\
     Scanner.scan_line line_num line
     = Ok (Some (mkToken (KEY_VALUE key (Scanner._parse_value value))
                         line_num ind)))
  /\
  (forall key v,
      Scanner.scan_line line_num line
      = Ok (Some (mkToken (KEY_VALUE key v) line_num ind)) ->
      contains content (txt ": ") = true /\
      endswith content (txt ":") = false).
Proof.
  intros content ind Hne Hc Hd. unfold Scanner.scan_line.
  fold content. fold ind.
  destruct content as [|c r] eqn:E; [congruence|].
  rewrite Hc, Hd. split; [|split].
  - intros He. rewrite He, orb_true_r. split; [|reflexivity].
    now apply endswith_removelast.
  - intros He Hs. rewrite He, Hs. cbn [orb].
    destruct (@split1_found (c :: r) (txt ": ")) as [a [b [H1 [H2 H3]]]];
      [discriminate | exact Hs |].
    rewrite H1. exists a, b. auto.
  - intros key v. destruct (endswith (c :: r) (txt ":")).
    + rewrite orb_true_r. discriminate.
    + rewrite orb_false_r.
      destruct (contains (c :: r) (txt ": ")); [auto|discriminate].
Qed.

Lemma scan_line_key_before_key_value_witness :
  Scanner.scan_line 1 (txt "  a: b:")
  = Ok (Some (mkToken (KEY (txt "a: b")) 1 2)).
Proof.
  apply (scan_line_key_before_key_value 1 (txt "  a: b:"));
    solve [discriminate | reflexivity].
Defined.

(** ** Duplicate keys *)

Section DictFacts.



Lemma dict_get_set_same d key value :
  dict_get (dict_set d key value) key = Some value.
Proof.
  induction d as [|[k v] r IH]; simpl.
  - now rewrite eqb_refl.
  - destruct (PyStr.eqb k key) eqn:E; simpl; now rewrite E.
Qed.

Lemma dict_get_set_other d key value k :
  k <> key -> dict_get (dict_set d key value) k = dict_get d k.
Proof.
  intros Hk. induction d as [|[k' v] r IH]; simpl.
  - destruct (PyStr.eqb key k) eqn:E; [|reflexivity].
    apply eqb_eq in E. congruence.
  - destruct (PyStr.eqb k' key) eqn:E; simpl.
    + apply eqb_eq in E. subst k'.
      destruct (PyStr.eqb key k) eqn:E'; [|reflexivity].
      apply eqb_eq in E'. congruence.
    + now rewrite IH.
Qed.

End DictFacts.

(** ** Integer literals *)

Section IntegerLiterals.




(** Past the rules 1 to 6, the coercion is [int], then [float], then
    the text itself. *)
Lemma parse_value_rules_7_to_9 (s : str) :
  passes_rules_1_to_6 s ->
  Scanner._parse_value s
  = match py_int s with
    | Some n => Integer n
    | None => match py_float s with
              | Some x => Float x
              | None => Str s
              end
    end.
Proof.
  intros (Hs & Hne & H2 & H3 & H4 & H5 & H6).
  unfold Scanner._parse_value. rewrite Hs.
  destruct s as [|c r]; [congruence|].
  now rewrite H2, H3, H4, H5, H6.
Qed.

End IntegerLiterals.




(** ** The tokens a nested parse consumes *)

Section Consumed.

Variable tokens : list Token.







End Consumed.




(** ** Decimal text of numbers *)

Section DecimalText.

Local Open Scope Z_scope.

Lemma digit_val_char (d : Z) : 0 <= d < 10 -> digit_val (digit_char d) = d.
Proof.
  intros H. unfold digit_val, digit_char, ord.
  rewrite nat_ascii_embedding by lia. lia.
Qed.

Lemma isdigit_digit_char (d : Z) : 0 <= d < 10 -> isdigit (digit_char d) = true.
Proof.
  intros H. unfold isdigit, digit_char, ord.
  rewrite nat_ascii_embedding by lia.
  apply andb_true_iff. split; apply Nat.leb_le; lia.
Qed.

Lemma dec_digits_S (f : nat) (n : Z) (acc : str) :
  dec_digits (S f) n acc
  = if n <? 10 then digit_char (n mod 10) :: acc
    else dec_digits f (n / 10) (digit_char (n mod 10) :: acc).
Proof. reflexivity. Qed.

Lemma dec_digits_spec (fuel : nat) :
  forall n acc,
    0 <= n < 10 ^ Z.of_nat (S fuel) ->
    exists ds,
      dec_digits (S fuel) n acc = ds ++ acc /\ ds <> [] /\
      forallb isdigit ds = true /\
      forall a, fold_left step ds a = a * 10 ^ Z.of_nat (List.length ds) + n.
Proof.
  induction fuel as [|f IH]; intros n acc Hn; rewrite dec_digits_S;
    destruct (Z.ltb_spec n 10) as [Hlt|Hge].
  1, 3: exists [digit_char (n mod 10)]; repeat split;
    [ discriminate
    | cbn [forallb]; rewrite isdigit_digit_char;
      [reflexivity | apply Z.mod_pos_bound; lia]
    | intros a; cbn [fold_left List.length]; unfold step;
      rewrite digit_val_char by (apply Z.mod_pos_bound; lia);
      rewrite Z.mod_small by lia; lia ].
  - change (10 ^ Z.of_nat 1) with 10 in Hn. lia.
  - assert (Hq : 0 <= n / 10 < 10 ^ Z.of_nat (S f)).
    { split; [apply Z.div_pos; lia|].
      apply Z.div_lt_upper_bound; [lia|].
      rewrite (Nat2Z.inj_succ (S f)), Z.pow_succ_r in Hn by lia. lia. }
    destruct (IH (n / 10) (digit_char (n mod 10) :: acc) Hq)
      as (ds & H1 & H2 & H3 & H4).
    exists (ds ++ [digit_char (n mod 10)]). repeat split.
    + rewrite H1, <- app_assoc. reflexivity.
    + destruct ds; discriminate.
    + rewrite forallb_app, H3. cbn [forallb andb].
      rewrite isdigit_digit_char; [reflexivity|].
      apply Z.mod_pos_bound. lia.
    + intros a. rewrite fold_left_app, H4. cbn [fold_left]. unfold step at 1.
      rewrite digit_val_char by (apply Z.mod_pos_bound; lia).
      rewrite length_app. cbn [List.length].
      replace (Z.of_nat (List.length ds + 1))
        with (Z.of_nat (List.length ds) + 1) by lia.
      rewrite Z.pow_add_r by lia.
      pose proof (Z.div_mod n 10). lia.
Qed.

Lemma str_of_nonneg_spec (n : Z) :
  0 <= n ->
  digits (str_of_nonneg n) /\
  forall a, fold_left step (str_of_nonneg n) a
            = a * 10 ^ Z.of_nat (List.length (str_of_nonneg n)) + n.
Proof.
  intros Hn. unfold str_of_nonneg.
  destruct (@dec_digits_spec (Z.to_nat (Z.log2 n)) n [])
    as (ds & H1 & H2 & H3 & H4).
  - split; [exact Hn|].
    rewrite Nat2Z.inj_succ, Z2Nat.id by apply Z.log2_nonneg.
    destruct (Z.eq_dec n 0) as [->|Hz]; [simpl; lia|].
    assert (n < 2 ^ Z.succ (Z.log2 n)) by (apply Z.log2_spec; lia).
    assert (2 ^ Z.succ (Z.log2 n) <= 10 ^ Z.succ (Z.log2 n)).
    { apply Z.pow_le_mono_l. pose proof (Z.log2_nonneg n). lia. }
    lia.
  - rewrite H1, app_nil_r. repeat split; assumption.
Qed.

(** [int] reads a run of digits as its value. *)
Lemma int_digits_run (ds : str) :
  forallb isdigit ds = true ->
  forall acc b rest,
    int_digits (ds ++ rest) acc b
    = int_digits rest (fold_left step ds acc)
                 (match ds with [] => b | _ => true end).
Proof.
  induction ds as [|c ds IH]; intros H acc b rest; [reflexivity|].
  simpl in H. apply andb_true_iff in H as [Hc Hds].
  simpl. rewrite Hc, (IH Hds). destruct ds; reflexivity.
Qed.

Lemma py_int_str_nonneg (n : Z) :
  0 <= n -> py_int (str_of_nonneg n) = Some n.
Proof.
  intros Hn. destruct (str_of_nonneg_spec Hn) as [[Hne Hd] Hv].
  unfold py_int.
  assert (Hs : sign (str_of_nonneg n) = (false, str_of_nonneg n)).
  { destruct (str_of_nonneg n) as [|c r] eqn:E; [reflexivity|].
    simpl in Hd. apply andb_true_iff in Hd as [Hc _].
    unfold sign.
    destruct (is_char c "-") eqn:E1;
      [apply Ascii.eqb_eq in E1; subst c; discriminate|].
    destruct (is_char c "+") eqn:E2;
      [apply Ascii.eqb_eq in E2; subst c; discriminate|].
    reflexivity. }
  rewrite Hs. rewrite <- (app_nil_r (str_of_nonneg n)).
  rewrite (int_digits_run _ Hd). rewrite Hv.
  destruct (str_of_nonneg n); [congruence|]. simpl. f_equal; lia.
Qed.

(** [int(str(n)) = n] *)
Lemma py_int_str_int (n : Z) : py_int (py_str_int n) = Some n.
Proof.
  unfold py_str_int. destruct (Z.ltb_spec n 0) as [Hlt|Hge].
  - assert (Hn : 0 <= - n) by lia.
    pose proof (py_int_str_nonneg Hn) as H.
    destruct (str_of_nonneg_spec Hn) as [[Hne Hd] Hv].
    unfold py_int in *. cbn [sign is_char Ascii.eqb]. simpl.
    rewrite <- (app_nil_r (str_of_nonneg (- n))).
    rewrite (int_digits_run _ Hd), Hv.
    destruct (str_of_nonneg (- n)); [congruence|]. simpl. f_equal; lia.
  - now apply py_int_str_nonneg.
Qed.


Lemma dec_digits_digits (fuel : nat) :
  forall n acc,
    exists ds, dec_digits (S fuel) n acc = ds ++ acc /\ digits ds.
Proof.
  induction fuel as [|f IH]; intros n acc; rewrite dec_digits_S.
  - exists [digit_char (n mod 10)]. split; [now destruct (n <? 10)|].
    split; [discriminate|]. cbn [forallb].
    rewrite isdigit_digit_char; [reflexivity | apply Z.mod_pos_bound; lia].
  - destruct (n <? 10).
    + exists [digit_char (n mod 10)]. split; [reflexivity|].
      split; [discriminate|]. cbn [forallb].
      rewrite isdigit_digit_char; [reflexivity | apply Z.mod_pos_bound; lia].
    + destruct (IH (n / 10) (digit_char (n mod 10) :: acc))
        as (ds & H1 & H2 & H3).
      exists (ds ++ [digit_char (n mod 10)]). split.
      * rewrite H1, <- app_assoc. reflexivity.
      * split; [destruct ds; discriminate|].
        rewrite forallb_app, H3. cbn [forallb andb].
        rewrite isdigit_digit_char; [reflexivity | apply Z.mod_pos_bound; lia].
Qed.

Lemma str_of_nonneg_digits (n : Z) : digits (str_of_nonneg n).
Proof.
  unfold str_of_nonneg.
  destruct (dec_digits_digits (Z.to_nat (Z.log2 n)) n []) as (ds & H1 & H2).
  now rewrite H1, app_nil_r.
Qed.



Lemma zeros_digits (k : nat) : forallb isdigit (replicate k "0"%char) = true.
Proof. induction k; simpl; auto. Qed.

Lemma exponent_text_shape (e : Z) :
  exists es ed,
    (es = "+"%char \/ es = "-"%char) /\ digits ed /\
    exponent_text e = es :: ed.
Proof.
  unfold exponent_text.
  exists (if e <? 0 then "-"%char else "+"%char),
    (if Z.abs e <? 10 then "0"%char :: str_of_nonneg (Z.abs e)
     else str_of_nonneg (Z.abs e)).
  repeat split.
  - destruct (e <? 0); auto.
  - destruct (Z.abs e <? 10); [discriminate | apply str_of_nonneg_digits].
  - destruct (Z.abs e <? 10); [|apply str_of_nonneg_digits].
    cbn [forallb]. apply str_of_nonneg_digits.
Qed.





End DecimalText.

(** ** Rendering of scalars *)



(** ** Text: stripping, lines *)

Section StripFacts.

Lemma lstrip_solid (s : str) : head_solid s -> lstrip s = s.
Proof. destruct s as [|c r]; simpl; [reflexivity | now intros ->]. Qed.

Lemma lstrip_fixed_solid (s : str) : lstrip s = s -> head_solid s.
Proof.
  destruct s as [|c r]; simpl; [trivial|].
  destruct (isspace c) eqn:E; [|reflexivity].
  intros H. exfalso.
  assert (Hl : forall t, List.length (lstrip t) <= List.length t).
  { induction t as [|x t IH]; simpl; [lia|]. destruct (isspace x); simpl; lia. }
  specialize (Hl r). rewrite H in Hl. simpl in Hl. lia.
Qed.

Lemma lstrip_spaces_app (n : nat) (s : str) :
  lstrip (replicate n " "%char ++ s) = lstrip s.
Proof. induction n as [|n IH]; simpl; auto. Qed.

Lemma lstrip_app_solid (a b : str) :
  a <> [] -> head_solid a -> lstrip (a ++ b) = a ++ b.
Proof. destruct a as [|c r]; [congruence|]. simpl. now intros _ ->. Qed.

Lemma rstrip_app_solid (a b : str) :
  b <> [] -> rstrip b = b -> rstrip (a ++ b) = a ++ b.
Proof.
  intros Hb H. unfold rstrip in *. rewrite rev_app_distr.
  assert (Hs : head_solid (rev b)).
  { apply lstrip_fixed_solid. rewrite <- (rev_involutive (lstrip (rev b))), H.
    reflexivity. }
  rewrite lstrip_app_solid; [now rewrite <- rev_app_distr, rev_involutive | | exact Hs].
  intros E. apply (f_equal (@rev ascii)) in E. rewrite rev_involutive in E.
  now subst b.
Qed.

Lemma rstrip_last (a : str) (c : ascii) :
  isspace c = false -> rstrip (a ++ [c]) = a ++ [c].
Proof.
  intros H. unfold rstrip. rewrite rev_app_distr. simpl. rewrite H.
  change (c :: rev a) with (rev [c] ++ rev a).
  now rewrite <- rev_app_distr, rev_involutive.
Qed.

Lemma trimmed_strip (s : str) : trimmed s -> strip s = s.
Proof. intros (_ & H1 & H2). unfold strip. now rewrite H1. Qed.

Lemma strip_idem_parts (s : str) :
  strip s = s -> s <> [] -> trimmed s.
Proof.
  intros H Hne. unfold strip in H.
  assert (Hl : lstrip (lstrip s) = lstrip s).
  { clear. induction s as [|c r IH]; simpl; [reflexivity|].
    destruct (isspace c) eqn:E; [exact IH|]. simpl. now rewrite E. }
  assert (Hr : forall t, head_solid t -> head_solid (rstrip t)).
  { intros t Ht. destruct t as [|c r]; [exact I|]. simpl in Ht.
    unfold rstrip. simpl.
    destruct (lstrip (rev r ++ [c])) as [|x y] eqn:E.
    - exfalso. clear -E Ht. induction (rev r) as [|z w IH]; simpl in E.
      + now rewrite Ht in E.
      + destruct (isspace z); [auto | discriminate].
    - assert (Hx : exists p, lstrip (rev r ++ [c]) = p ++ [c]).
      { clear -Ht. induction (rev r) as [|z w IH]; simpl.
        - rewrite Ht. now exists [].
        - destruct (isspace z); [exact IH|]. now exists (z :: w). }
      destruct Hx as [p Hp]. rewrite E in Hp. rewrite Hp, rev_app_distr.
      simpl. exact Ht. }
  assert (Hs : head_solid s).
  { rewrite <- H. apply Hr, lstrip_fixed_solid, Hl. }
  split; [exact Hne|]. split; [now apply lstrip_solid|].
  rewrite (lstrip_solid _ Hs) in H. exact H.
Qed.

(** The content and the indent of a line made of spaces and a trimmed
    text. *)
Lemma strip_indented (n : nat) (s : str) :
  trimmed s -> strip (replicate n " "%char ++ s) = s.
Proof.
  intros (Hne & Hl & Hr). unfold strip.
  now rewrite lstrip_spaces_app, Hl.
Qed.

Lemma indent_indented (n : nat) (s : str) :
  lstrip s = s ->
  List.length (replicate n " "%char ++ s)
  - List.length (lstrip (replicate n " "%char ++ s)) = n.
Proof.
  intros Hl. rewrite lstrip_spaces_app, Hl, length_app.
  unfold replicate. rewrite repeat_length. lia.
Qed.

Lemma trimmed_app (a b : str) :
  a <> [] -> head_solid a -> b <> [] -> rstrip b = b -> trimmed (a ++ b).
Proof.
  intros Ha Hs Hb Hr. split; [destruct a; [congruence | discriminate]|].
  split; [now apply lstrip_app_solid | now apply rstrip_app_solid].
Qed.

(** [split] undoes [join] on lines without a line break. *)
Lemma split_char_line (l : str) :
  newline_free l = true -> split_char newline l = [l].
Proof.
  induction l as [|c r IH]; simpl; [reflexivity|].
  intros H. apply andb_true_iff in H as [Hc Hr].
  apply negb_true_iff in Hc. rewrite Hc, (IH Hr). reflexivity.
Qed.

Lemma split_char_app (l rest : str) :
  newline_free l = true ->
  split_char newline (l ++ newline :: rest) = l :: split_char newline rest.
Proof.
  induction l as [|c r IH]; simpl; intros H.
  - reflexivity.
  - apply andb_true_iff in H as [Hc Hr]. apply negb_true_iff in Hc.
    rewrite Hc, (IH Hr). reflexivity.
Qed.

Lemma split_join (ls : list str) :
  ls <> [] -> Forall (fun l => newline_free l = true) ls ->
  split_char newline (join [newline] ls) = ls.
Proof.
  induction ls as [|l ls IH]; [congruence|].
  intros _ H. inversion H as [|? ? Hl Hls]; subst.
  destruct ls as [|l' ls'].
  - simpl. now apply split_char_line.
  - change (join [newline] (l :: l' :: ls'))
      with (l ++ newline :: join [newline] (l' :: ls')).
    rewrite split_char_app by exact Hl.
    rewrite IH; [reflexivity | discriminate | exact Hls].
Qed.

Lemma join_app (sep : str) (a b : list str) :
  a <> [] -> b <> [] -> join sep (a ++ b) = join sep a ++ sep ++ join sep b.
Proof.
  induction a as [|x a IH]; [congruence|]. intros _ Hb.
  destruct a as [|y a].
  - simpl. destruct b; [congruence | reflexivity].
  - change (join sep ((x :: y :: a) ++ b))
      with (x ++ sep ++ join sep ((y :: a) ++ b)).
    rewrite IH by (discriminate || exact Hb).
    change (join sep (x :: y :: a)) with (x ++ sep ++ join sep (y :: a)).
    now rewrite <- !app_assoc.
Qed.

Lemma join_cons (sep x : str) (b : list str) :
  b <> [] -> join sep (x :: b) = x ++ sep ++ join sep b.
Proof. destruct b; [congruence | reflexivity]. Qed.

End StripFacts.

(** ** Lines of a dump, as the scanner reads them *)

Section LineFacts.

Lemma startswith_app_long (s x p : str) :
  List.length p <= List.length s -> startswith (s ++ x) p = startswith s p.
Proof.
  revert s. induction p as [|a p IH]; intros s H; [reflexivity|].
  destruct s as [|b s]; simpl in H; [lia|].
  simpl. rewrite IH by lia. reflexivity.
Qed.

Lemma startswith_hash_app (k x : str) (c : ascii) :
  Ascii.eqb "#" c = false ->
  startswith k (txt "#") = false -> startswith (k ++ c :: x) (txt "#") = false.
Proof.
  intros Hc Hk. destruct k as [|a k]; simpl in *; [now rewrite Hc | exact Hk].
Qed.

Lemma startswith_dash_app (k x : str) :
  startswith k (txt "- ") = false ->
  startswith (k ++ ":"%char :: x) (txt "- ") = false.
Proof.
  intros Hk. destruct k as [|a [|b k]]; simpl in *.
  - reflexivity.
  - now rewrite andb_false_r.
  - exact Hk.
Qed.

Lemma endswith_app_nonempty (a t : str) (c : ascii) :
  t <> [] -> endswith (a ++ t) [c] = endswith t [c].
Proof.
  intros Ht. unfold endswith. rewrite rev_app_distr.
  destruct (rev t) as [|x r] eqn:E.
  - apply (f_equal (@rev ascii)) in E. rewrite rev_involutive in E.
    now subst t.
  - reflexivity.
Qed.

Lemma split1_eq (s sep : str) :
  split1 s sep
  = if startswith s sep then [[]; skipn (List.length sep) s]
    else match s with
         | [] => [[]]
         | c :: r =>
             match split1 r sep with
             | [a; b] => [c :: a; b]
             | _ => [s]
             end
         end.
Proof. destruct s; reflexivity. Qed.

Lemma split1_first (k sep t : str) :
  (forall i, i < List.length k ->
             startswith (skipn i (k ++ sep ++ t)) sep = false) ->
  split1 (k ++ sep ++ t) sep = [k; t].
Proof.
  induction k as [|c k IH]; intros H.
  - simpl app. rewrite split1_eq, startswith_app.
    now rewrite skipn_app, Nat.sub_diag, skipn_all.
  - rewrite split1_eq. pose proof (H 0) as H0. cbn [skipn] in H0.
    rewrite H0 by (simpl; lia).
    cbn [app]. rewrite IH; [reflexivity|].
    intros i Hi. apply (H (S i)). simpl. lia.
Qed.

(** A colon followed by a space is met in [k ++ ": " ++ t] first after
    [k], when [k] holds none. *)
Lemma first_colon_space (k t : str) :
  contains k (txt ": ") = false ->
  forall i, i < List.length k ->
            startswith (skipn i (k ++ txt ": " ++ t)) (txt ": ") = false.
Proof.
  induction k as [|c k IH]; intros Hk i Hi; [simpl in Hi; lia|].
  cbn [contains] in Hk. apply orb_false_iff in Hk as [H1 H2].
  destruct i as [|i].
  - cbn [skipn]. destruct k as [|d k].
    + simpl in *. now rewrite andb_false_r.
    + rewrite startswith_app_long by (simpl; lia). exact H1.
  - cbn [skipn app]. apply IH; [exact H2 | simpl in Hi; lia].
Qed.

Lemma scan_line_value (n : nat) (t : str) :
  trimmed t ->
  startswith t (txt "#") = false -> startswith t (txt "- ") = false ->
  contains t (txt ": ") = false -> endswith t (txt ":") = false ->
  Scanner.scan_line n t
  = Ok (Some (mkToken (VALUE (Scanner._parse_value t)) n 0)).
Proof.
  intros Ht H1 H2 H3 H4. unfold Scanner.scan_line.
  rewrite (trimmed_strip Ht). destruct Ht as (Hne & Hl & Hr).
  destruct t as [|c r]; [congruence|].
  rewrite H1, H2, H3, H4, Hl, Nat.sub_diag. reflexivity.
Qed.

Lemma scan_line_item (n k : nat) (t : str) :
  t <> [] -> rstrip t = t ->
  Scanner.scan_line n (replicate k " "%char ++ txt "- " ++ t)
  = Ok (Some (mkToken (LIST_ITEM t) n k)).
Proof.
  intros Hne Hr.
  assert (Ht : trimmed (txt "- " ++ t))
    by (apply trimmed_app; [discriminate | reflexivity | exact Hne | exact Hr]).
  unfold Scanner.scan_line. rewrite (strip_indented _ Ht).
  rewrite indent_indented by apply Ht. reflexivity.
Qed.

Lemma scan_line_key (n k : nat) (key : str) :
  lstrip key = key ->
  startswith key (txt "#") = false -> startswith key (txt "- ") = false ->
  Scanner.scan_line n (replicate k " "%char ++ key ++ txt ":")
  = Ok (Some (mkToken (KEY key) n k)).
Proof.
  intros Hl H1 H2.
  assert (Ht : trimmed (key ++ txt ":")).
  { split; [destruct key; discriminate|]. split.
    - apply lstrip_solid. apply lstrip_fixed_solid in Hl.
      destruct key; [reflexivity | exact Hl].
    - now apply rstrip_last. }
  unfold Scanner.scan_line. rewrite (strip_indented _ Ht).
  rewrite indent_indented by apply Ht.
  destruct (key ++ txt ":") as [|c r] eqn:E; [destruct key; discriminate|].
  rewrite <- E.
  assert (Hh : startswith (key ++ txt ":") (txt "#") = false)
    by (apply (@startswith_hash_app key [] ":"%char); [reflexivity | exact H1]).
  assert (Hd : startswith (key ++ txt ":") (txt "- ") = false)
    by (apply (@startswith_dash_app key []); exact H2).
  assert (He : endswith (key ++ txt ":") (txt ":") = true)
    by (apply endswith_iff; now exists key).
  rewrite Hh, Hd, He, orb_true_r. unfold slice_0_m1.
  change (txt ":") with [":"%char]. now rewrite removelast_last.
Qed.

Lemma scan_line_key_value (n k : nat) (key t : str) :
  lstrip key = key ->
  startswith key (txt "#") = false -> startswith key (txt "- ") = false ->
  contains key (txt ": ") = false ->
  t <> [] -> rstrip t = t -> endswith t (txt ":") = false ->
  Scanner.scan_line n (replicate k " "%char ++ key ++ txt ": " ++ t)
  = Ok (Some (mkToken (KEY_VALUE key (Scanner._parse_value t)) n k)).
Proof.
  intros Hl H1 H2 H3 Hne Hr He.
  assert (Ht : trimmed (key ++ txt ": " ++ t)).
  { split; [destruct key; discriminate|]. split.
    - apply lstrip_solid. apply lstrip_fixed_solid in Hl.
      destruct key; [reflexivity | exact Hl].
    - rewrite app_assoc. now apply rstrip_app_solid. }
  unfold Scanner.scan_line. rewrite (strip_indented _ Ht).
  rewrite indent_indented by apply Ht.
  destruct (key ++ txt ": " ++ t) as [|c r] eqn:E; [destruct key; discriminate|].
  rewrite <- E.
  assert (Hh : startswith (key ++ txt ": " ++ t) (txt "#") = false)
    by (apply (@startswith_hash_app key (" "%char :: t) ":"%char);
        [reflexivity | exact H1]).
  assert (Hd : startswith (key ++ txt ": " ++ t) (txt "- ") = false)
    by (apply (@startswith_dash_app key (" "%char :: t)); exact H2).
  rewrite Hh, Hd.
  assert (Hc : contains (key ++ txt ": " ++ t) (txt ": ") = true)
    by (apply contains_iff; now exists key, t).
  assert (Hend : endswith (key ++ txt ": " ++ t) (txt ":") = false).
  { rewrite app_assoc. change (txt ":") with [":"%char] in *.
    rewrite endswith_app_nonempty by exact Hne. exact He. }
  rewrite Hc, Hend. cbn [orb].
  rewrite split1_first by (now apply first_colon_space). reflexivity.
Qed.

(** Texts without colon and hash, and texts that are solid. *)
Lemma colon_free_line (t : str) :
  colon_free t = true ->
  startswith t (txt "#") = false /\ contains t (txt ": ") = false
  /\ endswith t (txt ":") = false.
Proof.
  intros H. assert (Hin : forall c, In c t -> colon_or_hash c = false).
  { intros c Hc. unfold colon_free in H. rewrite forallb_forall in H.
    apply negb_true_iff, H, Hc. }
  repeat split.
  - destruct (startswith t (txt "#")) eqn:E; [|reflexivity].
    apply startswith_iff in E as [r ->].
    now specialize (Hin "#"%char (or_introl eq_refl)).
  - destruct (contains t (txt ": ")) eqn:E; [|reflexivity].
    apply contains_iff in E as [a [b ->]].
    assert (Hc : In ":"%char (a ++ txt ": " ++ b))
      by (apply in_or_app; right; now left).
    now specialize (Hin _ Hc).
  - destruct (endswith t (txt ":")) eqn:E; [|reflexivity].
    apply endswith_iff in E as [r ->].
    assert (Hc : In ":"%char (r ++ txt ":"))
      by (apply in_or_app; right; now left).
    now specialize (Hin _ Hc).
Qed.

Lemma solid_colon_free (t : str) : solid t = true -> colon_free t = true.
Proof.
  unfold solid, colon_free. rewrite !forallb_forall. intros H c Hc.
  specialize (H c Hc). unfold solid_char in H.
  now apply andb_true_iff in H as [_ H].
Qed.

Lemma solid_no_space (t : str) :
  solid t = true -> forall c, In c t -> isspace c = false.
Proof.
  unfold solid. rewrite forallb_forall. intros H c Hc.
  specialize (H c Hc). unfold solid_char in H.
  apply andb_true_iff in H as [H _]. now apply negb_true_iff.
Qed.

Lemma solid_line (t : str) :
  t <> [] -> solid t = true ->
  trimmed t /\ newline_free t = true /\ startswith t (txt "- ") = false.
Proof.
  intros Hne H. pose proof (solid_no_space _ H) as Hs. repeat split.
  - exact Hne.
  - apply lstrip_solid. destruct t as [|c r]; [exact I|].
    apply Hs. now left.
  - destruct (rev t) as [|c r] eqn:E.
    + apply (f_equal (@rev ascii)) in E. rewrite rev_involutive in E.
      now subst t.
    + apply (f_equal (@rev ascii)) in E. rewrite rev_involutive in E.
      subst t. simpl. apply rstrip_last. apply Hs.
      apply in_or_app. right. now left.
  - unfold newline_free. rewrite forallb_forall. intros c Hc.
    apply negb_true_iff. destruct (Ascii.eqb c newline) eqn:E; [|reflexivity].
    apply Ascii.eqb_eq in E. subst c. now specialize (Hs _ Hc).
  - destruct (startswith t (txt "- ")) eqn:E; [|reflexivity].
    apply startswith_iff in E as [r ->].
    now specialize (Hs " "%char (or_intror (or_introl eq_refl))).
Qed.

End LineFacts.

(** ** The text of a scalar, and what the coercion reads from it *)

Section ScalarTexts.

Ltac ascii_cases c := destruct c as [[] [] [] [] [] [] [] []].

Lemma number_char_solid (c : ascii) :
  number_char c = true -> solid_char c = true.
Proof. ascii_cases c; vm_compute; intros H; congruence. Qed.

Lemma isdigit_number_char (c : ascii) :
  isdigit c = true -> number_char c = true.
Proof. unfold number_char. now intros ->. Qed.

Lemma number_text_solid (t : str) :
  forallb number_char t = true -> solid t = true.
Proof.
  unfold solid. rewrite !forallb_forall. intros H c Hc.
  apply number_char_solid, H, Hc.
Qed.

Lemma digits_number_text (ds : str) :
  forallb isdigit ds = true -> forallb number_char ds = true.
Proof.
  rewrite !forallb_forall. intros H c Hc. apply isdigit_number_char, H, Hc.
Qed.

Lemma solid_line_ok (t : str) : t <> [] -> solid t = true -> line_ok t.
Proof.
  intros Hne H. destruct (solid_line Hne H) as (H1 & H2 & H3).
  destruct (colon_free_line _ (solid_colon_free _ H)) as (H4 & H5 & H6).
  repeat split; try assumption; apply H1.
Qed.

Lemma line_ok_value_ok (t : str) : line_ok t -> line_value_ok t.
Proof.
  intros ((H1 & H2 & H3) & H4 & H5 & H6 & H7 & H8). repeat split; assumption.
Qed.

(** *** Integers *)

Lemma py_str_int_chars (n : Z) :
  py_str_int n <> [] /\ forallb number_char (py_str_int n) = true
  /\ starts_numeric (py_str_int n) = true.
Proof.
  unfold py_str_int. destruct (n <? 0)%Z.
  - destruct (str_of_nonneg_digits (- n)) as [H1 H2].
    split; [discriminate | split; [|reflexivity]].
    simpl. now apply digits_number_text.
  - destruct (str_of_nonneg_digits n) as [H1 H2].
    split; [exact H1 | split; [now apply digits_number_text |]].
    destruct (str_of_nonneg n) as [|c r]; [congruence|].
    simpl in *. apply andb_true_iff in H2 as [-> _]. reflexivity.
Qed.

Lemma word_in_numeric (t : str) (ws : list string) :
  starts_numeric t = true ->
  Forall (fun w => match w with
                   | String c _ => isdigit c || Ascii.eqb c "-" = false
                   | EmptyString => True
                   end) ws ->
  Scanner.word_in t ws = false.
Proof.
  intros Ht Hws. unfold Scanner.word_in.
  induction Hws as [|w ws Hw _ IH]; [reflexivity|].
  simpl. rewrite IH, orb_false_r. apply eqb_neq.
  destruct t as [|c r]; [discriminate|]. destruct w as [|d w]; [discriminate|].
  simpl. intros E. injection E as E _. subst d. simpl in Ht.
  clear -Ht Hw. revert Ht Hw. ascii_cases c; vm_compute; congruence.
Qed.

Lemma numeric_passes_rules (t : str) :
  trimmed t -> starts_numeric t = true -> passes_rules_1_to_6 t.
Proof.
  intros Ht Hn. split; [now apply trimmed_strip|]. split; [apply Ht|].
  repeat split; try (apply word_in_numeric; [exact Hn|]; repeat constructor).
  - destruct t as [|c r]; [discriminate|]. simpl in Hn.
    cbn [Scanner.quote startswith].
    destruct (Ascii.eqb dquote c) eqn:E; [|reflexivity].
    apply Ascii.eqb_eq in E. subst c. discriminate.
  - destruct t as [|c r]; [discriminate|]. simpl in Hn.
    cbn [txt list_ascii_of_string startswith].
    destruct (Ascii.eqb "'" c) eqn:E; [|reflexivity].
    apply Ascii.eqb_eq in E. subst c. discriminate.
Qed.

Lemma reread_integer (n : Z) : reread (Integer n) = Integer n.
Proof.
  unfold reread, scalar_text. cbn [Dumper.dump].
  destruct (py_str_int_chars n) as (H1 & H2 & H3).
  rewrite parse_value_rules_7_to_9.
  - now rewrite py_int_str_int.
  - apply numeric_passes_rules; [|exact H3].
    apply solid_line; [exact H1 | now apply number_text_solid].
Qed.

(** *** Strings between quotes *)

Lemma quoted_trimmed (s : str) : trimmed (dquote :: s ++ [dquote]).
Proof.
  split; [discriminate|]. split; [reflexivity|].
  change (dquote :: s ++ [dquote]) with ((dquote :: s) ++ [dquote]).
  now apply rstrip_last.
Qed.

Lemma parse_value_quoted (s : str) :
  Scanner._parse_value (dquote :: s ++ [dquote]) = Str s.
Proof.
  unfold Scanner._parse_value. rewrite (trimmed_strip (quoted_trimmed s)).
  cbn [app]. cbv beta iota.
  assert (He : endswith (dquote :: s ++ [dquote]) Scanner.quote = true).
  { apply endswith_iff. now exists (dquote :: s). }
  assert (Hs : startswith (dquote :: s ++ [dquote]) Scanner.quote = true)
    by reflexivity.
  assert (Hw : forall ws,
             Forall (fun w => match w with
                              | String c _ => Ascii.eqb c dquote = false
                              | EmptyString => True
                              end) ws ->
             Scanner.word_in (dquote :: s ++ [dquote]) ws = false).
  { intros ws Hws. unfold Scanner.word_in.
    induction Hws as [|w ws Hw _ IH]; [reflexivity|].
    cbn [existsb]. rewrite IH, orb_false_r. apply eqb_neq.
    destruct w as [|d w]; [discriminate|].
    cbn [lower map txt list_ascii_of_string]. intros E.
    injection E as E _. subst d. discriminate. }
  rewrite !Hw by (repeat constructor). rewrite Hs, He. cbn [andb].
  unfold slice_1_m1. cbn [tl]. now rewrite removelast_last.
Qed.

Lemma quoted_line_value_ok (s : str) :
  newline_free s = true -> line_value_ok (dquote :: s ++ [dquote]).
Proof.
  intros H. destruct (quoted_trimmed s) as (H1 & H2 & H3).
  repeat split; try assumption.
  - unfold newline_free in *. cbn [forallb]. rewrite forallb_app, H.
    reflexivity.
  - unfold endswith.
    change (dquote :: s ++ [dquote]) with ((dquote :: s) ++ [dquote]).
    rewrite rev_app_distr. reflexivity.
Qed.

Lemma parse_value_single_quoted (s : str) :
  Scanner._parse_value ("'"%char :: s ++ ["'"%char]) = Str s.
Proof.
  assert (Ht : trimmed ("'"%char :: s ++ ["'"%char])).
  { split; [discriminate|]. split; [reflexivity|].
    change ("'"%char :: s ++ ["'"%char]) with (("'"%char :: s) ++ ["'"%char]).
    now apply rstrip_last. }
  unfold Scanner._parse_value. rewrite (trimmed_strip Ht).
  cbn [app]. cbv beta iota.
  assert (He : endswith ("'"%char :: s ++ ["'"%char]) (txt "'") = true).
  { apply endswith_iff. now exists ("'"%char :: s). }
  assert (Hs : startswith ("'"%char :: s ++ ["'"%char]) (txt "'") = true)
    by reflexivity.
  assert (Hq : startswith ("'"%char :: s ++ ["'"%char]) Scanner.quote = false)
    by reflexivity.
  assert (Hw : forall ws,
             Forall (fun w => match w with
                              | String c _ => Ascii.eqb c "'" = false
                              | EmptyString => True
                              end) ws ->
             Scanner.word_in ("'"%char :: s ++ ["'"%char]) ws = false).
  { intros ws Hws. unfold Scanner.word_in.
    induction Hws as [|w ws Hw _ IH]; [reflexivity|].
    cbn [existsb]. rewrite IH, orb_false_r. apply eqb_neq.
    destruct w as [|d w]; [discriminate|].
    cbn [lower map txt list_ascii_of_string]. intros E.
    injection E as E _. subst d. discriminate. }
  rewrite !Hw by (repeat constructor). rewrite Hq, Hs, He. cbn [andb].
  unfold slice_1_m1. cbn [tl]. now rewrite removelast_last.
Qed.

(** *** Floats *)

Lemma exponent_text_chars (e : Z) :
  forallb number_char (exponent_text e) = true.
Proof.
  destruct (exponent_text_shape e) as (es & ed & [-> | ->] & [_ Hd] & ->);
    cbn [forallb]; rewrite (digits_number_text _ Hd); reflexivity.
Qed.

Lemma firstn_skipn_digits (k : nat) (ds : str) :
  forallb isdigit ds = true ->
  forallb isdigit (firstn k ds) = true /\ forallb isdigit (skipn k ds) = true.
Proof.
  intros Hd. rewrite <- (firstn_skipn k ds), forallb_app in Hd.
  now apply andb_true_iff in Hd.
Qed.

Lemma format_repr_chars (ds : str) (decpt : Z) :
  digits ds ->
  format_repr ds decpt <> [] /\
  forallb number_char (format_repr ds decpt) = true /\
  starts_numeric (format_repr ds decpt) = true /\
  existsb point_or_e (format_repr ds decpt) = true.
Proof.
  intros [Hne Hd]. unfold format_repr.
  destruct ds as [|c r]; [congruence|].
  pose proof Hd as Hd'. cbn [forallb] in Hd'.
  apply andb_true_iff in Hd' as [Hc Hr].
  destruct ((-4 <? decpt)%Z && (decpt <=? 16)%Z).
  - destruct (Z.leb_spec decpt 0) as [H0|H0].
    + split; [discriminate|]. split; [|split; reflexivity].
      cbn [txt list_ascii_of_string app forallb].
      rewrite forallb_app, (digits_number_text _ (zeros_digits _)).
      rewrite (digits_number_text _ Hd). reflexivity.
    + destruct (Z.leb_spec (Z.of_nat (List.length (c :: r))) decpt) as [Hn|Hn].
      * split; [discriminate|]. split; [|split].
        -- rewrite !forallb_app, (digits_number_text _ Hd).
           rewrite (digits_number_text _ (zeros_digits _)). reflexivity.
        -- cbn [app starts_numeric]. now rewrite Hc.
        -- rewrite !existsb_app. cbn [txt list_ascii_of_string existsb].
           rewrite !orb_true_r. reflexivity.
      * destruct (firstn_skipn_digits (Z.to_nat decpt) (c :: r) Hd) as [Hf Hs].
        destruct (Z.to_nat decpt) as [|k] eqn:Ek; [lia|].
        split; [discriminate|]. split; [|split].
        -- rewrite forallb_app. cbn [forallb].
           rewrite (digits_number_text _ Hf), (digits_number_text _ Hs).
           reflexivity.
        -- cbn [firstn app starts_numeric]. now rewrite Hc.
        -- rewrite existsb_app. cbn [existsb]. rewrite orb_true_r. reflexivity.
  - destruct r as [|c' r'].
    + split; [discriminate|]. split; [|split].
      * cbn [forallb]. rewrite (isdigit_number_char _ Hc).
        rewrite exponent_text_chars. reflexivity.
      * cbn [starts_numeric]. now rewrite Hc.
      * cbn [existsb]. rewrite orb_true_r. reflexivity.
    + set (r := c' :: r') in *. split; [discriminate|]. split; [|split].
      * cbn [forallb]. rewrite (isdigit_number_char _ Hc).
        rewrite forallb_app. cbn [forallb].
        rewrite (digits_number_text _ Hr), exponent_text_chars. reflexivity.
      * cbn [starts_numeric]. now rewrite Hc.
      * cbn [existsb]. rewrite orb_true_r. reflexivity.
Qed.

Lemma py_str_float_chars (x : spec_float) :
  py_str_float x <> [] /\ forallb number_char (py_str_float x) = true.
Proof.
  destruct x as [s | s | | s m e]; simpl.
  - destruct s; split; (discriminate || reflexivity).
  - destruct s; split; (discriminate || reflexivity).
  - split; (discriminate || reflexivity).
  - unfold float_digits.
    destruct (shortest _ _ _ _ _ _) as [D0 p0].
    destruct (drop_zeros _ _ _) as [D p].
    destruct (format_repr_chars (Z.of_nat (List.length (str_of_nonneg D)) + p)
                                (str_of_nonneg_digits D)) as (H1 & H2 & _).
    destruct s; [|now split]. split; [discriminate|].
    cbn [forallb]. now rewrite H2.
Qed.

Lemma py_str_float_finite (x : spec_float) :
  is_finite x = true ->
  starts_numeric (py_str_float x) = true /\
  existsb point_or_e (py_str_float x) = true.
Proof.
  destruct x as [s | s | | s m e]; try discriminate; intros _; simpl.
  - destruct s; split; reflexivity.
  - unfold float_digits.
    destruct (shortest _ _ _ _ _ _) as [D0 p0].
    destruct (drop_zeros _ _ _) as [D p].
    destruct (format_repr_chars (Z.of_nat (List.length (str_of_nonneg D)) + p)
                                (str_of_nonneg_digits D)) as (_ & _ & H3 & H4).
    destruct s; [|now split]. split; [reflexivity|].
    cbn [existsb]. now rewrite H4.
Qed.

Lemma int_digits_chars (r : str) :
  forall acc b n,
    int_digits r acc b = Some n -> existsb point_or_e r = false.
Proof.
  induction r as [|c r IH]; intros acc b n H; [reflexivity|].
  cbn [int_digits] in H. cbn [existsb].
  destruct (isdigit c) eqn:Ed.
  - rewrite (IH _ _ _ H), orb_false_r.
    clear -Ed. revert Ed. ascii_cases c; vm_compute; congruence.
  - destruct (is_char c "_") eqn:Eu; [|discriminate].
    apply Ascii.eqb_eq in Eu. subst c.
    destruct b; [|discriminate]. now rewrite (IH _ _ _ H).
Qed.

Lemma py_int_no_point (t : str) :
  existsb point_or_e t = true -> py_int t = None.
Proof.
  intros H. unfold py_int. destruct (sign t) as [neg r] eqn:Es.
  destruct (int_digits r 0 false) as [n|] eqn:E; [|reflexivity].
  apply int_digits_chars in E. exfalso.
  unfold sign in Es. destruct t as [|c t']; [discriminate|].
  destruct (is_char c "-") eqn:E1.
  - apply Ascii.eqb_eq in E1. subst c. injection Es as _ <-.
    cbn [existsb] in H. rewrite E in H. discriminate.
  - destruct (is_char c "+") eqn:E2.
    + apply Ascii.eqb_eq in E2. subst c. injection Es as _ <-.
      cbn [existsb] in H. rewrite E in H. discriminate.
    + injection Es as _ <-. congruence.
Qed.

(** A Float that [float] reads back from its text is read back by the
    coercion. *)
Lemma reread_float (x : spec_float) :
  py_float (py_str_float x) = Some x -> reread (Float x) = Float x.
Proof.
  intros H. destruct (is_finite x) eqn:Ef.
  - unfold reread, scalar_text. cbn [Dumper.dump].
    destruct (py_str_float_chars x) as [H1 H2].
    destruct (py_str_float_finite x Ef) as [H3 H4].
    rewrite parse_value_rules_7_to_9.
    + now rewrite (py_int_no_point _ H4), H.
    + apply numeric_passes_rules; [|exact H3].
      apply solid_line; [exact H1 | now apply number_text_solid].
  - destruct x as [s | [] | | s m e]; try discriminate; reflexivity.
Qed.

End ScalarTexts.

(** ** The dump of a loaded value, line by line *)

Section DumpLines.

Variable ind : nat.

Lemma scalar_dump (x : Value) (level : nat) :
  is_scalar x = true -> Dumper.dump ind x level = scalar_text x.
Proof. destruct x; try discriminate; reflexivity. Qed.

Lemma scalar_not_collection (x : Value) :
  is_scalar x = true -> Dumper.is_collection x = false.
Proof. unfold is_scalar. now intros H%negb_true_iff. Qed.

Lemma join_flatten (sep : str) (bs rest : list str) :
  bs <> [] -> join sep (join sep bs :: rest) = join sep (bs ++ rest).
Proof.
  intros Hb. destruct rest as [|r rest].
  - now rewrite app_nil_r.
  - rewrite join_cons by discriminate.
    now rewrite join_app by (assumption || discriminate).
Qed.

Lemma dump_sequence (l : list Value) (level : nat) :
  l <> [] -> Forall loaded_scalar l ->
  Dumper.dump ind (Sequence l) level
  = join [newline] (dump_lines ind (Sequence l) level).
Proof.
  intros Hne Hl. destruct l as [|x l]; [congruence|].
  cbn [Dumper.dump dump_lines]. f_equal. apply map_ext_in.
  intros y Hy. rewrite Forall_forall in Hl. destruct (Hl y Hy) as [Hs _].
  rewrite (scalar_not_collection _ Hs), (scalar_dump _ _ Hs).
  reflexivity.
Qed.

Lemma dump_lines_nonempty (v : Value) (level : nat) :
  loaded v -> dump_lines ind v level <> [].
Proof.
  destruct v as [ | | | | | l | m]; try discriminate; intros [Hne H].
  - destruct l; [congruence | discriminate].
  - destruct H as [|k x r _ _ [Hs _] _|k l r|k m' r]; [congruence| | |].
    + cbn [dump_lines flat_map]. rewrite (scalar_not_collection _ Hs).
      discriminate.
    + cbn [dump_lines flat_map]. destruct l; [congruence | discriminate].
    + cbn [dump_lines flat_map]. destruct m'; [congruence | discriminate].
Qed.

Lemma dump_entries (m : list (str * Value)) :
  loaded_entries m ->
  forall level,
    m <> [] ->
    Dumper.dump ind (Mapping m) level
    = join [newline] (dump_lines ind (Mapping m) level).
Proof.
  intros H.
  enough (E : forall level,
             join [newline]
               (flat_map (fun kv : str * Value =>
                  let '(key, value) := kv in
                  if Dumper.is_collection value && Dumper.truthy value then
                    [Dumper.prefix ind level ++ key ++ txt ":";
                     Dumper.dump ind value (level + 1)]
                  else
                    [Dumper.prefix ind level ++ key ++ txt ": "
                       ++ Dumper.dump ind value 0]) m)
             = join [newline] (dump_lines ind (Mapping m) level)).
  { intros level Hne. destruct m; [congruence|]. exact (E level). }
  induction H as [|k x r Hk Hin [Hs Hx] Hr IHr
                  |k l r Hk Hin Hne Hl Hr IHr
                  |k m' r Hk Hin Hne Hm IHm Hr IHr]; intros level.
  - reflexivity.
  - cbn [dump_lines flat_map]. rewrite (scalar_not_collection _ Hs).
    cbn [andb app]. rewrite (scalar_dump _ _ Hs).
    destruct r as [|e r]; [reflexivity|].
    specialize (IHr level). cbn [dump_lines] in IHr.
    rewrite !join_cons; try (now rewrite IHr).
    + intros E. apply (@dump_lines_nonempty (Mapping (e :: r)) level).
      * split; [discriminate | exact Hr].
      * exact E.
    + clear. destruct e as [k' x']. cbn [flat_map].
      destruct (Dumper.is_collection x' && Dumper.truthy x'); discriminate.
  - assert (Ht : Dumper.is_collection (Sequence l) && Dumper.truthy (Sequence l)
                 = true) by (destruct l; [congruence | reflexivity]).
    cbn [dump_lines flat_map]. rewrite Ht.
    rewrite (dump_sequence _ Hne Hl).
    cbn [app]. rewrite join_cons by discriminate.
    rewrite (join_cons _ (Dumper.prefix ind level ++ k ++ txt ":")).
    2:{ destruct l; [congruence | discriminate]. }
    f_equal. f_equal.
    assert (Hd : dump_lines ind (Sequence l) (level + 1) <> [])
      by (destruct l; [congruence | discriminate]).
    specialize (IHr level). cbn [dump_lines] in IHr.
    destruct r as [|e r].
    + cbn [flat_map]. now rewrite app_nil_r.
    + rewrite join_flatten by exact Hd.
      rewrite !join_app; try exact Hd; try (now rewrite IHr).
      * intros E. apply (@dump_lines_nonempty (Mapping (e :: r)) level).
        -- split; [discriminate | exact Hr].
        -- exact E.
      * clear. destruct e as [k' x']. cbn [flat_map].
        destruct (Dumper.is_collection x' && Dumper.truthy x'); discriminate.
  - assert (Ht : Dumper.is_collection (Mapping m') && Dumper.truthy (Mapping m')
                 = true) by (destruct m'; [congruence | reflexivity]).
    cbn [dump_lines flat_map]. rewrite Ht.
    assert (Em : Dumper.dump ind (Mapping m') (level + 1)
                 = join [newline] (dump_lines ind (Mapping m') (level + 1))).
    { destruct m'; [congruence|]. exact (IHm (level + 1)). }
    rewrite Em.
    assert (Hd : dump_lines ind (Mapping m') (level + 1) <> []).
    { apply dump_lines_nonempty. now split. }
    cbn [app]. rewrite join_cons by discriminate.
    rewrite (join_cons _ (Dumper.prefix ind level ++ k ++ txt ":")).
    2:{ intros E. apply app_eq_nil in E as [E _]. now apply Hd. }
    f_equal. f_equal.
    specialize (IHr level). cbn [dump_lines] in IHr.
    destruct r as [|e r].
    + cbn [flat_map]. now rewrite app_nil_r.
    + rewrite join_flatten by exact Hd.
      rewrite !join_app; try exact Hd; try (now rewrite IHr).
      * intros E. apply (@dump_lines_nonempty (Mapping (e :: r)) level).
        -- split; [discriminate | exact Hr].
        -- exact E.
      * clear. destruct e as [k' x']. cbn [flat_map].
        destruct (Dumper.is_collection x' && Dumper.truthy x'); discriminate.
Qed.

Lemma leaves_cons k x r :
  leaves (Mapping ((k, x) :: r)) = leaves x ++ leaves (Mapping r).
Proof. reflexivity. Qed.

Lemma scalar_keys_cons k x r :
  scalar_keys (Mapping ((k, x) :: r))
  = (if is_scalar x then [k] else scalar_keys x) ++ scalar_keys (Mapping r).
Proof. reflexivity. Qed.

Lemma leaves_scalar (x : Value) : is_scalar x = true -> leaves x = [x].
Proof. destruct x; try discriminate; reflexivity. Qed.

Lemma leaves_scalars (l : list Value) :
  Forall loaded_scalar l -> leaves (Sequence l) = l.
Proof.
  induction 1 as [|x l [Hx _] _ IH]; [reflexivity|].
  cbn [leaves flat_map] in *. now rewrite (leaves_scalar _ Hx), IH.
Qed.

Lemma scalar_keys_scalars (l : list Value) :
  Forall loaded_scalar l -> scalar_keys (Sequence l) = [].
Proof.
  induction 1 as [|x l [Hx _] _ IH]; [reflexivity|].
  cbn [scalar_keys flat_map] in *. rewrite IH.
  destruct x; try discriminate; reflexivity.
Qed.

Lemma newline_free_app (a b : str) :
  newline_free (a ++ b) = newline_free a && newline_free b.
Proof. apply forallb_app. Qed.

Lemma prefix_newline_free (level : nat) :
  newline_free (Dumper.prefix ind level) = true.
Proof.
  unfold Dumper.prefix, replicate. induction (level * ind); simpl; auto.
Qed.

Lemma scans_to_nil : scans_to [] [].
Proof. intros n. exists []. split; reflexivity. Qed.

Lemma scans_to_cons l ls b i ss :
  (forall n, Scanner.scan_line n l = Ok (Some (mkToken b n i))) ->
  scans_to ls ss -> scans_to (l :: ls) ((b, i) :: ss).
Proof.
  intros Hl Hls n. destruct (Hls (S n)) as [ts [H1 H2]].
  exists (mkToken b n i :: ts). cbn [Scanner.scan_lines].
  rewrite Hl. cbn [bind]. rewrite H1. cbn [bind]. split; [reflexivity|].
  cbn [map]. now rewrite H2.
Qed.

Lemma scan_lines_app (a b : list str) :
  forall n ta tb,
    Scanner.scan_lines n a = Ok ta ->
    Scanner.scan_lines (List.length a + n) b = Ok tb ->
    Scanner.scan_lines n (a ++ b) = Ok (ta ++ tb).
Proof.
  induction a as [|l a IH]; intros n ta tb Ha Hb.
  - simpl in *. injection Ha as <-. exact Hb.
  - cbn [Scanner.scan_lines app] in *.
    destruct (Scanner.scan_line n l) as [t| |]; try discriminate.
    cbn [bind] in *.
    destruct (Scanner.scan_lines (S n) a) as [ta'| |] eqn:E; try discriminate.
    cbn [bind] in *. injection Ha as <-.
    rewrite (IH (S n) ta' tb E).
    + cbn [bind]. destruct t; reflexivity.
    + rewrite <- Hb. f_equal. simpl. lia.
Qed.

Lemma scans_to_app a b sa sb :
  scans_to a sa -> scans_to b sb -> scans_to (a ++ b) (sa ++ sb).
Proof.
  intros Ha Hb n. destruct (Ha n) as [ta [H1 H2]].
  destruct (Hb (List.length a + n)) as [tb [H3 H4]].
  exists (ta ++ tb). split; [now apply scan_lines_app|].
  now rewrite map_app, H2, H4.
Qed.

Lemma lines_sequence (l : list Value) (level : nat) :
  Forall (fun x => line_value_ok (scalar_text x)) l ->
  Forall (fun line => newline_free line = true)
         (dump_lines ind (Sequence l) level)
  /\ scans_to (dump_lines ind (Sequence l) level)
              (shapes ind (Sequence l) level).
Proof.
  induction 1 as [|x l (H1 & H2 & H3 & H4) _ [IH1 IH2]].
  - split; [constructor | apply scans_to_nil].
  - split.
    + cbn [dump_lines map]. constructor; [|exact IH1].
      rewrite !newline_free_app, prefix_newline_free, H3. reflexivity.
    + cbn [dump_lines shapes map]. apply scans_to_cons; [|exact IH2].
      intros n. now apply scan_line_item.
Qed.

Lemma lines_entries (m : list (str * Value)) :
  loaded_entries m ->
  forall level,
    Forall (fun x => line_value_ok (scalar_text x)) (leaves (Mapping m)) ->
    Forall (fun k => contains k (txt ": ") = false) (scalar_keys (Mapping m)) ->
    Forall (fun line => newline_free line = true)
           (dump_lines ind (Mapping m) level)
    /\ scans_to (dump_lines ind (Mapping m) level)
                (shapes ind (Mapping m) level).
Proof.
  induction 1 as [|k x r (K1 & K2 & K3 & K4) Hin [Hs Hx] Hr IHr
                  |k l r (K1 & K2 & K3 & K4) Hin Hne Hl Hr IHr
                  |k m' r (K1 & K2 & K3 & K4) Hin Hne Hm IHm Hr IHr];
    intros level HP HQ.
  - split; [constructor | apply scans_to_nil].
  - rewrite leaves_cons, (leaves_scalar _ Hs) in HP.
    rewrite scalar_keys_cons, Hs in HQ. cbn [app] in HP, HQ.
    inversion HP as [|? ? (H1 & H2 & H3 & H4) HP']; subst.
    inversion HQ as [|? ? Hk HQ']; subst.
    destruct (IHr level HP' HQ') as [IH1 IH2].
    cbn [dump_lines shapes flat_map] in *.
    rewrite (scalar_not_collection _ Hs). cbn [andb app]. split.
    + constructor; [|exact IH1].
      rewrite !newline_free_app, prefix_newline_free, K1, H3. reflexivity.
    + apply scans_to_cons; [|exact IH2].
      intros n. now apply scan_line_key_value.
  - assert (Ht : Dumper.is_collection (Sequence l) && Dumper.truthy (Sequence l)
                 = true) by (destruct l; [congruence | reflexivity]).
    rewrite leaves_cons, (leaves_scalars Hl) in HP.
    rewrite scalar_keys_cons, (scalar_keys_scalars Hl) in HQ.
    apply Forall_app in HP as [HPl HPr]. cbn [is_scalar Dumper.is_collection negb app] in HQ.
    destruct (IHr level HPr HQ) as [IH1 IH2].
    destruct (lines_sequence (level + 1) HPl) as [S1 S2].
    cbn [dump_lines shapes flat_map] in *. rewrite Ht. split.
    + cbn [app]. constructor.
      * rewrite !newline_free_app, prefix_newline_free, K1. reflexivity.
      * apply Forall_app. now split.
    + cbn [app]. apply scans_to_cons.
      * intros n. now apply scan_line_key.
      * now apply scans_to_app.
  - assert (Ht : Dumper.is_collection (Mapping m') && Dumper.truthy (Mapping m')
                 = true) by (destruct m'; [congruence | reflexivity]).
    rewrite leaves_cons in HP. rewrite scalar_keys_cons in HQ.
    apply Forall_app in HP as [HPl HPr].
    cbn [is_scalar Dumper.is_collection negb] in HQ.
    apply Forall_app in HQ as [HQl HQr].
    destruct (IHr level HPr HQr) as [IH1 IH2].
    destruct (IHm (level + 1) HPl HQl) as [S1 S2].
    cbn [dump_lines shapes flat_map] in *. rewrite Ht. split.
    + cbn [app]. constructor.
      * rewrite !newline_free_app, prefix_newline_free, K1. reflexivity.
      * apply Forall_app. now split.
    + cbn [app]. apply scans_to_cons.
      * intros n. now apply scan_line_key.
      * now apply scans_to_app.
Qed.

End DumpLines.

(** ** Parsing the tokens of a dump *)

Section FuelFacts.

Variable tokens : list Token.

Lemma list_loop_more_fuel (fuel : nat) :
  forall base pos result r,
    Parser.list_loop tokens fuel base pos result = Ok r ->
    forall fuel', fuel <= fuel' ->
                  Parser.list_loop tokens fuel' base pos result = Ok r.
Proof.
  induction fuel as [|f IH]; intros base pos result r H fuel' Hf;
    [discriminate|].
  destruct fuel' as [|f']; [lia|]. simpl in *.
  destruct (nth_error tokens pos) as [t|]; [|exact H].
  destruct (indent t <? base); [exact H|].
  destruct (body t); try exact H. apply (IH _ _ _ _ H). lia.
Qed.

Lemma parse_more_fuel (fuel : nat) :
  (forall base pos r,
      Parser._parse_value tokens fuel base pos = Ok r ->
      forall fuel', fuel <= fuel' ->
                    Parser._parse_value tokens fuel' base pos = Ok r)
  /\
  (forall base pos result r,
      Parser.mapping_loop tokens fuel base pos result = Ok r ->
      forall fuel', fuel <= fuel' ->
                    Parser.mapping_loop tokens fuel' base pos result = Ok r).
Proof.
  induction fuel as [|f [IHv IHm]]; [split; intros; discriminate|].
  split.
  - intros base pos r H fuel' Hf. destruct fuel' as [|f']; [lia|].
    simpl in *. destruct (nth_error tokens pos) as [t|]; [|exact H].
    destruct (body t); try exact H.
    + unfold Parser._parse_list in *.
      eapply list_loop_more_fuel; [exact H | lia].
    + apply (IHm _ _ _ _ H). lia.
    + apply (IHm _ _ _ _ H). lia.
  - intros base pos result r H fuel' Hf. destruct fuel' as [|f']; [lia|].
    simpl in *. destruct (nth_error tokens pos) as [t|]; [|exact H].
    destruct (indent t <? base); [exact H|].
    destruct (body t); try exact H.
    + destruct (nth_error tokens (pos + 1)) as [t'|].
      * destruct (indent t <? indent t').
        -- destruct (Parser._parse_value tokens f (indent t') (pos + 1))
             as [[v p1]| |] eqn:E; try discriminate.
           rewrite (IHv _ _ _ E f') by lia. cbn [bind] in *.
           apply (IHm _ _ _ _ H). lia.
        -- apply (IHm _ _ _ _ H). lia.
      * apply (IHm _ _ _ _ H). lia.
    + apply (IHm _ _ _ _ H). lia.
Qed.

Lemma token_at (pre rest : list (TokenBody * nat)) b i :
  map shape tokens = pre ++ (b, i) :: rest ->
  exists t, nth_error tokens (List.length pre) = Some t
            /\ body t = b /\ indent t = i.
Proof.
  intros H.
  assert (E : nth_error (map shape tokens) (List.length pre) = Some (b, i)).
  { rewrite H, nth_error_app2, Nat.sub_diag by lia. reflexivity. }
  rewrite nth_error_map in E.
  destruct (nth_error tokens (List.length pre)) as [t|]; [|discriminate].
  injection E as E1 E2. now exists t.
Qed.

Lemma token_at_end (pre : list (TokenBody * nat)) :
  map shape tokens = pre -> nth_error tokens (List.length pre) = None.
Proof.
  intros H. apply nth_error_None.
  rewrite <- H, length_map. lia.
Qed.

Lemma list_loop_S (fuel base pos : nat) (result : list Value) :
  Parser.list_loop tokens (S fuel) base pos result
  = match nth_error tokens pos with
    | None => Ok (Sequence result, pos)
    | Some token =>
        if indent token <? base then Ok (Sequence result, pos)
        else
          match body token with
          | LIST_ITEM raw =>
              Parser.list_loop tokens fuel base (pos + 1)
                               (result ++ [Parser._parse_scalar raw])
          | _ => Ok (Sequence result, pos)
          end
    end.
Proof. reflexivity. Qed.

Lemma parse_value_S (fuel base pos : nat) :
  Parser._parse_value tokens (S fuel) base pos
  = match nth_error tokens pos with
    | None => Ok (Null, pos)
    | Some token =>
        match body token with
        | LIST_ITEM _ => Parser._parse_list tokens fuel base pos
        | KEY _ => Parser.mapping_loop tokens fuel base pos []
        | KEY_VALUE _ _ => Parser.mapping_loop tokens fuel base pos []
        | VALUE value => Ok (value, pos + 1)
        end
    end.
Proof. reflexivity. Qed.

Lemma mapping_loop_S (fuel base pos : nat) (result : list (str * Value)) :
  Parser.mapping_loop tokens (S fuel) base pos result
  = match nth_error tokens pos with
    | None => Ok (Mapping result, pos)
    | Some token =>
        if indent token <? base then Ok (Mapping result, pos)
        else
          match body token with
          | KEY_VALUE key value =>
              Parser.mapping_loop tokens fuel base (pos + 1)
                                  (dict_set result key value)
          | KEY key =>
              match nth_error tokens (pos + 1) with
              | Some next_token =>
                  if indent token <? indent next_token then
                    '(value, pos') <-
                      Parser._parse_value tokens fuel (indent next_token)
                                          (pos + 1) ;;
                    Parser.mapping_loop tokens fuel base pos'
                                        (dict_set result key value)
                  else
                    Parser.mapping_loop tokens fuel base (pos + 1)
                                        (dict_set result key Null)
              | None =>
                  Parser.mapping_loop tokens fuel base (pos + 1)
                                      (dict_set result key Null)
              end
          | _ => Ok (Mapping result, pos)
          end
    end.
Proof. reflexivity. Qed.

End FuelFacts.

Section ParseShapes.

Variable ind : nat.
Hypothesis ind_pos : 0 < ind.

Lemma reread_tree_scalar (x : Value) :
  is_scalar x = true -> reread_tree x = reread x.
Proof. destruct x; try discriminate; reflexivity. Qed.

Lemma reread_tree_scalars (l : list Value) :
  Forall loaded_scalar l -> map reread_tree l = map reread l.
Proof.
  intros H. apply map_ext_in. intros x Hx. rewrite Forall_forall in H.
  apply reread_tree_scalar, (H x Hx).
Qed.

Lemma parse_items (l : list Value) :
  forall tokens pre post acc base,
    map shape tokens
    = pre ++ map (fun x => (LIST_ITEM (scalar_text x), base)) l ++ post ->
    ends_list base post ->
    Parser.list_loop tokens (S (List.length l)) base (List.length pre) acc
    = Ok (Sequence (acc ++ map reread l), List.length pre + List.length l).
Proof.
  induction l as [|x l IH]; intros tokens pre post acc base Hs Hp.
  - cbn [map app List.length] in *. rewrite list_loop_S.
    rewrite app_nil_r, Nat.add_0_r. destruct post as [|[b i] post].
    + rewrite app_nil_r in Hs. now rewrite (@token_at_end _ _ Hs).
    + destruct (@token_at _ _ _ _ _ Hs) as (t & -> & Hb & Hi). subst.
      destruct (Nat.ltb_spec (indent t) base) as [Hlt|Hge]; [reflexivity|].
      destruct Hp as [Hp | Hp]; [lia|].
      destruct (body t); try reflexivity. now specialize (Hp raw).
  - cbn [map app] in Hs.
    destruct (@token_at _ _ _ _ _ Hs) as (t & Ht & Hb & Hi).
    cbn [List.length]. rewrite list_loop_S, Ht, Hb, Hi.
    rewrite Nat.ltb_irrefl.
    replace (List.length pre + 1)
      with (List.length (pre ++ [(LIST_ITEM (scalar_text x), base)]))
      by (rewrite length_app; reflexivity).
    rewrite (IH tokens _ post); [| now rewrite <- app_assoc | exact Hp].
    rewrite length_app, <- app_assoc. cbn [List.length app map].
    f_equal. f_equal. lia.
Qed.

Lemma dict_set_fresh d key value :
  ~ In key (dict_keys d) -> dict_set d key value = d ++ [(key, value)].
Proof.
  induction d as [|[k v] r IH]; intros H; [reflexivity|].
  cbn [dict_set]. cbn [dict_keys map fst] in H.
  destruct (PyStr.eqb k key) eqn:E.
  - apply eqb_eq in E. subst. exfalso. apply H. now left.
  - cbn [app]. rewrite IH; [reflexivity|]. intros Hin. apply H. now right.
Qed.

Lemma dict_keys_app (a b : list (str * Value)) :
  dict_keys (a ++ b) = dict_keys a ++ dict_keys b.
Proof. apply map_app. Qed.

(** The tokens of the entries start with a key, at the indent of the
    entries. *)
Lemma shapes_entries_head (m : list (str * Value)) (level : nat) :
  loaded_entries m -> m <> [] ->
  exists b rest,
    shapes ind (Mapping m) level = (b, level * ind) :: rest /\ key_like b.
Proof.
  intros H Hne.
  destruct H as [|k x r _ _ [Hs _] _|k l r _ _ Hl _ _|k m' r _ _ Hm _ _];
    [congruence| | |]; cbn [shapes flat_map].
  - rewrite (scalar_not_collection _ Hs). cbn [andb app].
    eexists _, _. split; [reflexivity | exact I].
  - destruct l; [congruence|]. eexists _, _. split; [reflexivity | exact I].
  - destruct m'; [congruence|]. eexists _, _. split; [reflexivity | exact I].
Qed.

Lemma shallow_after_entries (m : list (str * Value)) (level : nat) post :
  loaded_entries m -> shallow (level * ind) post ->
  shallow ((level + 1) * ind) (shapes ind (Mapping m) level ++ post).
Proof.
  intros H Hp. destruct m as [|e m].
  - cbn [shapes flat_map app]. destruct post as [|[b i] post]; [exact I|].
    simpl in *. lia.
  - destruct (@shapes_entries_head (e :: m) level H) as (b & rest & -> & _);
      [discriminate|].
    simpl. lia.
Qed.

Lemma shallow_ends_list base post : shallow base post -> ends_list base post.
Proof. destruct post as [|[b i] post]; simpl; auto. Qed.

Lemma mapping_loop_more_fuel tokens fuel fuel' base pos result r :
  Parser.mapping_loop tokens fuel base pos result = Ok r -> fuel <= fuel' ->
  Parser.mapping_loop tokens fuel' base pos result = Ok r.
Proof. intros H Hf. eapply (proj2 (parse_more_fuel tokens fuel)); eauto. Qed.

Lemma parse_value_more_fuel tokens fuel fuel' base pos r :
  Parser._parse_value tokens fuel base pos = Ok r -> fuel <= fuel' ->
  Parser._parse_value tokens fuel' base pos = Ok r.
Proof. intros H Hf. eapply (proj1 (parse_more_fuel tokens fuel)); eauto. Qed.

Lemma length_snoc (A : Type) (l : list A) (x : A) :
  List.length (l ++ [x]) = List.length l + 1.
Proof. now rewrite length_app. Qed.

Lemma parse_entries (m : list (str * Value)) :
  loaded_entries m ->
  forall level tokens pre post acc,
    map shape tokens = pre ++ shapes ind (Mapping m) level ++ post ->
    shallow (level * ind) post ->
    (forall k, In k (dict_keys m) -> ~ In k (dict_keys acc)) ->
    exists fuel,
      Parser.mapping_loop tokens fuel (level * ind) (List.length pre) acc
      = Ok (Mapping (acc ++ map reread_entry m),
            List.length pre + List.length (shapes ind (Mapping m) level)).
Proof.
  induction 1 as [|k x r Hk Hin [Hs Hx] Hr IHr
                  |k l r Hk Hin Hne Hl Hr IHr
                  |k m' r Hk Hin Hne Hm IHm Hr IHr];
    intros level tokens pre post acc Hsh Hpost Hfresh.
  - exists 1. cbn [shapes flat_map app List.length map] in *.
    rewrite mapping_loop_S, app_nil_r, Nat.add_0_r.
    destruct post as [|[b i] post].
    + rewrite app_nil_r in Hsh. now rewrite (@token_at_end _ _ Hsh).
    + destruct (@token_at _ _ _ _ _ Hsh) as (t & -> & Hb & Hi). subst.
      simpl in Hpost.
      destruct (Nat.ltb_spec (indent t) (level * ind)); [reflexivity | lia].
  - assert (Es : shapes ind (Mapping ((k, x) :: r)) level
                 = (KEY_VALUE k (reread x), level * ind)
                     :: shapes ind (Mapping r) level).
    { cbn [shapes flat_map]. now rewrite (scalar_not_collection _ Hs). }
    rewrite Es in *. cbn [app] in Hsh.
    destruct (@token_at _ _ _ _ _ Hsh) as (t & Ht & Hb & Hi).
    destruct (IHr level tokens (pre ++ [(KEY_VALUE k (reread x), level * ind)])
                  post (acc ++ [(k, reread x)])) as [f Hf].
    + now rewrite <- app_assoc.
    + exact Hpost.
    + intros k' Hk' Hacc. rewrite dict_keys_app in Hacc.
      apply in_app_or in Hacc as [Hacc | [<- | []]].
      * apply (Hfresh k'); [now right | exact Hacc].
      * now apply Hin.
    + exists (S f). rewrite mapping_loop_S, Ht, Hb, Hi, Nat.ltb_irrefl.
      rewrite dict_set_fresh by (apply Hfresh; now left).
      rewrite length_snoc in Hf. rewrite Hf.
      cbn [map List.length].
      change (reread_entry (k, x)) with (k, reread_tree x).
      rewrite (reread_tree_scalar _ Hs), <- app_assoc.
      f_equal. f_equal. lia.
  - pose (base := level * ind). pose (base' := (level + 1) * ind).
    pose (items := map (fun x => (LIST_ITEM (scalar_text x), base')) l).
    assert (Es : shapes ind (Mapping ((k, Sequence l) :: r)) level
                 = (KEY k, base) :: items ++ shapes ind (Mapping r) level).
    { cbn [shapes flat_map]. destruct l; [congruence | reflexivity]. }
    rewrite Es in *. cbn [app] in Hsh. rewrite <- app_assoc in Hsh.
    destruct (@token_at _ _ _ _ _ Hsh) as (t & Ht & Hb & Hi).
    assert (Hsh' : map shape tokens
                   = (pre ++ [(KEY k, base)])
                       ++ items ++ shapes ind (Mapping r) level ++ post)
      by now rewrite <- app_assoc.
    assert (Hitems : Parser.list_loop tokens (S (List.length l)) base'
                       (List.length (pre ++ [(KEY k, base)])) []
                     = Ok (Sequence ([] ++ map reread l),
                           List.length (pre ++ [(KEY k, base)])
                           + List.length l)).
    { apply (@parse_items l tokens _ (shapes ind (Mapping r) level ++ post));
        [exact Hsh'|].
      apply shallow_ends_list. now apply shallow_after_entries. }
    cbn [app] in Hitems. rewrite length_snoc in Hitems.
    assert (Hnext : exists t' raw,
               nth_error tokens (List.length pre + 1) = Some t'
               /\ body t' = LIST_ITEM raw /\ indent t' = base').
    { clear Hitems. subst items. destruct l as [|x0 l0]; [congruence|].
      cbn [map app] in Hsh'.
      destruct (@token_at _ _ _ _ _ Hsh') as (t' & Ht' & Hb' & Hi').
      rewrite length_snoc in Ht'. now exists t', (scalar_text x0). }
    destruct Hnext as (t' & raw & Ht' & Hb' & Hi').
    destruct (IHr level tokens ((pre ++ [(KEY k, base)]) ++ items) post
                  (acc ++ [(k, Sequence (map reread l))])) as [f Hf].
    + now rewrite <- !app_assoc in *.
    + exact Hpost.
    + intros k' Hk' Hacc. rewrite dict_keys_app in Hacc.
      apply in_app_or in Hacc as [Hacc | [<- | []]].
      * apply (Hfresh k'); [now right | exact Hacc].
      * now apply Hin.
    + exists (S (S (S (List.length l) + f))).
      rewrite mapping_loop_S, Ht, Hb, Hi, Nat.ltb_irrefl, Ht', Hi'.
      assert (Hlt : (base <? base') = true)
        by (apply Nat.ltb_lt; subst base base'; nia).
      fold base. rewrite Hlt.
      rewrite parse_value_S, Ht', Hb'. unfold Parser._parse_list.
      rewrite (@list_loop_more_fuel tokens _ _ _ _ _ Hitems) by lia.
      cbn [bind].
      rewrite dict_set_fresh by (apply Hfresh; now left).
      rewrite !length_app in Hf. subst items. rewrite length_map in Hf.
      cbn [List.length] in Hf.
      rewrite (mapping_loop_more_fuel _ _ _ _ Hf) by lia.
      cbn [map List.length].
      change (reread_entry (k, Sequence l))
        with (k, Sequence (map reread_tree l)).
      rewrite (reread_tree_scalars Hl), <- app_assoc.
      rewrite length_app, length_map. f_equal. f_equal. lia.
  - pose (base := level * ind). pose (base' := (level + 1) * ind).
    pose (inner := shapes ind (Mapping m') (level + 1)).
    assert (Es : shapes ind (Mapping ((k, Mapping m') :: r)) level
                 = (KEY k, base) :: inner ++ shapes ind (Mapping r) level).
    { cbn [shapes flat_map]. destruct m'; [congruence | reflexivity]. }
    rewrite Es in *. cbn [app] in Hsh. rewrite <- app_assoc in Hsh.
    destruct (@token_at _ _ _ _ _ Hsh) as (t & Ht & Hb & Hi).
    assert (Hsh' : map shape tokens
                   = (pre ++ [(KEY k, base)])
                       ++ inner ++ shapes ind (Mapping r) level ++ post)
      by now rewrite <- app_assoc.
    destruct (IHm (level + 1) tokens (pre ++ [(KEY k, base)])
                  (shapes ind (Mapping r) level ++ post) []) as [fm Hfm].
    + exact Hsh'.
    + now apply shallow_after_entries.
    + intros k' _ [].
    + rewrite length_snoc in Hfm. cbn [app] in Hfm. fold inner in Hfm.
      destruct (@shapes_entries_head m' (level + 1) Hm Hne)
        as (b0 & rest0 & Ehead & Hkl).
      fold inner in Ehead.
      assert (Hnext : exists t', nth_error tokens (List.length pre + 1) = Some t'
                                 /\ body t' = b0 /\ indent t' = base').
      { rewrite Ehead in Hsh'. cbn [app] in Hsh'.
        destruct (@token_at _ _ _ _ _ Hsh') as (t' & Ht' & Hb' & Hi').
        rewrite length_snoc in Ht'. now exists t'. }
      destruct Hnext as (t' & Ht' & Hb' & Hi').
      destruct (IHr level tokens ((pre ++ [(KEY k, base)]) ++ inner) post
                    (acc ++ [(k, Mapping (map reread_entry m'))])) as [f Hf].
      * now rewrite <- !app_assoc in *.
      * exact Hpost.
      * intros k' Hk' Hacc. rewrite dict_keys_app in Hacc.
        apply in_app_or in Hacc as [Hacc | [<- | []]].
        -- apply (Hfresh k'); [now right | exact Hacc].
        -- now apply Hin.
      * exists (S (S (fm + f))).
        rewrite mapping_loop_S, Ht, Hb, Hi, Nat.ltb_irrefl, Ht', Hi'.
        assert (Hlt : (base <? base') = true)
          by (apply Nat.ltb_lt; subst base base'; nia).
        fold base. rewrite Hlt.
        rewrite parse_value_S, Ht', Hb'.
        assert (Hinner : Parser.mapping_loop tokens (fm + f) base'
                           (List.length pre + 1) []
                         = Ok (Mapping (map reread_entry m'),
                               List.length pre + 1 + List.length inner)).
        { eapply mapping_loop_more_fuel; [exact Hfm | lia]. }
        replace (match b0 with
                 | LIST_ITEM _ =>
                     Parser._parse_list tokens (fm + f) base'
                                        (List.length pre + 1)
                 | KEY _ | KEY_VALUE _ _ =>
                     Parser.mapping_loop tokens (fm + f) base'
                                         (List.length pre + 1) []
                 | VALUE value => Ok (value, List.length pre + 1 + 1)
                 end)
          with (Parser.mapping_loop tokens (fm + f) base'
                                    (List.length pre + 1) [])
          by (destruct b0; simpl in Hkl; tauto).
        rewrite Hinner. cbn [bind].
        rewrite dict_set_fresh by (apply Hfresh; now left).
        rewrite !length_app in Hf. cbn [List.length] in Hf.
        rewrite (mapping_loop_more_fuel _ _ _ _ Hf) by lia.
        cbn [map List.length].
        change (reread_entry (k, Mapping m'))
          with (k, Mapping (map reread_entry m')).
        rewrite <- app_assoc, length_app.
        f_equal. f_equal. lia.
Qed.

End ParseShapes.

(** ** What [load] reads from the dump of a loaded value *)

Section LoadDump.

Lemma parse_value_fuel_irrelevant tokens fuel fuel' base pos r r' :
  Parser._parse_value tokens fuel base pos = Ok r ->
  Parser._parse_value tokens fuel' base pos = Ok r' -> r = r'.
Proof.
  intros H H'.
  apply (@parse_value_more_fuel _ _ (Nat.max fuel fuel')) in H; [|lia].
  apply (@parse_value_more_fuel _ _ (Nat.max fuel fuel')) in H'; [|lia].
  congruence.
Qed.

(** [Parser.parse] returns what [Parser._parse_value] returns with any
    fuel that is enough for it. *)
Lemma parse_with_fuel tokens fuel v pos :
  tokens <> [] ->
  Parser._parse_value tokens fuel 0 0 = Ok (v, pos) ->
  Parser.parse tokens = Ok v.
Proof.
  intros Hne H. unfold Parser.parse.
  destruct (proj1 (parse_value_mapping_ok tokens (Parser.enough_fuel tokens))
                  0 0) as (v' & pos' & H' & _); [lia | unfold Parser.enough_fuel; lia |].
  rewrite H'. cbn [bind].
  pose proof (@parse_value_fuel_irrelevant _ _ _ _ _ _ _ H H') as E.
  injection E as <- <-. destruct tokens; [congruence | reflexivity].
Qed.

Lemma scan_of_lines (text : str) (lines : list str) ss :
  text = join [newline] lines -> lines <> [] ->
  Forall (fun l => newline_free l = true) lines ->
  scans_to lines ss ->
  exists ts, Scanner.scan text = Ok ts /\ map shape ts = ss.
Proof.
  intros -> Hne Hnl Hs. unfold Scanner.scan.
  rewrite (split_join Hne Hnl). apply Hs.
Qed.


End LoadDump.

(** ** Scalars that are read back *)

Section ReadBack.

Lemma in_lstrip (c : ascii) (s : str) : In c (lstrip s) -> In c s.
Proof.
  induction s as [|x s IH]; simpl; [tauto|].
  destruct (isspace x); simpl; auto.
Qed.

Lemma in_strip (c : ascii) (s : str) : In c (strip s) -> In c s.
Proof.
  unfold strip, rstrip. intros H. apply in_rev in H.
  apply in_lstrip in H. apply in_rev in H. now apply in_lstrip.
Qed.

Lemma any_in_intro (chars s : str) (c : ascii) :
  In c chars -> In c s -> any_in chars s = true.
Proof.
  intros Hc Hs. unfold any_in. apply existsb_exists. exists c.
  split; [exact Hc|]. apply existsb_exists. exists c.
  split; [exact Hs | apply Ascii.eqb_refl].
Qed.

Lemma plain_no_quote (s : str) (c : ascii) :
  plain s -> In c Dumper.must_quote -> ~ In c s.
Proof.
  intros Hp Hc Hs. unfold plain in Hp.
  now rewrite (@any_in_intro _ _ _ Hc Hs) in Hp.
Qed.

Lemma plain_colon_free (s : str) : plain s -> colon_free s = true.
Proof.
  intros Hp. unfold colon_free. apply forallb_forall. intros c Hc.
  apply negb_true_iff. unfold colon_or_hash.
  destruct (Ascii.eqb c ":") eqn:E1.
  - apply Ascii.eqb_eq in E1. subst c. exfalso.
    apply (@plain_no_quote s ":"%char Hp); [now left | exact Hc].
  - destruct (Ascii.eqb c "#") eqn:E2; [|reflexivity].
    apply Ascii.eqb_eq in E2. subst c. exfalso.
    apply (@plain_no_quote s "#"%char Hp); [right; now left | exact Hc].
Qed.

Lemma parse_value_scalar (t : str) :
  is_scalar (Scanner._parse_value t) = true.
Proof.
  unfold Scanner._parse_value. destruct (strip t); [reflexivity|].
  repeat match goal with
         | |- context [if ?b then _ else _] => destruct b
         | |- context [match ?o with Some _ => _ | None => _ end] => destruct o
         end; reflexivity.
Qed.

(** A plain String that the coercion reads as itself is trimmed. *)
Lemma plain_reads_back_trimmed (s : str) :
  plain s -> Scanner._parse_value s = Str s -> trimmed s.
Proof.
  intros Hp H. unfold Scanner._parse_value in H.
  destruct (strip s) as [|c r] eqn:E; [discriminate|].
  assert (Hq : forall q, In q Dumper.must_quote ->
                         startswith (c :: r) [q] = false).
  { intros q Hq. destruct (startswith (c :: r) [q]) eqn:Es; [|reflexivity].
    apply startswith_iff in Es as [r' Es]. exfalso.
    apply (@plain_no_quote s q Hp Hq). apply in_strip. rewrite E, Es.
    now left. }
  destruct (Scanner.word_in _ _); [discriminate|].
  destruct (Scanner.word_in _ _); [discriminate|].
  destruct (Scanner.word_in _ _); [discriminate|].
  unfold Scanner.quote in H. rewrite (Hq dquote) in H.
  2:{ unfold Dumper.must_quote. apply in_or_app. right. now left. }
  change (txt "'") with ["'"%char] in H. rewrite (Hq "'"%char) in H.
  2:{ unfold Dumper.must_quote. apply in_or_app. left.
      vm_compute. tauto. }
  cbn [andb] in H. destruct (py_int _); [discriminate|].
  destruct (py_float _); [discriminate|].
  injection H as H. apply strip_idem_parts; [congruence|].
  intros ->. discriminate.
Qed.

Lemma number_text_line_ok (t : str) :
  t <> [] -> forallb number_char t = true -> line_ok t.
Proof. intros Hne H. apply solid_line_ok; [exact Hne|]. now apply number_text_solid. Qed.

Lemma scalar_text_line_ok (y : Value) :
  is_scalar y = true -> (forall s, y <> Str s) -> line_ok (scalar_text y).
Proof.
  intros Hs Hn. destruct y as [ | [] | n | x | s | | ]; try discriminate.
  - now apply solid_line_ok.
  - now apply solid_line_ok.
  - now apply solid_line_ok.
  - apply number_text_line_ok; apply py_str_int_chars.
  - apply number_text_line_ok; apply py_str_float_chars.
  - now specialize (Hn s).
Qed.


Lemma plain_line_value_ok (s : str) :
  plain s -> trimmed s -> newline_free s = true -> line_value_ok s.
Proof.
  intros Hp (H1 & H2 & H3) Hnl. repeat split; try assumption.
  apply colon_free_line, plain_colon_free, Hp.
Qed.

(** The text of a scalar as the scanner makes it can follow a dash or a
    key on a line, when a plain String is trimmed. *)
Lemma leaf_line_value_ok (x : Value) :
  loaded_scalar x ->
  (forall s, x = Str s -> plain s -> trimmed s) ->
  line_value_ok (scalar_text x).
Proof.
  intros [Hs Hnl] Ht. destruct x as [ | b | n | f | s | | ];
    try discriminate;
    try (apply line_ok_value_ok, scalar_text_line_ok;
         [reflexivity | discriminate]).
  unfold scalar_text. cbn [Dumper.dump].
  destruct (any_in Dumper.must_quote s) eqn:Eq.
  - apply quoted_line_value_ok. now apply Hnl.
  - apply plain_line_value_ok; auto.
Qed.

Lemma reread_scalar (x : Value) :
  is_scalar x = true ->
  (forall s, x = Str s -> plain s -> Scanner._parse_value s = Str s) ->
  (forall f, x = Float f -> py_float (py_str_float f) = Some f) ->
  reread x = x.
Proof.
  intros Hs HS HF. destruct x as [ | [] | n | f | s | | ];
    try discriminate; try reflexivity.
  - apply reread_integer.
  - apply reread_float. now apply HF.
  - unfold reread, scalar_text. cbn [Dumper.dump].
    destruct (any_in Dumper.must_quote s) eqn:Eq.
    + apply parse_value_quoted.
    + now apply HS.
Qed.


Lemma contains_quoted (s sub : str) (q : ascii) :
  ~ In q sub -> sub <> [] ->
  contains s sub = false -> contains (q :: s ++ [q]) sub = false.
Proof.
  intros Hq Hne H. destruct (contains (q :: s ++ [q]) sub) eqn:E;
    [|reflexivity].
  apply contains_iff in E as [a [b E]]. exfalso.
  destruct a as [|x a].
  - destruct sub as [|y sub]; [congruence|]. simpl in E.
    injection E as E _. subst y. apply Hq. now left.
  - simpl in E. injection E as _ E.
    destruct (rev b) as [|z b'] eqn:Eb.
    + apply (f_equal (@rev ascii)) in Eb. rewrite rev_involutive in Eb.
      subst b. rewrite app_nil_r in E.
      destruct (rev sub) as [|y sub'] eqn:Er.
      * apply (f_equal (@rev ascii)) in Er. rewrite rev_involutive in Er.
        now subst sub.
      * apply (f_equal (@rev ascii)) in Er. rewrite rev_involutive in Er.
        simpl in Er. subst sub. rewrite app_assoc in E.
        apply app_inj_tail in E as [_ E]. subst y. apply Hq.
        apply in_or_app. right. now left.
    + apply (f_equal (@rev ascii)) in Eb. rewrite rev_involutive in Eb.
      simpl in Eb. subst b. rewrite !app_assoc in E.
      apply app_inj_tail in E as [E _]. rewrite <- app_assoc in E.
      assert (Hc : contains s sub = true)
        by (apply contains_iff; now exists a, (rev b')).
      congruence.
Qed.

(** The text of a scalar that [load] returns can be a line of its own,
    when a plain String is trimmed and does not begin with a dash and a
    space. *)
Lemma root_line_ok (v : Value) :
  loaded v -> is_scalar v = true ->
  (forall s, v = Str s -> plain s ->
             trimmed s /\ startswith s (txt "- ") = false) ->
  line_ok (scalar_text v).
Proof.
  intros Hv Hs Ht. destruct v as [ | b | n | f | s | | ];
    try discriminate;
    try (apply scalar_text_line_ok; [reflexivity | discriminate]).
  destruct Hv as [Hnl Hc]. unfold scalar_text. cbn [Dumper.dump].
  destruct (any_in Dumper.must_quote s) eqn:Eq.
  - destruct (quoted_line_value_ok _ Hnl) as (H1 & H2 & H3 & H4).
    split; [apply quoted_trimmed|]. repeat split; try assumption.
    apply contains_quoted; [|discriminate|exact Hc].
    intros [E | [E | []]]; discriminate.
  - destruct (Ht s eq_refl Eq) as [Htr Hd].
    destruct (colon_free_line _ (plain_colon_free Eq)) as (H4 & H5 & H6).
    repeat split; try assumption; apply Htr.
Qed.

End ReadBack.

(** ** The shape of what [load] returns *)

Section ScannerInvariant.

Lemma infix_refl (s : str) : infix s s.
Proof. exists [], []. now rewrite app_nil_r. Qed.

Lemma infix_trans (a b c : str) : infix a b -> infix b c -> infix a c.
Proof.
  intros [x [y ->]] [u [v ->]]. exists (u ++ x), (y ++ v).
  now rewrite <- !app_assoc.
Qed.

Lemma infix_lstrip (s : str) : infix (lstrip s) s.
Proof.
  induction s as [|c s IH]; simpl; [apply infix_refl|].
  destruct (isspace c); [|apply infix_refl].
  destruct IH as [a [b E]]. exists (c :: a), b. simpl. now rewrite <- E.
Qed.

Lemma infix_rev (s t : str) : infix s t -> infix (rev s) (rev t).
Proof.
  intros [a [b ->]]. exists (rev b), (rev a).
  now rewrite !rev_app_distr, <- app_assoc.
Qed.

Lemma infix_strip (s : str) : infix (strip s) s.
Proof.
  unfold strip, rstrip. eapply infix_trans; [|apply infix_lstrip].
  rewrite <- (rev_involutive (lstrip s)) at 2.
  apply infix_rev, infix_lstrip.
Qed.

Lemma infix_tl (s : str) : infix (tl s) s.
Proof. destruct s as [|c s]; [apply infix_refl|]. exists [c], []. simpl. now rewrite app_nil_r. Qed.

Lemma infix_removelast (s : str) : infix (removelast s) s.
Proof.
  destruct (rev s) as [|c r] eqn:E.
  - apply (f_equal (@rev ascii)) in E. rewrite rev_involutive in E.
    subst s. apply infix_refl.
  - apply (f_equal (@rev ascii)) in E. rewrite rev_involutive in E.
    subst s. simpl. rewrite removelast_last. now exists [], [c].
Qed.

Lemma infix_skipn (n : nat) (s : str) : infix (skipn n s) s.
Proof.
  exists (firstn n s), []. now rewrite app_nil_r, firstn_skipn.
Qed.

Lemma infix_in (s t : str) (c : ascii) : infix s t -> In c s -> In c t.
Proof.
  intros [a [b ->]] H. apply in_or_app. right. apply in_or_app. now left.
Qed.

Lemma infix_newline_free (s t : str) :
  infix s t -> newline_free t = true -> newline_free s = true.
Proof.
  intros [a [b ->]]. rewrite !newline_free_app.
  intros H. apply andb_true_iff in H as [_ H].
  now apply andb_true_iff in H as [H _].
Qed.

Lemma infix_contains (s t sub : str) :
  infix s t -> contains t sub = false -> contains s sub = false.
Proof.
  intros [a [b ->]] H. destruct (contains s sub) eqn:E; [|reflexivity].
  apply contains_iff in E as [x [y ->]].
  assert (Hc : contains (a ++ (x ++ sub ++ y) ++ b) sub = true).
  { apply contains_iff. exists (a ++ x), (y ++ b).
    now rewrite <- !app_assoc. }
  congruence.
Qed.

(** A String that the coercion returns is a piece of the text. *)
Lemma parse_value_infix (t s : str) :
  Scanner._parse_value t = Str s -> infix s t.
Proof.
  unfold Scanner._parse_value. intros H.
  destruct (strip t) as [|c r] eqn:E; [discriminate|].
  assert (Hi : infix (slice_1_m1 (c :: r)) t).
  { rewrite <- E. eapply infix_trans; [|apply infix_strip].
    unfold slice_1_m1. eapply infix_trans;
      [apply infix_removelast | apply infix_tl]. }
  repeat match type of H with
         | (if ?b then _ else _) = _ => destruct b
         | match ?o with Some _ => _ | None => _ end = _ => destruct o
         end; try discriminate; injection H as <-; try exact Hi.
  rewrite <- E. apply infix_strip.
Qed.

Lemma parse_value_loaded (t : str) :
  newline_free t = true -> loaded_scalar (Scanner._parse_value t).
Proof.
  intros H. split; [apply parse_value_scalar|].
  intros s E. eapply infix_newline_free; [|exact H].
  now apply parse_value_infix.
Qed.

Lemma prefix_loaded_key (k rest content : str) :
  content = k ++ rest -> rest <> [] -> strip content = content ->
  newline_free content = true ->
  startswith content (txt "#") = false ->
  startswith content (txt "- ") = false ->
  loaded_key k.
Proof.
  intros -> Hr Hs Hnl H1 H2.
  assert (Hne : k ++ rest <> []) by (destruct k; [exact Hr | discriminate]).
  destruct (strip_idem_parts Hs Hne) as (_ & Hl & _).
  assert (Hp : forall p, startswith k p = true ->
                         startswith (k ++ rest) p = true).
  { intros p Hp. apply startswith_iff in Hp as [r ->].
    apply startswith_iff. exists (r ++ rest). now rewrite app_assoc. }
  repeat split.
  - eapply infix_newline_free; [|exact Hnl]. now exists [], rest.
  - apply lstrip_solid. apply lstrip_fixed_solid in Hl.
    destruct k; [exact I | exact Hl].
  - destruct (startswith k (txt "#")) eqn:E; [|reflexivity].
    now rewrite (Hp _ E) in H1.
  - destruct (startswith k (txt "- ")) eqn:E; [|reflexivity].
    now rewrite (Hp _ E) in H2.
Qed.

Lemma strip_strip (s : str) : strip (strip s) = strip s.
Proof.
  destruct (strip s) as [|c r] eqn:E; [reflexivity|]. rewrite <- E.
  assert (Hl : forall t, lstrip (lstrip t) = lstrip t).
  { induction t as [|x t IH]; simpl; [reflexivity|].
    destruct (isspace x) eqn:Ex; [exact IH|]. simpl. now rewrite Ex. }
  assert (Hr : rstrip (strip s) = strip s).
  { unfold strip, rstrip. now rewrite rev_involutive, Hl. }
  assert (Hh : head_solid (strip s)).
  { unfold strip. unfold strip in E.
    assert (Hs : head_solid (lstrip s)) by apply lstrip_fixed_solid, Hl.
    destruct (lstrip s) as [|x t] eqn:El; [now rewrite E in *|].
    simpl in Hs. unfold rstrip in *. simpl in *.
    assert (Hx : exists p, lstrip (rev t ++ [x]) = p ++ [x]).
    { clear -Hs. induction (rev t) as [|z w IH]; simpl.
      - rewrite Hs. now exists [].
      - destruct (isspace z); [exact IH|]. now exists (z :: w). }
    destruct Hx as [p Hp]. rewrite Hp, rev_app_distr. exact Hs. }
  unfold strip at 1. now rewrite (lstrip_solid _ Hh).
Qed.

Lemma scan_line_token_ok (n : nat) (line : str) (t : Token) :
  newline_free line = true ->
  Scanner.scan_line n line = Ok (Some t) -> token_ok (body t).
Proof.
  intros Hnl H. unfold Scanner.scan_line in H.
  assert (Hc : newline_free (strip line) = true)
    by (eapply infix_newline_free; [apply infix_strip | exact Hnl]).
  pose proof (strip_strip line) as Hss.
  destruct (strip line) as [|c r] eqn:E; [discriminate|].
  set (content := c :: r) in *.
  destruct (startswith content (txt "#")) eqn:E1; [discriminate|].
  destruct (startswith content (txt "- ")) eqn:E2.
  - injection H as <-. cbn [body token_ok].
    apply (@infix_newline_free _ content); [|exact Hc].
    exact (infix_skipn 2 content).
  - destruct (endswith content (txt ":")) eqn:E3.
    + rewrite orb_true_r in H. injection H as <-. cbn [body token_ok].
      pose proof (@endswith_removelast content ":"%char E3) as Ek.
      eapply prefix_loaded_key; eauto. discriminate.
    + rewrite orb_false_r in H.
      destruct (contains content (txt ": ")) eqn:E4.
      * destruct (@split1_found content (txt ": ")) as (a & b & Hsp & Hab & _);
          [discriminate | exact E4 |].
        rewrite Hsp in H. injection H as <-. cbn [body token_ok]. split.
        -- eapply prefix_loaded_key; eauto. discriminate.
        -- apply parse_value_loaded.
           eapply infix_newline_free; [|exact Hc].
           exists (a ++ txt ": "), []. now rewrite app_nil_r, <- app_assoc.
      * injection H as <-. cbn [body token_ok]. split.
        -- now apply parse_value_loaded.
        -- intros s Hs. eapply infix_contains; [|exact E4].
           now apply parse_value_infix.
Qed.

Lemma split_char_newline_free (text : str) :
  Forall (fun l => newline_free l = true) (split_char newline text).
Proof.
  induction text as [|c text IH]; simpl; [repeat constructor|].
  destruct (Ascii.eqb c newline) eqn:E.
  - constructor; [reflexivity | exact IH].
  - destruct (split_char newline text) as [|l ls].
    + constructor; [|constructor]. simpl. now rewrite E.
    + inversion IH; subst. constructor; [|assumption].
      simpl. now rewrite E.
Qed.

Lemma scan_lines_tokens_ok (lines : list str) :
  Forall (fun l => newline_free l = true) lines ->
  forall n ts,
    Scanner.scan_lines n lines = Ok ts ->
    Forall (fun t => token_ok (body t)) ts.
Proof.
  induction 1 as [|l ls Hl _ IH]; intros n ts H.
  - injection H as <-. constructor.
  - cbn [Scanner.scan_lines] in H.
    destruct (Scanner.scan_line n l) as [t| |] eqn:El; try discriminate.
    cbn [bind] in H.
    destruct (Scanner.scan_lines (S n) ls) as [ts'| |] eqn:Els;
      try discriminate.
    cbn [bind] in H. injection H as <-. specialize (IH _ _ Els).
    destruct t as [t|]; [|exact IH].
    constructor; [|exact IH]. eapply scan_line_token_ok; eauto.
Qed.

Lemma scan_tokens_ok (text : str) (ts : list Token) :
  Scanner.scan text = Ok ts -> Forall (fun t => token_ok (body t)) ts.
Proof.
  apply scan_lines_tokens_ok, split_char_newline_free.
Qed.

End ScannerInvariant.

Section ParserInvariant.

Lemma dict_keys_set_in d key value a :
  In a (dict_keys (dict_set d key value)) -> In a (dict_keys d) \/ a = key.
Proof.
  induction d as [|[k v] r IH]; simpl.
  - intros [<- | []]. now right.
  - destruct (PyStr.eqb k key); simpl.
    + tauto.
    + intros [<- | H]; [tauto|]. destruct (IH H); tauto.
Qed.

Lemma dict_set_nonempty d key value : dict_set d key value <> [].
Proof.
  destruct d as [|[k v] r]; simpl; [discriminate|].
  destruct (PyStr.eqb k key); discriminate.
Qed.

Lemma loaded_entries_cons k v r :
  loaded_key k -> ~ In k (dict_keys r) -> entry_value_ok v ->
  loaded_entries r -> loaded_entries ((k, v) :: r).
Proof.
  intros Hk Hin [Hv | [(l & -> & H1 & H2) | (m & -> & H1 & H2)]] Hr.
  - now apply le_scalar.
  - now apply le_seq.
  - now apply le_map.
Qed.

Lemma loaded_entries_inv k v r :
  loaded_entries ((k, v) :: r) ->
  loaded_key k /\ ~ In k (dict_keys r) /\ loaded_entries r.
Proof. intros H. inversion H; subst; auto. Qed.

Lemma dict_set_loaded d key value :
  loaded_entries d -> loaded_key key -> entry_value_ok value ->
  loaded_entries (dict_set d key value).
Proof.
  intros Hd Hk Hv. induction d as [|[k v] r IH].
  - simpl. apply loaded_entries_cons; auto; constructor.
  - apply loaded_entries_inv in Hd as Hd'. destruct Hd' as (H1 & H2 & H3).
    cbn [dict_set]. destruct (PyStr.eqb k key) eqn:E.
    + now apply loaded_entries_cons.
    + apply eqb_neq in E.
      assert (Hin : ~ In k (dict_keys (dict_set r key value))).
      { intros Hin. apply dict_keys_set_in in Hin as [Hin | Hin]; auto. }
      inversion Hd; subst.
      * apply le_scalar; auto.
      * apply le_seq; auto.
      * apply le_map; auto.
Qed.

Lemma loaded_entry_value (v : Value) : loaded v -> entry_value_ok v.
Proof.
  destruct v as [ | b | n | f | s | l | m]; simpl; intros H;
    try (left; split; [reflexivity | intros s' Hs'; discriminate]).
  - left. split; [reflexivity|]. intros s' [= <-]. apply H.
  - right. left. exists l. tauto.
  - right. right. exists m. tauto.
Qed.

Variable tokens : list Token.

Hypothesis tokens_ok : Forall (fun t => token_ok (body t)) tokens.

Lemma nth_token_ok pos t :
  nth_error tokens pos = Some t -> token_ok (body t).
Proof.
  intros H. rewrite Forall_forall in tokens_ok.
  apply tokens_ok. eapply nth_error_In; eauto.
Qed.

Lemma list_loop_loaded (fuel : nat) :
  forall base pos acc v pos',
    Parser.list_loop tokens fuel base pos acc = Ok (v, pos') ->
    Forall loaded_scalar acc ->
    exists l, v = Sequence l /\ Forall loaded_scalar l /\
              ((acc <> [] \/
                exists t raw, nth_error tokens pos = Some t /\
                              base <= indent t /\ body t = LIST_ITEM raw) ->
               l <> []).
Proof.
  induction fuel as [|f IH]; intros base pos acc v pos' H Hacc;
    [discriminate|].
  rewrite list_loop_S in H.
  assert (Hstop : Ok (Sequence acc, pos) = Ok (v, pos') ->
                  (forall t raw, nth_error tokens pos = Some t ->
                                 base <= indent t ->
                                 body t = LIST_ITEM raw -> False) ->
                  exists l, v = Sequence l /\ Forall loaded_scalar l /\
                            ((acc <> [] \/
                              exists t raw,
                                nth_error tokens pos = Some t /\
                                base <= indent t /\ body t = LIST_ITEM raw) ->
                             l <> [])).
  { intros [= <- <-] Hno. exists acc. repeat split; auto.
    intros [Hne | (t & raw & H1 & H2 & H3)]; [exact Hne|].
    exfalso. eauto. }
  destruct (nth_error tokens pos) as [t|] eqn:Et.
  - destruct (Nat.ltb_spec (indent t) base) as [Hlt|Hge].
    + apply Hstop; [exact H|]. intros t0 raw [= <-] Hb _. lia.
    + destruct (body t) as [raw | | | ] eqn:Eb;
        try (apply Hstop; [exact H|]; intros t0 raw0 [= <-] _ Hb0;
             congruence).
      apply IH in H.
      * destruct H as (l & -> & Hl & Hne). exists l. repeat split; auto.
        intros _. apply Hne. left. destruct acc; discriminate.
      * apply Forall_app. split; [exact Hacc|]. constructor; [|constructor].
        apply parse_value_loaded.
        pose proof (nth_token_ok _ Et) as Hok. now rewrite Eb in Hok.
  - apply Hstop; [exact H|]. intros t0 raw; discriminate.
Qed.

Lemma parse_loaded (fuel : nat) :
  (forall base pos v pos',
      Parser._parse_value tokens fuel base pos = Ok (v, pos') ->
      (forall t, nth_error tokens pos = Some t -> base <= indent t) ->
      loaded v)
  /\
  (forall base pos acc v pos',
      Parser.mapping_loop tokens fuel base pos acc = Ok (v, pos') ->
      loaded_entries acc ->
      exists m, v = Mapping m /\ loaded_entries m /\
                ((acc <> [] \/
                  exists t, nth_error tokens pos = Some t /\
                            base <= indent t /\ key_like (body t)) ->
                 m <> [])).
Proof.
  induction fuel as [|f [IHv IHm]]; [split; intros; discriminate|].
  split.
  - intros base pos v pos' H Hb. rewrite parse_value_S in H.
    destruct (nth_error tokens pos) as [t|] eqn:Et.
    + specialize (Hb t eq_refl).
      destruct (body t) as [raw | k | k x | x] eqn:Eb.
      * unfold Parser._parse_list in H.
        apply list_loop_loaded in H; [|constructor].
        destruct H as (l & -> & Hl & Hne). split; [|exact Hl].
        apply Hne. right. now exists t, raw.
      * apply IHm in H; [|constructor].
        destruct H as (m & -> & Hm & Hne). split; [|exact Hm].
        apply Hne. right. exists t. rewrite Eb. now repeat split.
      * apply IHm in H; [|constructor].
        destruct H as (m & -> & Hm & Hne). split; [|exact Hm].
        apply Hne. right. exists t. rewrite Eb. now repeat split.
      * injection H as <- <-.
        pose proof (nth_token_ok _ Et) as Hok. rewrite Eb in Hok.
        destruct Hok as [[Hs Hnl] Hc].
        destruct x; try discriminate; try exact I.
        split; [now apply Hnl | now apply Hc].
    + injection H as <- <-. exact I.
  - intros base pos acc v pos' H Hacc. rewrite mapping_loop_S in H.
    assert (Hstop : Ok (Mapping acc, pos) = Ok (v, pos') ->
                    (forall t, nth_error tokens pos = Some t ->
                               base <= indent t ->
                               key_like (body t) -> False) ->
                    exists m, v = Mapping m /\ loaded_entries m /\
                              ((acc <> [] \/
                                exists t, nth_error tokens pos = Some t /\
                                          base <= indent t /\
                                          key_like (body t)) ->
                               m <> [])).
    { intros [= <- <-] Hno. exists acc. repeat split; auto.
      intros [Hne | (t & H1 & H2 & H3)]; [exact Hne|].
      exfalso. eauto. }
    assert (Hgo : forall p key value,
               loaded_key key -> entry_value_ok value ->
               Parser.mapping_loop tokens f base p (dict_set acc key value)
               = Ok (v, pos') ->
               exists m, v = Mapping m /\ loaded_entries m /\
                         ((acc <> [] \/
                           exists t, nth_error tokens pos = Some t /\
                                     base <= indent t /\
                                     key_like (body t)) ->
                          m <> [])).
    { intros p key value Hk Hv Hloop. apply IHm in Hloop.
      - destruct Hloop as (m & -> & Hm & Hne). exists m. repeat split; auto.
        intros _. apply Hne. left. apply dict_set_nonempty.
      - now apply dict_set_loaded. }
    assert (Hnull : entry_value_ok Null)
      by (left; split; [reflexivity | discriminate]).
    destruct (nth_error tokens pos) as [t|] eqn:Et.
    + destruct (Nat.ltb_spec (indent t) base) as [Hlt|Hge].
      * apply Hstop; [exact H|]. intros t0 [= <-] Hb _. lia.
      * pose proof (nth_token_ok _ Et) as Hok.
        destruct (body t) as [raw | k | k x | x] eqn:Eb.
        -- apply Hstop; [exact H|]. intros t0 [= <-] _ Hk.
           now rewrite Eb in Hk.
        -- destruct (nth_error tokens (pos + 1)) as [t'|] eqn:Et'.
           ++ destruct (indent t <? indent t').
              ** destruct (Parser._parse_value tokens f (indent t') (pos + 1))
                   as [[cv p1]| |] eqn:Ec; try discriminate.
                 cbn [bind] in H. apply IHv in Ec.
                 --- eapply Hgo; [exact Hok | | exact H].
                     now apply loaded_entry_value.
                 --- intros t0 Ht0. rewrite Et' in Ht0.
                     injection Ht0 as <-. lia.
              ** eapply Hgo; [exact Hok | exact Hnull | exact H].
           ++ eapply Hgo; [exact Hok | exact Hnull | exact H].
        -- destruct Hok as [Hk Hx].
           eapply Hgo; [ | | exact H]; [exact Hk | left; exact Hx].
        -- apply Hstop; [exact H|]. intros t0 [= <-] _ Hk.
           now rewrite Eb in Hk.
    + apply Hstop; [exact H|]. intros t0; discriminate.
Qed.

Lemma parse_tokens_loaded (v : Value) :
  Parser.parse tokens = Ok v -> loaded v.
Proof.
  unfold Parser.parse. intros H.
  destruct (Parser._parse_value tokens (Parser.enough_fuel tokens) 0 0)
    as [[v' p]| |] eqn:E.
  - apply (proj1 (parse_loaded _)) in E; [|intros; lia].
    destruct tokens; injection H as <-; [exact I | exact E].
  - destruct tokens; [injection H as <-; exact I | discriminate].
  - destruct tokens; [injection H as <-; exact I | discriminate].
Qed.

End ParserInvariant.

(** What [load] returns has the shape of a loaded value. *)
Lemma load_loaded (text : str) (v : Value) : load text = Ok v -> loaded v.
Proof.
  unfold load. intros H.
  destruct (Scanner.scan text) as [ts| |] eqn:E; try discriminate.
  cbn [bind] in H. eapply parse_tokens_loaded; [|exact H].
  now apply (scan_tokens_ok text).
Qed.

(** ** The round trips on loaded values *)

Section RoundTrip.

Lemma loaded_entries_leaves (m : list (str * Value)) :
  loaded_entries m -> Forall loaded_scalar (leaves (Mapping m)).
Proof.
  induction 1 as [|k x r _ _ Hx _ IHr|k l r _ _ _ Hl _ IHr
                  |k m' r _ _ _ _ IHm _ IHr].
  - constructor.
  - rewrite leaves_cons, (leaves_scalar _ (proj1 Hx)).
    constructor; assumption.
  - rewrite leaves_cons, (leaves_scalars Hl). apply Forall_app. now split.
  - rewrite leaves_cons. apply Forall_app. now split.
Qed.

Lemma loaded_leaves (v : Value) : loaded v -> Forall loaded_scalar (leaves v).
Proof.
  destruct v as [ | b | n | f | s | l | m]; simpl; intros H;
    try (constructor; [|constructor]; split;
         [reflexivity | intros s' Hs'; discriminate]).
  - constructor; [|constructor]. split; [reflexivity|].
    intros s' [= <-]. apply H.
  - change (Forall loaded_scalar (leaves (Sequence l))).
    rewrite (leaves_scalars (proj2 H)). apply H.
  - apply (loaded_entries_leaves (proj2 H)).
Qed.

Lemma reread_entries_same (m : list (str * Value)) :
  loaded_entries m ->
  Forall (fun x => reread x = x) (leaves (Mapping m)) ->
  map reread_entry m = m.
Proof.
  induction 1 as [|k x r _ _ Hx _ IHr|k l r _ _ _ Hl _ IHr
                  |k m' r _ _ _ _ IHm _ IHr]; intros H.
  - reflexivity.
  - rewrite leaves_cons, (leaves_scalar _ (proj1 Hx)) in H.
    inversion H as [|? ? Hx' Hr']; subst. cbn [map].
    change (reread_entry (k, x)) with (k, reread_tree x).
    now rewrite (reread_tree_scalar _ (proj1 Hx)), Hx', IHr.
  - rewrite leaves_cons, (leaves_scalars Hl) in H.
    apply Forall_app in H as [H1 H2]. cbn [map].
    change (reread_entry (k, Sequence l))
      with (k, Sequence (map reread_tree l)).
    rewrite (reread_tree_scalars Hl), IHr by exact H2.
    f_equal. f_equal. f_equal. rewrite <- (map_id l) at 2.
    apply map_ext_in. intros x Hx. rewrite Forall_forall in H1. now apply H1.
  - rewrite leaves_cons in H. apply Forall_app in H as [H1 H2]. cbn [map].
    change (reread_entry (k, Mapping m'))
      with (k, Mapping (map reread_entry m')).
    now rewrite IHm, IHr.
Qed.

Lemma reread_tree_same (v : Value) :
  loaded v -> Forall (fun x => reread x = x) (leaves v) -> reread_tree v = v.
Proof.
  intros Hv H. destruct (is_scalar v) eqn:Es.
  - rewrite (reread_tree_scalar _ Es). rewrite (leaves_scalar _ Es) in H.
    now inversion H.
  - destruct v as [ | | | | | l | m]; try discriminate.
    + destruct Hv as [_ Hl]. rewrite (leaves_scalars Hl) in H.
      cbn [reread_tree]. rewrite (reread_tree_scalars Hl). f_equal.
      rewrite <- (map_id l) at 2. apply map_ext_in. intros x Hx.
      rewrite Forall_forall in H. now apply H.
    + destruct Hv as [_ Hm]. cbn [reread_tree]. f_equal.
      now apply reread_entries_same.
Qed.






End RoundTrip.

(** ** Assignments to a key that is already in the mapping *)

Section Overwrite.

Variable tokens : list Token.



End Overwrite.



Example load_duplicate_key :
  load (txt "a: 1" ++ newline :: txt "b: 2" ++ newline :: txt "a: 3")
  = Ok (Mapping [(txt "a", Integer 3); (txt "b", Integer 2)]).
Proof. vm_compute. reflexivity. Qed.

(** ** The documents of the specification *)

Example load_document :
  load (txt "name: BlackRoad" ++ newline :: txt "version: 1.0"
        ++ newline :: txt "features:" ++ newline :: txt "  - auth"
        ++ newline :: txt "  - api" ++ newline :: txt "config:"
        ++ newline :: txt "  debug: true" ++ newline :: txt "  port: 8080")
  = Ok (Mapping
          [(txt "name", Str (txt "BlackRoad"));
           (txt "version", Float (round_decimal false 10 (-1)));
           (txt "features", Sequence [Str (txt "auth"); Str (txt "api")]);
           (txt "config", Mapping [(txt "debug", Boolean true);
                                   (txt "port", Integer 8080)])]).
Proof. vm_compute. reflexivity. Qed.

Example load_key_alone : load (txt "key:") = Ok (Mapping [(txt "key", Null)]).
Proof. vm_compute. reflexivity. Qed.

Example dump_empty_collections :
  dump (Mapping [(txt "a", Sequence []); (txt "b", Mapping [])])
  = txt "a: []" ++ newline :: txt "b: {}".
Proof. vm_compute. reflexivity. Qed.

Example dump_float_texts :
  map py_str_float
      [round_decimal false 314 (-2); round_decimal false 1 16;
       round_decimal false 1 (-5); round_decimal true 5 (-1);
       round_decimal false 1 400; round_decimal false 5 (-324)]
  = [txt "3.14"; txt "1e+16"; txt "1e-05"; txt "-0.5"; txt "inf";
     txt "5e-324"].
Proof. vm_compute. reflexivity. Qed.

(** ** Fragments between quotes *)

(** C10: a fragment that is one double quote, or one single quote, is
    both the opening and the closing quote, and coerces to the empty
    String; a fragment between two double quotes, or between two single
    quotes, coerces to the String between them. *)
Theorem lone_quote_coerces_to_empty_string :
  Scanner._parse_value [dquote] = Str [] /\
  Scanner._parse_value (txt "'") = Str [] /\
  (forall s, Scanner._parse_value (dquote :: s ++ [dquote]) = Str s) /\
  (forall s, Scanner._parse_value ("'"%char :: s ++ ["'"%char]) = Str s).
Proof.
  split; [vm_compute; reflexivity|]. split; [vm_compute; reflexivity|].
  split; [exact parse_value_quoted | exact parse_value_single_quoted].
Qed.

(** ** Counterexamples to the round trips as stated *)



(** ** The round trips, amended *)





(** ** Scalar coercion on the examples of the specification *)



(* ================================================================== *)
(** * Further properties of the code *)
(* ================================================================== *)

(** Properties of the scanner, the coercion, the parser and the dumper
    that the code shows beyond the statements of the specification.

    The embedding is the one above.  Integers are unbounded and [str]
    and [int] convert them at any length: the bound that an interpreter
    may put on the number of digits of such a conversion is not
    modelled.  [load_file] and [dump_file] only pass a text between
    [load] or [dump] and a file, and [example_usage] prints; they are
    not embedded. *)

(** ** Scalar coercion: words, whitespace, Strings *)

Section CoercionFacts.

Lemma lstrip_pad (a s : str) :
  forallb isspace a = true -> lstrip (a ++ s) = lstrip s.
Proof.
  induction a as [|c a IH]; simpl; [reflexivity|].
  intros H. apply andb_true_iff in H as [Hc Ha]. now rewrite Hc, IH.
Qed.

Lemma forallb_rev (A : Type) (p : A -> bool) (l : list A) :
  forallb p (rev l) = forallb p l.
Proof.
  induction l as [|x l IH]; [reflexivity|].
  simpl. rewrite forallb_app, IH. simpl. rewrite andb_true_r.
  apply andb_comm.
Qed.

Lemma rstrip_pad (s b : str) :
  forallb isspace b = true -> rstrip (s ++ b) = rstrip s.
Proof.
  intros H. unfold rstrip. rewrite rev_app_distr, lstrip_pad; [reflexivity|].
  now rewrite forallb_rev.
Qed.

Lemma lstrip_split (s : str) :
  exists a, forallb isspace a = true /\ s = a ++ lstrip s.
Proof.
  induction s as [|c s [a [Ha E]]]; [now exists []|].
  simpl. destruct (isspace c) eqn:Ec.
  - exists (c :: a). simpl. rewrite Ec, Ha. split; [reflexivity|].
    now rewrite <- E.
  - now exists [].
Qed.

Lemma lstrip_app_content (s b : str) :
  lstrip s <> [] -> lstrip (s ++ b) = lstrip s ++ b.
Proof.
  induction s as [|c s IH]; simpl; [congruence|].
  destruct (isspace c); [exact IH | reflexivity].
Qed.

Lemma lstrip_all_space (s : str) : lstrip s = [] -> forallb isspace s = true.
Proof.
  induction s as [|c s IH]; simpl; [reflexivity|].
  destruct (isspace c); [exact IH | discriminate].
Qed.

(** Whitespace around a text does not change what [strip] returns. *)
Lemma strip_pad (a s b : str) :
  forallb isspace a = true -> forallb isspace b = true ->
  strip (a ++ s ++ b) = strip s.
Proof.
  intros Ha Hb. unfold strip. rewrite lstrip_pad by exact Ha.
  destruct (lstrip s) as [|c r] eqn:E.
  - rewrite lstrip_pad by (apply lstrip_all_space; exact E).
    rewrite lstrip_spaces by exact Hb. reflexivity.
  - rewrite lstrip_app_content by congruence. rewrite E.
    now apply rstrip_pad.
Qed.

Lemma parse_value_strip (s : str) :
  Scanner._parse_value (strip s) = Scanner._parse_value s.
Proof. unfold Scanner._parse_value. now rewrite strip_strip. Qed.

Lemma lower_nil (s : str) : lower s = [] <-> s = [].
Proof. destruct s; simpl; split; intros; congruence. Qed.

(** A text that begins and ends with [q] is [q] alone, or is [q], the
    text of [s[1:-1]] and [q]. *)
Lemma quoted_shape (v : str) (q : ascii) :
  startswith v [q] = true -> endswith v [q] = true ->
  v = [q] \/ v = q :: slice_1_m1 v ++ [q].
Proof.
  intros Hs He. apply startswith_iff in Hs as [r Hr].
  apply endswith_iff in He as [r' Hr']. cbn [app] in Hr. subst v.
  unfold slice_1_m1. cbn [tl].
  destruct r' as [|x r'].
  - left. exact Hr'.
  - right. cbn [app] in Hr'. injection Hr' as -> ->.
    now rewrite removelast_last.
Qed.

End CoercionFacts.

(** X1: the coercion returns Null exactly on an empty fragment and on the
    words [null] and [~], the Boolean true exactly on the words [true],
    [yes] and [on], the Boolean false exactly on the words [false], [no]
    and [off]; surrounding whitespace and the case of the letters do not
    count. *)
Theorem coercion_null_and_boolean_words (s : str) :
  (Scanner._parse_value s = Null
   <-> lower (strip s) = [] \/ lower (strip s) = txt "null"
       \/ lower (strip s) = txt "~") /\
  (Scanner._parse_value s = Boolean true
   <-> lower (strip s) = txt "true" \/ lower (strip s) = txt "yes"
       \/ lower (strip s) = txt "on") /\
  (Scanner._parse_value s = Boolean false
   <-> lower (strip s) = txt "false" \/ lower (strip s) = txt "no"
       \/ lower (strip s) = txt "off").
Proof.
  unfold Scanner._parse_value.
  destruct (strip s) as [|c r] eqn:E.
  - cbn [lower map]. repeat split; intros H; try discriminate H; auto;
      destruct H as [H | [H | H]]; discriminate H.
  - unfold Scanner.word_in. cbn [existsb].
    destruct (PyStr.eqb (lower (c :: r)) (txt "true")) eqn:E1;
      [apply eqb_eq in E1; rewrite E1;
       repeat split; intros H; try discriminate H; auto;
       destruct H as [H | [H | H]]; discriminate H|].
    destruct (PyStr.eqb (lower (c :: r)) (txt "yes")) eqn:E2;
      [apply eqb_eq in E2; rewrite E2;
       repeat split; intros H; try discriminate H; auto;
       destruct H as [H | [H | H]]; discriminate H|].
    destruct (PyStr.eqb (lower (c :: r)) (txt "on")) eqn:E3;
      [apply eqb_eq in E3; rewrite E3;
       repeat split; intros H; try discriminate H; auto;
       destruct H as [H | [H | H]]; discriminate H|].
    destruct (PyStr.eqb (lower (c :: r)) (txt "false")) eqn:E4;
      [apply eqb_eq in E4; rewrite E4;
       repeat split; intros H; try discriminate H; auto;
       destruct H as [H | [H | H]]; discriminate H|].
    destruct (PyStr.eqb (lower (c :: r)) (txt "no")) eqn:E5;
      [apply eqb_eq in E5; rewrite E5;
       repeat split; intros H; try discriminate H; auto;
       destruct H as [H | [H | H]]; discriminate H|].
    destruct (PyStr.eqb (lower (c :: r)) (txt "off")) eqn:E6;
      [apply eqb_eq in E6; rewrite E6;
       repeat split; intros H; try discriminate H; auto;
       destruct H as [H | [H | H]]; discriminate H|].
    destruct (PyStr.eqb (lower (c :: r)) (txt "null")) eqn:E7;
      [apply eqb_eq in E7; rewrite E7;
       repeat split; intros H; try discriminate H; auto;
       destruct H as [H | [H | H]]; discriminate H|].
    destruct (PyStr.eqb (lower (c :: r)) (txt "~")) eqn:E8;
      [apply eqb_eq in E8; rewrite E8;
       repeat split; intros H; try discriminate H; auto;
       destruct H as [H | [H | H]]; discriminate H|].
    apply eqb_neq in E1, E2, E3, E4, E5, E6, E7, E8.
    cbn [orb].
    assert (Hn : lower (c :: r) <> []) by discriminate.
    repeat split; intros H;
      try (destruct H as [H | [H | H]]; congruence);
      exfalso;
      repeat match type of H with
             | (if ?b then _ else _) = _ => destruct b
             | match ?o with Some _ => _ | None => _ end = _ => destruct o
             end; discriminate H.
Qed.

(** X2: whitespace before and after a fragment does not change what the
    coercion returns. *)
Theorem coercion_ignores_surrounding_whitespace (a s b : str) :
  forallb isspace a = true -> forallb isspace b = true ->
  Scanner._parse_value (a ++ s ++ b) = Scanner._parse_value s.
Proof.
  intros Ha Hb. unfold Scanner._parse_value.
  now rewrite strip_pad by assumption.
Qed.

Lemma coercion_ignores_surrounding_whitespace_witness :
  Scanner._parse_value (txt "  " ++ txt "42" ++ [" "%char; "013"%char])
  = Scanner._parse_value (txt "42").
Proof.
  apply (@coercion_ignores_surrounding_whitespace
           (txt "  ") (txt "42") [" "%char; "013"%char]);
    reflexivity.
Defined.

Lemma coercion_string_verbatim_cases (s t : str) :
  Scanner._parse_value s = Str t ->
  (exists q, (q = dquote \/ q = "'"%char) /\
             (strip s = q :: t ++ [q] \/ (strip s = [q] /\ t = [])))
  \/ (t = strip s /\ t <> [] /\ py_int t = None /\ py_float t = None).
Proof.
  unfold Scanner._parse_value. destruct (strip s) as [|c r] eqn:E;
    [discriminate|].
  destruct (Scanner.word_in _ _); [discriminate|].
  destruct (Scanner.word_in _ _); [discriminate|].
  destruct (Scanner.word_in _ _); [discriminate|].
  destruct (startswith (c :: r) Scanner.quote
            && endswith (c :: r) Scanner.quote) eqn:Q1.
  - intros [= <-]. left. exists dquote. split; [now left|].
    apply andb_true_iff in Q1 as [H1 H2].
    destruct (quoted_shape _ _ H1 H2) as [H | H].
    + right. rewrite H. split; reflexivity.
    + left. exact H.
  - destruct (startswith (c :: r) (txt "'")
              && endswith (c :: r) (txt "'")) eqn:Q2.
    + intros [= <-]. left. exists "'"%char. split; [now right|].
      apply andb_true_iff in Q2 as [H1 H2].
      destruct (quoted_shape _ _ H1 H2) as [H | H].
      * right. rewrite H. split; reflexivity.
      * left. exact H.
    + destruct (py_int (c :: r)) eqn:Ei; [discriminate|].
      destruct (py_float (c :: r)) eqn:Ef; [discriminate|].
      intros [= <-]. right. repeat split; [discriminate | exact Ei | exact Ef].
Qed.

(** X3: a String that the coercion returns is the text between the quotes
    of a fragment in double or in single quotes, character for
    character, or is the whole trimmed fragment, and then a fragment
    that neither [int] nor [float] accepts. *)
Theorem coercion_string_is_verbatim (s t : str) :
  Scanner._parse_value s = Str t ->
  (exists q, (q = dquote \/ q = "'"%char) /\
             (strip s = q :: t ++ [q] \/ (strip s = [q] /\ t = [])))
  \/ (t = strip s /\ t <> [] /\ py_int t = None /\ py_float t = None).
Proof. apply coercion_string_verbatim_cases. Qed.

Lemma coercion_string_is_verbatim_witness :
  (exists q, (q = dquote \/ q = "'"%char) /\
             (strip (txt " 'a  b' ") = q :: txt "a  b" ++ [q]
              \/ (strip (txt " 'a  b' ") = [q] /\ txt "a  b" = [])))
  \/ (txt "a  b" = strip (txt " 'a  b' ") /\ txt "a  b" <> []
      /\ py_int (txt "a  b") = None /\ py_float (txt "a  b") = None).
Proof.
  apply (@coercion_string_is_verbatim (txt " 'a  b' ") (txt "a  b")).
  reflexivity.
Defined.



(** ** The parser: termination and the cursor *)



(** ** The parser reads the order of the indents, not their widths *)

Lemma Forall2_nth (A : Type) (R : A -> A -> Prop) (l l' : list A) :
  Forall2 R l l' ->
  forall pos,
    match nth_error l pos, nth_error l' pos with
    | Some t, Some t' => R t t'
    | None, None => True
    | _, _ => False
    end.
Proof.
  induction 1 as [|t t' l l' Ht Hl IH]; intros pos.
  - destruct pos; exact I.
  - destruct pos as [|pos]; [exact Ht | apply IH].
Qed.

Section Reindent.

Variable f : nat -> nat.
Hypothesis f_increasing : forall i j, i < j -> f i < f j.

Variables ts ts' : list Token.
Hypothesis related : Forall2 (same_token_upto f) ts ts'.

Lemma ltb_increasing (i j : nat) : (f i <? f j) = (i <? j).
Proof.
  destruct (Nat.ltb_spec i j) as [H | H].
  - apply Nat.ltb_lt. now apply f_increasing.
  - apply Nat.ltb_ge. destruct (Nat.eq_dec i j) as [-> | Hne]; [lia|].
    assert (Hlt : j < i) by lia. apply f_increasing in Hlt. lia.
Qed.

Lemma related_nth (pos : nat) :
  match nth_error ts pos, nth_error ts' pos with
  | Some t, Some t' => same_token_upto f t t'
  | None, None => True
  | _, _ => False
  end.
Proof. apply Forall2_nth, related. Qed.

Lemma list_loop_reindent (fuel : nat) :
  forall b b' pos acc,
    (forall i, (f i <? b') = (i <? b)) ->
    Parser.list_loop ts' fuel b' pos acc = Parser.list_loop ts fuel b pos acc.
Proof.
  induction fuel as [|n IH]; intros b b' pos acc Hb; [reflexivity|].
  rewrite !list_loop_S. pose proof (related_nth pos) as R.
  destruct (nth_error ts pos) as [t|], (nth_error ts' pos) as [t'|];
    try contradiction; [|reflexivity].
  destruct R as [Rb Ri]. rewrite Rb, Ri, Hb.
  destruct (indent t <? b); [reflexivity|].
  destruct (body t); try reflexivity. now apply IH.
Qed.

Lemma parse_reindent (fuel : nat) :
  (forall b b' pos,
      (forall i, (f i <? b') = (i <? b)) ->
      Parser._parse_value ts' fuel b' pos = Parser._parse_value ts fuel b pos)
  /\
  (forall b b' pos acc,
      (forall i, (f i <? b') = (i <? b)) ->
      Parser.mapping_loop ts' fuel b' pos acc
      = Parser.mapping_loop ts fuel b pos acc).
Proof.
  induction fuel as [|n [IHv IHm]]; [split; reflexivity|].
  split.
  - intros b b' pos Hb. rewrite !parse_value_S.
    pose proof (related_nth pos) as R.
    destruct (nth_error ts pos) as [t|], (nth_error ts' pos) as [t'|];
      try contradiction; [|reflexivity].
    destruct R as [Rb Ri]. rewrite Rb.
    destruct (body t); try reflexivity.
    + unfold Parser._parse_list. now apply list_loop_reindent.
    + now apply IHm.
    + now apply IHm.
  - intros b b' pos acc Hb. rewrite !mapping_loop_S.
    pose proof (related_nth pos) as R.
    destruct (nth_error ts pos) as [t|], (nth_error ts' pos) as [t'|];
      try contradiction; [|reflexivity].
    destruct R as [Rb Ri]. rewrite Rb, Ri, Hb.
    destruct (indent t <? b); [reflexivity|].
    destruct (body t); try reflexivity.
    + pose proof (related_nth (pos + 1)) as R1.
      destruct (nth_error ts (pos + 1)) as [u|],
               (nth_error ts' (pos + 1)) as [u'|];
        try contradiction.
      * destruct R1 as [_ Ru]. rewrite Ru, ltb_increasing.
        destruct (indent t <? indent u).
        -- rewrite (IHv (indent u) (f (indent u)) (pos + 1))
             by (intros i; apply ltb_increasing).
           destruct (Parser._parse_value ts n (indent u) (pos + 1))
             as [[v p]| |]; cbn [bind]; try reflexivity.
           now apply IHm.
        -- now apply IHm.
      * now apply IHm.
    + now apply IHm.
Qed.

Lemma parse_related : Parser.parse ts' = Parser.parse ts.
Proof.
  unfold Parser.parse, Parser.enough_fuel.
  pose proof (Forall2_length related) as Hl. rewrite <- Hl.
  rewrite (proj1 (parse_reindent _) 0 0 0) by reflexivity.
  destruct ts, ts'; try discriminate Hl; reflexivity.
Qed.

End Reindent.

Lemma related_reindent (f : nat -> nat) (tokens : list Token) :
  Forall2 (same_token_upto f) tokens (map (reindent f) tokens).
Proof.
  induction tokens as [|t l IH]; constructor; [|exact IH].
  split; reflexivity.
Qed.

(** X6: the parser compares indents and nothing else: changing the indent
    of every token by a function that keeps their order leaves the
    parsed value as it was.  Two spaces a level or four, and a document
    that is indented as a whole, parse alike. *)
Theorem parse_reads_order_of_indents (f : nat -> nat) (tokens : list Token) :
  (forall i j, i < j -> f i < f j) ->
  Parser.parse (map (reindent f) tokens) = Parser.parse tokens.
Proof.
  intros Hf. apply (@parse_related f Hf tokens). apply related_reindent.
Qed.

Lemma parse_reads_order_of_indents_witness :
  let tokens := [mkToken (KEY (txt "a")) 1 0;
                 mkToken (KEY (txt "b")) 2 2;
                 mkToken (LIST_ITEM (txt "x")) 3 4;
                 mkToken (KEY_VALUE (txt "c") (Integer 1)) 4 2;
                 mkToken (KEY_VALUE (txt "d") Null) 5 0] in
  Parser.parse (map (reindent (fun i => 2 * i + 3)) tokens)
  = Parser.parse tokens.
Proof.
  intros tokens.
  apply (@parse_reads_order_of_indents (fun i => 2 * i + 3) tokens).
  intros i j H. lia.
Defined.

(** ** The scanner, line by line *)

Section ScannerLines.

(** A line is skipped, or makes a token whose type, value and indent do
    not depend on the line number. *)
Lemma scan_line_cases (l : str) :
  (blank_or_comment l = true /\ forall n, Scanner.scan_line n l = Ok None)
  \/ (blank_or_comment l = false /\
      exists b, forall n,
        Scanner.scan_line n l = Ok (Some (mkToken b n (leading l)))).
Proof.
  unfold blank_or_comment, Scanner.scan_line, leading.
  destruct (strip l) as [|c r] eqn:E; [left; split; reflexivity|].
  destruct (startswith (c :: r) (txt "#")); [left; split; reflexivity|].
  right. split; [reflexivity|].
  destruct (startswith (c :: r) (txt "- ")); [eauto|].
  destruct (endswith (c :: r) (txt ":")) eqn:Ee.
  - rewrite orb_true_r. eauto.
  - rewrite orb_false_r.
    destruct (contains (c :: r) (txt ": ")) eqn:Ec; [|eauto].
    destruct (@split1_found (c :: r) (txt ": ")) as [a [b [H _]]];
      [discriminate | exact Ec |].
    rewrite H. eauto.
Qed.

Lemma lstrip_length (s : str) : List.length (lstrip s) <= List.length s.
Proof.
  induction s as [|c s IH]; simpl; [lia|].
  destruct (isspace c); simpl; lia.
Qed.

(** Whitespace at the end of a line does not change its token. *)
Lemma scan_line_trailing (n : nat) (l w : str) :
  forallb isspace w = true ->
  Scanner.scan_line n (l ++ w) = Scanner.scan_line n l.
Proof.
  intros Hw. unfold Scanner.scan_line.
  assert (Es : strip (l ++ w) = strip l).
  { rewrite <- (app_nil_l (l ++ w)). now apply strip_pad. }
  rewrite Es. destruct (strip l) as [|c r] eqn:E; [reflexivity|].
  assert (Hl : lstrip l <> []).
  { intros H. unfold strip in E. rewrite H in E. discriminate E. }
  rewrite (lstrip_app_content _ w Hl), !length_app.
  pose proof (lstrip_length l).
  replace (List.length l + List.length w
           - (List.length (lstrip l) + List.length w))
    with (List.length l - List.length (lstrip l)) by lia.
  reflexivity.
Qed.

(** Spaces before a line add to the indent of its token. *)
Lemma scan_line_shifted (n k : nat) (l : str) :
  Scanner.scan_line n (replicate k " "%char ++ l)
  = match Scanner.scan_line n l with
    | Ok (Some t) => Ok (Some (reindent (fun i => k + i) t))
    | r => r
    end.
Proof.
  assert (Es : strip (replicate k " "%char ++ l) = strip l)
    by (unfold strip; now rewrite lstrip_spaces_app).
  assert (Ei : List.length (replicate k " "%char ++ l)
               - List.length (lstrip (replicate k " "%char ++ l))
               = k + (List.length l - List.length (lstrip l))).
  { rewrite lstrip_spaces_app, length_app. unfold replicate.
    rewrite repeat_length. pose proof (lstrip_length l). lia. }
  unfold Scanner.scan_line. rewrite Es, Ei.
  destruct (strip l) as [|c r]; [reflexivity|].
  destruct (startswith (c :: r) (txt "#")); [reflexivity|].
  destruct (startswith (c :: r) (txt "- ")); [reflexivity|].
  destruct (contains (c :: r) (txt ": ") || endswith (c :: r) (txt ":"));
    [|reflexivity].
  destruct (endswith (c :: r) (txt ":")); [reflexivity|].
  destruct (split1 (c :: r) (txt ": ")) as [|a [|b [|x y]]]; reflexivity.
Qed.

Lemma join_nil_or_lines (ls : list str) :
  Forall (fun l => newline_free l = true) ls ->
  split_char newline (join [newline] ls) = match ls with [] => [[]] | _ => ls end.
Proof.
  intros H. destruct ls as [|l ls]; [reflexivity|].
  apply split_join; [discriminate | exact H].
Qed.

End ScannerLines.

Section ScannedDocuments.

Lemma scan_lines_or_blank (n : nat) (ls : list str) :
  Scanner.scan_lines n (match ls with [] => [[]] | _ => ls end)
  = Scanner.scan_lines n ls.
Proof. destruct ls; reflexivity. Qed.

(** [Scanner.scan] on the text made of the given lines. *)
Lemma scan_join (ls : list str) :
  Forall (fun l => newline_free l = true) ls ->
  Scanner.scan (join [newline] ls) = Scanner.scan_lines 1 ls.
Proof.
  intros H. unfold Scanner.scan.
  now rewrite (join_nil_or_lines H), scan_lines_or_blank.
Qed.

Lemma scan_lines_trailing (lines : list (str * str)) :
  Forall (fun lw => forallb isspace (snd lw) = true) lines ->
  forall n,
    Scanner.scan_lines n (map (fun lw => fst lw ++ snd lw) lines)
    = Scanner.scan_lines n (map fst lines).
Proof.
  induction 1 as [|[l w] lines Hw _ IH]; intros n; [reflexivity|].
  cbn [map Scanner.scan_lines fst snd] in *.
  rewrite scan_line_trailing by exact Hw. now rewrite IH.
Qed.

Lemma scan_lines_shifted (k : nat) (lines : list str) :
  forall n ts,
    Scanner.scan_lines n lines = Ok ts ->
    Scanner.scan_lines n (map (app (replicate k " "%char)) lines)
    = Ok (map (reindent (fun i => k + i)) ts).
Proof.
  induction lines as [|l lines IH]; intros n ts H.
  - injection H as <-. reflexivity.
  - cbn [map Scanner.scan_lines] in *. rewrite scan_line_shifted.
    destruct (Scanner.scan_line n l) as [[t|]| |]; try discriminate H;
      cbn [bind] in *;
      destruct (Scanner.scan_lines (S n) lines) as [ts0| |] eqn:E;
      try discriminate H; cbn [bind] in *; injection H as <-;
      rewrite (IH _ _ E); reflexivity.
Qed.

Lemma scan_lines_filtered (lines : list str) :
  forall n n',
  exists ts ts',
    Scanner.scan_lines n lines = Ok ts /\
    Scanner.scan_lines n'
      (filter (fun l => negb (blank_or_comment l)) lines) = Ok ts' /\
    Forall2 (same_token_upto (fun i => i)) ts ts'.
Proof.
  induction lines as [|l lines IH]; intros n n'.
  - exists [], []. repeat split. constructor.
  - cbn [filter Scanner.scan_lines].
    destruct (scan_line_cases l) as [[Hb Hs] | [Hb [b Hs]]]; rewrite Hb.
    + cbn [negb]. destruct (IH (S n) n') as (ts & ts' & H1 & H2 & H3).
      exists ts, ts'. rewrite Hs, H1. repeat split; assumption.
    + cbn [negb Scanner.scan_lines].
      destruct (IH (S n) (S n')) as (ts & ts' & H1 & H2 & H3).
      eexists _, _. rewrite !Hs, H1, H2. cbn [bind].
      repeat split. constructor; [split; reflexivity | exact H3].
Qed.

Lemma scan_lines_positions (lines : list str) :
  forall n,
  exists ts,
    Scanner.scan_lines n lines = Ok ts /\
    map (fun t => (line t, indent t)) ts
    = map (fun nl => (fst nl, leading (snd nl)))
          (filter (fun nl => negb (blank_or_comment (snd nl)))
                  (combine (seq n (List.length lines)) lines)).
Proof.
  induction lines as [|l lines IH]; intros n.
  - exists []. split; reflexivity.
  - cbn [List.length seq combine filter snd Scanner.scan_lines].
    destruct (IH (S n)) as (ts & H1 & H2).
    destruct (scan_line_cases l) as [[Hb Hs] | [Hb [b Hs]]];
      rewrite Hb, Hs, H1; cbn [bind negb].
    + exists ts. split; [reflexivity | exact H2].
    + eexists. split; [reflexivity|]. cbn [map line indent fst snd].
      now rewrite H2.
Qed.

End ScannedDocuments.

(** X7: whitespace at the end of lines, a carriage return before the line
    break for one, does not change what [load] returns. *)
Theorem load_ignores_trailing_whitespace (lines : list (str * str)) :
  Forall (fun lw => newline_free (fst lw) = true) lines ->
  Forall (fun lw => newline_free (snd lw) = true) lines ->
  Forall (fun lw => forallb isspace (snd lw) = true) lines ->
  load (join [newline] (map (fun lw => fst lw ++ snd lw) lines))
  = load (join [newline] (map fst lines)).
Proof.
  intros Hl Hw Hs. unfold load.
  assert (H1 : Forall (fun l => newline_free l = true) (map fst lines))
    by (apply Forall_map; exact Hl).
  assert (H2 : Forall (fun l => newline_free l = true)
                      (map (fun lw => fst lw ++ snd lw) lines)).
  { apply Forall_map. rewrite Forall_forall in *. intros lw Hin.
    rewrite newline_free_app. apply andb_true_iff.
    split; [apply Hl | apply Hw]; exact Hin. }
  rewrite (scan_join H1), (scan_join H2).
  now rewrite scan_lines_trailing.
Qed.

Lemma load_ignores_trailing_whitespace_witness :
  load (join [newline] [txt "a:" ++ ["013"%char]; txt "  - 1" ++ txt "  "])
  = load (join [newline] [txt "a:"; txt "  - 1"]).
Proof.
  apply (@load_ignores_trailing_whitespace
           [(txt "a:", ["013"%char]); (txt "  - 1", txt "  ")]);
    repeat constructor.
Defined.

(** X8: blank lines and comment lines, wherever they stand, do not change
    what [load] returns. *)
Theorem load_skips_blank_and_comment_lines (lines : list str) :
  Forall (fun l => newline_free l = true) lines ->
  load (join [newline] (filter (fun l => negb (blank_or_comment l)) lines))
  = load (join [newline] lines).
Proof.
  intros Hl. unfold load.
  assert (H2 : Forall (fun l => newline_free l = true)
                      (filter (fun l => negb (blank_or_comment l)) lines)).
  { rewrite Forall_forall in *. intros l Hin.
    apply filter_In in Hin as [Hin _]. now apply Hl. }
  rewrite (scan_join Hl), (scan_join H2).
  destruct (scan_lines_filtered lines 1 1) as (ts & ts' & -> & -> & R).
  cbn [bind]. apply (@parse_related (fun i => i)); [auto | exact R].
Qed.

Lemma load_skips_blank_and_comment_lines_witness :
  load (join [newline]
          (filter (fun l => negb (blank_or_comment l))
                  [txt "# head"; txt "a:"; txt "   "; txt "  b: 1";
                   txt "  # note"; txt "  c: 2"]))
  = load (join [newline]
            [txt "# head"; txt "a:"; txt "   "; txt "  b: 1";
             txt "  # note"; txt "  c: 2"]).
Proof.
  apply (@load_skips_blank_and_comment_lines
           [txt "# head"; txt "a:"; txt "   "; txt "  b: 1";
            txt "  # note"; txt "  c: 2"]).
  repeat constructor.
Defined.

(** X9: a document loads to the same value when the same number of spaces
    is put before each of its lines. *)
Theorem load_ignores_common_indent (k : nat) (lines : list str) :
  Forall (fun l => newline_free l = true) lines ->
  load (join [newline] (map (app (replicate k " "%char)) lines))
  = load (join [newline] lines).
Proof.
  intros Hl. unfold load.
  assert (H2 : Forall (fun l => newline_free l = true)
                      (map (app (replicate k " "%char)) lines)).
  { apply Forall_map. rewrite Forall_forall in *. intros l Hin.
    rewrite newline_free_app, (Hl l Hin), andb_true_r.
    unfold replicate. clear. induction k; simpl; auto. }
  rewrite (scan_join Hl), (scan_join H2).
  destruct (scan_lines_ok lines 1) as [ts Hts].
  rewrite (@scan_lines_shifted k lines 1 ts Hts), Hts. cbn [bind].
  apply (@parse_related (fun i => k + i)); [intros; lia|].
  apply related_reindent.
Qed.

Lemma load_ignores_common_indent_witness :
  load (join [newline]
          (map (app (replicate 3 " "%char))
               [txt "a:"; txt "  - 1"; txt "b: x"]))
  = load (join [newline] [txt "a:"; txt "  - 1"; txt "b: x"]).
Proof.
  apply (@load_ignores_common_indent 3 [txt "a:"; txt "  - 1"; txt "b: x"]).
  repeat constructor.
Defined.

(** X10: the scanner makes one token of each line that is neither blank nor
    a comment, in the order of the lines; the token holds the number of
    its line, counted from 1 over all the lines, and, as its indent, the
    number of whitespace characters its line begins with. *)
Theorem scan_token_positions (text : str) :
  exists ts,
    Scanner.scan text = Ok ts /\
    map (fun t => (line t, indent t)) ts
    = map (fun nl => (fst nl, leading (snd nl))) (content_lines text).
Proof. apply scan_lines_positions. Qed.

(** X11: when the first line of a text holds a scalar (its content is not a
    comment, does not begin with a dash and a space, holds no colon
    followed by a space and does not end with a colon), [load] returns
    that scalar and drops the lines after it, whatever they hold. *)
Theorem load_returns_first_scalar_only (first rest : str) :
  newline_free first = true ->
  blank_or_comment first = false ->
  startswith (strip first) (txt "- ") = false ->
  contains (strip first) (txt ": ") = false ->
  endswith (strip first) (txt ":") = false ->
  load (first ++ newline :: rest) = Ok (Scanner._parse_value first).
Proof.
  intros Hn Hb Hd Hc He. unfold load, Scanner.scan.
  rewrite split_char_app by exact Hn. cbn [Scanner.scan_lines].
  assert (Hs : Scanner.scan_line 1 first
               = Ok (Some (mkToken (VALUE (Scanner._parse_value first))
                                   1 (leading first)))).
  { unfold Scanner.scan_line, blank_or_comment in *.
    rewrite parse_value_strip.
    destruct (strip first) as [|c r]; [discriminate Hb|].
    rewrite Hb, Hd, Hc, He. reflexivity. }
  rewrite Hs. cbn [bind].
  destruct (scan_lines_ok (split_char newline rest) 2) as [ts ->].
  reflexivity.
Qed.

Lemma load_returns_first_scalar_only_witness :
  load (txt "42" ++ newline :: txt "a: 1" ++ newline :: txt "- x")
  = Ok (Scanner._parse_value (txt "42")).
Proof.
  apply (@load_returns_first_scalar_only
           (txt "42") (txt "a: 1" ++ newline :: txt "- x"));
    reflexivity.
Defined.

(** ** Documents of one list, documents of one mapping *)

Section FlatDocuments.

Lemma spaces_newline_free (k : nat) :
  newline_free (replicate k " "%char) = true.
Proof. unfold replicate. induction k; simpl; auto. Qed.

Lemma list_loop_items (items : list (nat * str)) :
  forall tokens pre acc,
    map shape tokens
    = pre ++ map (fun it => (LIST_ITEM (snd it), fst it)) items ->
    Parser.list_loop tokens (S (List.length items)) 0 (List.length pre) acc
    = Ok (Sequence (acc ++ map (fun it => Scanner._parse_value (snd it)) items),
          List.length pre + List.length items).
Proof.
  induction items as [|[k t] items IH]; intros tokens pre acc Hs.
  - cbn [map List.length] in *. rewrite app_nil_r in Hs.
    rewrite list_loop_S, (@token_at_end _ _ Hs).
    now rewrite app_nil_r, Nat.add_0_r.
  - cbn [map fst snd] in Hs.
    destruct (@token_at _ _ _ _ _ Hs) as (t0 & Ht & Hb & Hi).
    cbn [List.length]. rewrite list_loop_S, Ht, Hb.
    replace (indent t0 <? 0) with false by (symmetry; apply Nat.ltb_ge; lia).
    replace (List.length pre + 1)
      with (List.length (pre ++ [(LIST_ITEM t, k)]))
      by (rewrite length_app; reflexivity).
    rewrite (IH tokens); [| now rewrite <- app_assoc].
    rewrite length_app, <- app_assoc. cbn [List.length app map snd].
    unfold Parser._parse_scalar. f_equal. f_equal. lia.
Qed.

Lemma mapping_loop_entries (entries : list (nat * (str * str))) :
  forall tokens pre acc,
    map shape tokens
    = pre ++ map (fun e => (KEY_VALUE (fst (snd e))
                                      (Scanner._parse_value (snd (snd e))),
                            fst e)) entries ->
    Parser.mapping_loop tokens (S (List.length entries)) 0
                        (List.length pre) acc
    = Ok (Mapping
            (fold_left (fun d e => dict_set d (fst (snd e))
                                            (Scanner._parse_value (snd (snd e))))
                       entries acc),
          List.length pre + List.length entries).
Proof.
  induction entries as [|[k [key t]] entries IH]; intros tokens pre acc Hs.
  - cbn [map List.length fold_left] in *. rewrite app_nil_r in Hs.
    rewrite mapping_loop_S, (@token_at_end _ _ Hs).
    now rewrite Nat.add_0_r.
  - cbn [map fst snd] in Hs.
    destruct (@token_at _ _ _ _ _ Hs) as (t0 & Ht & Hb & Hi).
    cbn [List.length]. rewrite mapping_loop_S, Ht, Hb.
    replace (indent t0 <? 0) with false by (symmetry; apply Nat.ltb_ge; lia).
    replace (List.length pre + 1)
      with (List.length
              (pre ++ [(KEY_VALUE key (Scanner._parse_value t), k)]))
      by (rewrite length_app; reflexivity).
    rewrite (IH tokens); [| now rewrite <- app_assoc].
    rewrite length_app. cbn [List.length fold_left fst snd].
    f_equal. f_equal. lia.
Qed.

Lemma scans_item_lines (items : list (nat * str)) :
  Forall (fun it => item_text (snd it)) items ->
  scans_to (map item_line items)
           (map (fun it => (LIST_ITEM (snd it), fst it)) items).
Proof.
  induction 1 as [|[k t] items (H1 & H2 & _) _ IH]; [apply scans_to_nil|].
  cbn [map]. apply scans_to_cons; [|exact IH].
  intros n. now apply scan_line_item.
Qed.

Lemma scans_entry_lines (entries : list (nat * (str * str))) :
  Forall (fun e => key_text (fst (snd e)) /\ value_text (snd (snd e)))
         entries ->
  scans_to (map entry_line entries)
           (map (fun e => (KEY_VALUE (fst (snd e))
                                     (Scanner._parse_value (snd (snd e))),
                           fst e)) entries).
Proof.
  induction 1 as [|[k [key t]] entries
                   [(K1 & K2 & K3 & K4 & K5) [(T1 & T2 & T3) T4]] _ IH];
    [apply scans_to_nil|].
  cbn [map]. apply scans_to_cons; [|exact IH].
  intros n. now apply scan_line_key_value.
Qed.

Lemma assign_all_get (entries : list (nat * (str * str))) (key : str) :
  forall acc r,
    dict_get acc key = option_map Scanner._parse_value r ->
    dict_get (fold_left (fun d e => dict_set d (fst (snd e))
                                             (Scanner._parse_value (snd (snd e))))
                        entries acc) key
    = option_map Scanner._parse_value
        (fold_left (fun r e => if PyStr.eqb (fst (snd e)) key
                               then Some (snd (snd e)) else r)
                   entries r).
Proof.
  induction entries as [|[k [key' t]] entries IH]; intros acc r H;
    [exact H|].
  cbn [fold_left fst snd]. apply IH.
  destruct (PyStr.eqb key' key) eqn:E.
  - apply eqb_eq in E. subst key'. apply dict_get_set_same.
  - apply eqb_neq in E. rewrite dict_get_set_other by congruence. exact H.
Qed.

End FlatDocuments.

(** X12: a document whose lines are all list items loads to the list of the
    coerced items, in the order of the lines and whatever the indent of
    each line: items are never nested. *)
Theorem load_list_document (items : list (nat * str)) :
  items <> [] ->
  Forall (fun it => item_text (snd it)) items ->
  load (join [newline] (map item_line items))
  = Ok (Sequence (map (fun it => Scanner._parse_value (snd it)) items)).
Proof.
  intros Hne Hi. unfold load.
  assert (Hn : Forall (fun l => newline_free l = true) (map item_line items)).
  { apply Forall_map. rewrite Forall_forall in *. intros it Hin.
    destruct (Hi it Hin) as (_ & _ & H). unfold item_line.
    now rewrite !newline_free_app, spaces_newline_free, H. }
  rewrite (scan_join Hn).
  destruct (scans_item_lines Hi 1) as (ts & -> & Hs). cbn [bind].
  pose proof (@list_loop_items items ts [] []) as Hl.
  cbn [app List.length Nat.add] in Hl. specialize (Hl Hs).
  destruct items as [|it items]; [congruence|].
  cbn [map] in Hs.
  destruct (@token_at ts [] _ _ _ Hs) as (t0 & Ht & Hb & _).
  apply (@parse_with_fuel ts (S (S (List.length (it :: items))))
                          _ (List.length (it :: items))).
  - destruct ts; [discriminate | congruence].
  - rewrite parse_value_S. cbn [List.length] in Ht. rewrite Ht, Hb.
    exact Hl.
Qed.

Lemma load_list_document_witness :
  load (join [newline]
          (map item_line [(0, txt "a"); (4, txt "12"); (2, txt " yes")]))
  = Ok (Sequence
          (map (fun it => Scanner._parse_value (snd it))
               [(0, txt "a"); (4, txt "12"); (2, txt " yes")])).
Proof.
  apply (@load_list_document [(0, txt "a"); (4, txt "12"); (2, txt " yes")]).
  - discriminate.
  - repeat constructor; discriminate.
Defined.

(** X13: a document whose lines all hold a key, a colon, a space and a text
    loads to the mapping that the assignments of the coerced texts to
    the keys build, line after line and whatever the indent of each
    line: a key met again takes the later value and keeps its place, so
    that a key is bound to the coerced text of the last line that names
    it. *)
Theorem load_mapping_document (entries : list (nat * (str * str))) :
  entries <> [] ->
  Forall (fun e => key_text (fst (snd e)) /\ value_text (snd (snd e)))
         entries ->
  load (join [newline] (map entry_line entries))
  = Ok (Mapping (assign_all entries)) /\
  forall key, dict_get (assign_all entries) key
              = option_map Scanner._parse_value (last_text entries key).
Proof.
  intros Hne He. split; [|intros key; now apply assign_all_get].
  unfold load.
  assert (Hn : Forall (fun l => newline_free l = true)
                      (map entry_line entries)).
  { apply Forall_map. rewrite Forall_forall in *. intros e Hin.
    destruct (He e Hin) as [(K & _) [(_ & _ & T) _]]. unfold entry_line.
    now rewrite !newline_free_app, spaces_newline_free, K, T. }
  rewrite (scan_join Hn).
  destruct (scans_entry_lines He 1) as (ts & -> & Hs). cbn [bind].
  pose proof (@mapping_loop_entries entries ts [] []) as Hl.
  cbn [app List.length Nat.add] in Hl. specialize (Hl Hs).
  destruct entries as [|e entries]; [congruence|].
  cbn [map] in Hs.
  destruct (@token_at ts [] _ _ _ Hs) as (t0 & Ht & Hb & _).
  apply (@parse_with_fuel ts (S (S (List.length (e :: entries))))
                          _ (List.length (e :: entries))).
  - destruct ts; [discriminate | congruence].
  - rewrite parse_value_S. cbn [List.length] in Ht. rewrite Ht, Hb.
    exact Hl.
Qed.

Lemma load_mapping_document_witness :
  let entries := [(0, (txt "a", txt "1")); (3, (txt "b", txt "x"));
                  (1, (txt "a", txt "no"))] in
  load (join [newline] (map entry_line entries))
  = Ok (Mapping [(txt "a", Boolean false); (txt "b", Str (txt "x"))]) /\
  forall key, dict_get (assign_all entries) key
              = option_map Scanner._parse_value (last_text entries key).
Proof.
  intros entries. apply (@load_mapping_document entries).
  - discriminate.
  - repeat constructor; discriminate.
Defined.

(** ** The tree that [load] returns *)

Section LoadedTrees.

Lemma loaded_scalar_node (x : Value) :
  loaded_scalar x -> subtrees x = [x] /\ loaded_node x.
Proof.
  intros [Hs Hn]. destruct x; try discriminate Hs;
    (split; [reflexivity|]); try exact I.
  cbn [loaded_node]. now apply Hn.
Qed.

Lemma loaded_scalars_nodes (l : list Value) :
  Forall loaded_scalar l ->
  forallb is_scalar l = true /\
  forall x, In x (flat_map subtrees l) -> loaded_node x.
Proof.
  induction 1 as [|y l Hy _ [IH1 IH2]]; [split; [reflexivity | intros x []]|].
  destruct (loaded_scalar_node Hy) as [E Hn]. split.
  - cbn [forallb]. now rewrite (proj1 Hy), IH1.
  - intros x Hx. cbn [flat_map] in Hx. rewrite E in Hx.
    destruct Hx as [<- | Hx]; [exact Hn | now apply IH2].
Qed.

Lemma loaded_entries_nodes (m : list (str * Value)) :
  loaded_entries m ->
  NoDup (dict_keys m) /\ Forall loaded_key (dict_keys m) /\
  forall x, In x (flat_map (fun kv => subtrees (snd kv)) m) -> loaded_node x.
Proof.
  induction 1 as [|k y r Hk Hin Hy Hr (IH1 & IH2 & IH3)
                  |k l r Hk Hin Hne Hl Hr (IH1 & IH2 & IH3)
                  |k m' r Hk Hin Hne Hm (IM1 & IM2 & IM3) Hr (IH1 & IH2 & IH3)].
  - repeat split; [constructor | constructor | intros x []].
  - repeat split; [now constructor | now constructor |].
    intros x Hx. cbn [flat_map snd] in Hx.
    destruct (loaded_scalar_node Hy) as [E Hn]. rewrite E in Hx.
    destruct Hx as [<- | Hx]; [exact Hn | now apply IH3].
  - repeat split; [now constructor | now constructor |].
    intros x Hx. cbn [flat_map snd subtrees] in Hx.
    destruct (loaded_scalars_nodes Hl) as [L1 L2].
    destruct Hx as [<- | Hx]; [now split|].
    apply in_app_or in Hx as [Hx | Hx]; [now apply L2 | now apply IH3].
  - repeat split; [now constructor | now constructor |].
    intros x Hx. cbn [flat_map snd subtrees] in Hx.
    destruct Hx as [<- | Hx]; [now repeat split|].
    apply in_app_or in Hx as [Hx | Hx]; [now apply IM3 | now apply IH3].
Qed.

Lemma loaded_nodes (v : Value) :
  loaded v -> forall x, In x (subtrees v) -> loaded_node x.
Proof.
  intros Hv x Hx. destruct v as [ | b | n | f | s | l | m];
    try (destruct Hx as [<- | []]; exact I).
  - destruct Hx as [<- | []]. apply Hv.
  - destruct Hv as [Hne Hl]. destruct (loaded_scalars_nodes Hl) as [L1 L2].
    cbn [subtrees] in Hx. destruct Hx as [<- | Hx]; [now split | now apply L2].
  - destruct Hv as [Hne Hm].
    destruct (loaded_entries_nodes Hm) as (M1 & M2 & M3).
    cbn [subtrees] in Hx.
    destruct Hx as [<- | Hx]; [now repeat split | now apply M3].
Qed.

End LoadedTrees.

(** X14: in the value that [load] returns, at any depth: a list is never
    empty and holds scalars only, never a list or a mapping; a mapping
    is never empty, its keys are pairwise distinct, have no line break
    and begin with neither whitespace, nor a hash, nor a dash and a
    space; a String has no line break. *)
Theorem load_builds_flat_lists_and_distinct_keys (text : str) (v : Value) :
  load text = Ok v ->
  forall x, In x (subtrees v) -> loaded_node x.
Proof. intros H. apply loaded_nodes. exact (load_loaded _ H). Qed.

Lemma load_builds_flat_lists_and_distinct_keys_witness :
  let text := txt "a:" ++ newline :: txt "  - 1" ++ newline
              :: txt "    - - x" ++ newline :: txt "b:" in
  let v := Mapping [(txt "a", Sequence [Integer 1; Str (txt "- x")]);
                    (txt "b", Null)] in
  load text = Ok v /\ forall x, In x (subtrees v) -> loaded_node x.
Proof.
  intros text v.
  assert (Hload : load text = Ok v) by (vm_compute; reflexivity).
  split; [exact Hload|].
  exact (@load_builds_flat_lists_and_distinct_keys text v Hload).
Defined.

(** ** Dump and load again, with any indent *)

Section AnyIndent.

Variable ind : nat.
Hypothesis ind_pos : 0 < ind.

Lemma load_dump_indent_reread (v : Value) :
  loaded v ->
  (is_scalar v = true -> line_ok (scalar_text v)) ->
  Forall (fun x => line_value_ok (scalar_text x)) (leaves v) ->
  Forall (fun k => contains k (txt ": ") = false) (scalar_keys v) ->
  load (dump_indent v ind) = Ok (reread_tree v).
Proof.
  intros Hv Hroot HP HQ. unfold load, dump_indent.
  destruct (is_scalar v) eqn:Es.
  - destruct (Hroot eq_refl) as (Ht & Hnl & H1 & H2 & H3 & H4).
    rewrite (scalar_dump ind _ 0 Es). unfold Scanner.scan.
    rewrite (split_char_line _ Hnl). cbn [Scanner.scan_lines].
    rewrite (scan_line_value 1 Ht H1 H2 H3 H4). cbn [bind].
    rewrite (reread_tree_scalar _ Es). reflexivity.
  - destruct v as [ | | | | | l | m]; try discriminate.
    + destruct Hv as [Hne Hl].
      rewrite (leaves_scalars Hl) in HP.
      destruct (lines_sequence ind 0 HP) as [Hnl Hsc].
      destruct (@scan_of_lines (Dumper.dump ind (Sequence l) 0)
                               (dump_lines ind (Sequence l) 0)
                               (shapes ind (Sequence l) 0))
        as (ts & -> & Hts); trivial.
      * now apply dump_sequence.
      * destruct l; [congruence | discriminate].
      * cbn [bind]. cbn [shapes] in Hts.
        assert (Hitems := @parse_items ind ind_pos l ts [] [] [] (0 * ind)).
        rewrite app_nil_r in Hitems. specialize (Hitems Hts I).
        cbn [List.length app Nat.add] in Hitems.
        change (0 * ind) with 0 in *.
        destruct l as [|x l']; [congruence|]. cbn [map] in Hts.
        destruct (@token_at ts [] _ _ _ Hts) as (t & Ht & Hb & _).
        apply (@parse_with_fuel ts (S (S (List.length (x :: l'))))
                                _ (List.length (x :: l'))).
        -- destruct ts; [discriminate | congruence].
        -- rewrite parse_value_S. cbn [List.length] in Ht. rewrite Ht, Hb.
           unfold Parser._parse_list. rewrite Hitems.
           cbn [reread_tree]. now rewrite (reread_tree_scalars Hl).
    + destruct Hv as [Hne Hm].
      destruct (lines_entries ind Hm 0 HP HQ) as [Hnl Hsc].
      destruct (@scan_of_lines (Dumper.dump ind (Mapping m) 0)
                               (dump_lines ind (Mapping m) 0)
                               (shapes ind (Mapping m) 0))
        as (ts & -> & Hts); trivial.
      * now apply dump_entries.
      * apply dump_lines_nonempty. now split.
      * cbn [bind].
        destruct (@parse_entries ind ind_pos m Hm 0 ts [] [] [])
          as [fuel Hf].
        -- now rewrite app_nil_r.
        -- exact I.
        -- intros k _ [].
        -- destruct (@shapes_entries_head ind m 0 Hm Hne)
             as (b & rest & Eh & Hkl).
           rewrite Eh in Hts.
           destruct (@token_at ts [] _ _ _ Hts) as (t & Ht & Hb & _).
           apply (@parse_with_fuel ts (S fuel) _
                    (List.length (shapes ind (Mapping m) 0))).
           ++ destruct ts; [discriminate | congruence].
           ++ rewrite parse_value_S. cbn [List.length] in Ht, Hf.
              change (0 * ind) with 0 in *.
              rewrite Ht, Hb. cbn [app Nat.add] in Hf.
              destruct b; simpl in Hkl; try tauto; exact Hf.
Qed.

End AnyIndent.

Section Structure.

(** The text of a scalar as the scanner makes it can follow a dash or a
    key on a line, when a plain String is not empty and does not end
    with whitespace. *)
Lemma leaf_line_value_ok_rstrip (x : Value) :
  loaded_scalar x ->
  (forall s, x = Str s -> plain s -> s <> [] /\ rstrip s = s) ->
  line_value_ok (scalar_text x).
Proof.
  intros [Hs Hnl] Ht. destruct x as [ | b | n | f | s | | ];
    try discriminate;
    try (apply line_ok_value_ok, scalar_text_line_ok;
         [reflexivity | discriminate]).
  unfold scalar_text. cbn [Dumper.dump].
  destruct (any_in Dumper.must_quote s) eqn:Eq.
  - apply quoted_line_value_ok. now apply Hnl.
  - destruct (Ht s eq_refl Eq) as [H1 H2].
    repeat split; [exact H1 | exact H2 | now apply Hnl |].
    apply colon_free_line, plain_colon_free, Eq.
Qed.

End Structure.

Lemma load_dump_reread_structure (ind : nat) (text : str) (v : Value) :
  0 < ind ->
  load text = Ok v ->
  (forall s, In (Str s) (leaves v) -> plain s -> s <> [] /\ rstrip s = s) ->
  (forall k, In k (scalar_keys v) -> contains k (txt ": ") = false) ->
  (forall s, v = Str s -> plain s ->
             lstrip s = s /\ startswith s (txt "- ") = false) ->
  load (dump_indent v ind) = Ok (reread_tree v).
Proof.
  intros Hi Hload HS HK HR.
  pose proof (load_loaded text Hload) as Hv.
  pose proof (loaded_leaves v Hv) as Hleaves.
  rewrite Forall_forall in Hleaves.
  apply load_dump_indent_reread; [exact Hi | exact Hv | | |].
  - intros Hs. apply root_line_ok; [exact Hv | exact Hs |].
    intros s -> Hp. destruct (HR s eq_refl Hp) as [H1 H2].
    destruct (HS s (or_introl eq_refl) Hp) as [H3 H4].
    repeat split; assumption.
  - apply Forall_forall. intros x Hx.
    apply leaf_line_value_ok_rstrip; [now apply Hleaves|].
    intros s -> Hp. now apply HS.
  - apply Forall_forall. exact HK.
Qed.


(** X15: for a value that [load] returns and any indent of at least one
    space, [load] of the dump returns the same tree (the same keys in
    the same order, lists of the same length) in which every scalar is
    what the coercion reads from its dumped text, provided that no
    String dumped without quotes is empty or ends with whitespace, that
    no key bound to a scalar holds a colon followed by a space, and
    that the value is not itself a String dumped without quotes that
    begins with whitespace or with a dash and a space. *)
Theorem load_dump_keeps_structure (ind : nat) (text : str) (v : Value) :
  0 < ind ->
  load text = Ok v ->
  (forall s, In (Str s) (leaves v) -> plain s -> s <> [] /\ rstrip s = s) ->
  (forall k, In k (scalar_keys v) -> contains k (txt ": ") = false) ->
  (forall s, v = Str s -> plain s ->
             lstrip s = s /\ startswith s (txt "- ") = false) ->
  load (dump_indent v ind) = Ok (reread_tree v).
Proof. apply load_dump_reread_structure. Qed.

Lemma load_dump_keeps_structure_witness :
  let text := txt "name: 'true'" ++ newline :: txt "tags:"
              ++ newline :: txt "  - ' 007'" ++ newline :: txt "  - a:b"
              ++ newline :: txt "config:" ++ newline :: txt "  port: 8080" in
  let v := Mapping
             [(txt "name", Str (txt "true"));
              (txt "tags", Sequence [Str (txt " 007"); Str (txt "a:b")]);
              (txt "config", Mapping [(txt "port", Integer 8080)])] in
  load text = Ok v /\
  load (dump_indent v 4)
  = Ok (Mapping
          [(txt "name", Boolean true);
           (txt "tags", Sequence [Integer 7; Str (txt "a:b")]);
           (txt "config", Mapping [(txt "port", Integer 8080)])]).
Proof.
  intros text v.
  assert (Hload : load text = Ok v) by (vm_compute; reflexivity).
  split; [exact Hload|].
  apply (@load_dump_keeps_structure 4 text v); [lia | exact Hload | | |].
  - intros s Hs Hp. vm_compute in Hs.
    repeat (destruct Hs as [Hs | Hs];
            [try discriminate Hs; injection Hs as <-;
             first [split; [discriminate | reflexivity]
                   | vm_compute in Hp; discriminate Hp]
            |]).
    destruct Hs.
  - intros k Hk. vm_compute in Hk.
    repeat (destruct Hk as [<- | Hk]; [vm_compute; reflexivity|]).
    destruct Hk.
  - intros s Hs. discriminate Hs.
Defined.

(** X16: for a value that [load] returns and any indent of at least one
    space, [load] of the dump returns the value, under the conditions of
    the round trip with the indent of two spaces: every String dumped
    without quotes is read by the coercion as itself, every Float is
    read by [float] from its own text, no key bound to a scalar holds a
    colon followed by a space, and the value is not a String without
    quotes that begins with a dash and a space. *)
Theorem load_dump_round_trip_any_indent
        (ind : nat) (text : str) (v : Value) :
  0 < ind ->
  load text = Ok v ->
  (forall s, In (Str s) (leaves v) -> plain s ->
             Scanner._parse_value s = Str s) ->
  (forall f, In (Float f) (leaves v) -> float_reads_back f) ->
  (forall k, In k (scalar_keys v) -> contains k (txt ": ") = false) ->
  (forall s, v = Str s -> plain s -> startswith s (txt "- ") = false) ->
  load (dump_indent v ind) = Ok v.
Proof.
  intros Hi Hload HS HF HK HR.
  pose proof (load_loaded text Hload) as Hv.
  pose proof (loaded_leaves v Hv) as Hleaves.
  rewrite Forall_forall in Hleaves.
  rewrite <- (@reread_tree_same v Hv) at 2.
  - apply load_dump_indent_reread; [exact Hi | exact Hv | | |].
    + intros Hs. apply root_line_ok; [exact Hv | exact Hs |].
      intros s -> Hp. split; [|now apply HR].
      apply plain_reads_back_trimmed; [exact Hp|].
      apply HS; [now left | exact Hp].
    + apply Forall_forall. intros x Hx.
      apply leaf_line_value_ok; [now apply Hleaves|].
      intros s -> Hp. apply plain_reads_back_trimmed; [exact Hp|].
      now apply HS.
    + apply Forall_forall. exact HK.
  - apply Forall_forall. intros x Hx. apply reread_scalar.
    + apply (Hleaves x Hx).
    + intros s -> Hp. now apply HS.
    + intros f ->. now apply HF.
Qed.

Lemma load_dump_round_trip_any_indent_witness :
  let text := txt "name: BlackRoad" ++ newline :: txt "ratio: 0.0"
              ++ newline :: txt "features:" ++ newline :: txt " - auth"
              ++ newline :: txt " - a:b" ++ newline :: txt "config:"
              ++ newline :: txt " debug: true" ++ newline :: txt " port: 8080" in
  let v := Mapping
             [(txt "name", Str (txt "BlackRoad"));
              (txt "ratio", Float (S754_zero false));
              (txt "features", Sequence [Str (txt "auth"); Str (txt "a:b")]);
              (txt "config", Mapping [(txt "debug", Boolean true);
                                      (txt "port", Integer 8080)])] in
  load text = Ok v /\ load (dump_indent v 1) = Ok v.
Proof.
  intros text v.
  assert (Hload : load text = Ok v) by (vm_compute; reflexivity).
  split; [exact Hload|].
  apply (@load_dump_round_trip_any_indent 1 text v); [lia | exact Hload | | | |].
  - intros s Hs Hp. vm_compute in Hs.
    repeat (destruct Hs as [Hs | Hs];
            [try discriminate Hs; injection Hs as <-;
             first [vm_compute; reflexivity | vm_compute in Hp; discriminate Hp]
            |]).
    destruct Hs.
  - intros f Hf. vm_compute in Hf.
    repeat (destruct Hf as [Hf | Hf];
            [try discriminate Hf; injection Hf as <-; vm_compute; reflexivity|]).
    destruct Hf.
  - intros k Hk. vm_compute in Hk.
    repeat (destruct Hk as [<- | Hk]; [vm_compute; reflexivity|]).
    destruct Hk.
  - intros s Hs. discriminate Hs.
Defined.

(** ** The dump that is empty *)

Section EmptyDump.

Lemma join_nonempty (sep x : str) (l : list str) :
  x <> [] -> join sep (x :: l) <> [].
Proof.
  intros Hx H. destruct l as [|y l]; [now apply Hx|].
  cbn [join] in H. apply app_eq_nil in H as [H _]. now apply Hx.
Qed.

Lemma app_nonempty_r (a b : str) : b <> [] -> a ++ b <> [].
Proof. intros Hb H. apply app_eq_nil in H as [_ H]. now apply Hb. Qed.

End EmptyDump.

(** X17: [dump] returns the empty text for the empty String and for no other
    value, with any indent; [load] reads the empty text as Null. *)
Theorem dump_is_empty_only_for_empty_string (v : Value) (indent : nat) :
  (dump_indent v indent = [] <-> v = Str []) /\
  load (dump_indent (Str []) indent) = Ok Null.
Proof.
  split; [|reflexivity]. unfold dump_indent. split.
  - destruct v as [ | [] | n | f | s | l | m]; cbn [Dumper.dump];
      try discriminate.
    + intros H. now destruct (py_str_int_chars n).
    + intros H. now destruct (py_str_float_chars f).
    + destruct (any_in Dumper.must_quote s); [discriminate | congruence].
    + destruct l as [|x l]; [discriminate|]. cbn [map]. intros H. exfalso.
      revert H. apply join_nonempty.
      destruct (Dumper.is_collection x).
      * intros E. apply app_eq_nil in E as [E _].
        apply app_eq_nil in E as [_ E]. discriminate E.
      * apply app_nonempty_r. discriminate.
    + destruct m as [|[k x] m]; [discriminate|]. cbn [flat_map]. intros H.
      exfalso. revert H.
      destruct (Dumper.is_collection x && Dumper.truthy x); cbn [app];
        apply join_nonempty; apply app_nonempty_r;
        apply app_nonempty_r || (intros E; apply app_eq_nil in E as [_ E]);
        discriminate.
  - intros ->. reflexivity.
Qed.

(** ** A second pass of dump and load *)

Section SecondPass.

Lemma reread_scalar_leaf (x : Value) :
  leaves (reread x) = [reread x] /\ scalar_keys (reread x) = [].
Proof.
  pose proof (parse_value_scalar (scalar_text x)) as H. fold (reread x) in H.
  destruct (reread x); try discriminate H; split; reflexivity.
Qed.

Lemma leaves_reread_scalars (l : list Value) :
  flat_map leaves (map reread l) = map reread l.
Proof.
  induction l as [|x l IH]; [reflexivity|].
  cbn [map flat_map]. now rewrite (proj1 (reread_scalar_leaf x)), IH.
Qed.

Lemma scalar_keys_reread_scalars (l : list Value) :
  flat_map scalar_keys (map reread l) = [].
Proof.
  induction l as [|x l IH]; [reflexivity|].
  cbn [map flat_map]. now rewrite (proj2 (reread_scalar_leaf x)), IH.
Qed.

Lemma reread_entries_leaves (m : list (str * Value)) :
  loaded_entries m ->
  leaves (Mapping (map reread_entry m)) = map reread (leaves (Mapping m)) /\
  scalar_keys (Mapping (map reread_entry m)) = scalar_keys (Mapping m).
Proof.
  induction 1 as [|k x r _ _ Hx _ [IH1 IH2]|k l r _ _ _ Hl _ [IH1 IH2]
                  |k m' r _ _ _ _ [IM1 IM2] _ [IH1 IH2]].
  - split; reflexivity.
  - cbn [map]. change (reread_entry (k, x)) with (k, reread_tree x).
    rewrite (reread_tree_scalar _ (proj1 Hx)).
    rewrite !leaves_cons, !scalar_keys_cons, IH1, IH2.
    rewrite (leaves_scalar _ (proj1 Hx)), (proj1 (reread_scalar_leaf x)).
    assert (Hr : is_scalar (reread x) = true) by apply parse_value_scalar.
    rewrite (proj1 Hx), Hr. split; reflexivity.
  - cbn [map].
    change (reread_entry (k, Sequence l))
      with (k, Sequence (map reread_tree l)).
    rewrite (reread_tree_scalars Hl).
    rewrite !leaves_cons, !scalar_keys_cons, IH1, IH2.
    rewrite (leaves_scalars Hl), (scalar_keys_scalars Hl).
    cbn [leaves scalar_keys is_scalar Dumper.is_collection negb].
    rewrite leaves_reread_scalars, scalar_keys_reread_scalars, map_app.
    split; reflexivity.
  - cbn [map].
    change (reread_entry (k, Mapping m'))
      with (k, Mapping (map reread_entry m')).
    rewrite !leaves_cons, !scalar_keys_cons, IH1, IH2, IM1, IM2, map_app.
    split; reflexivity.
Qed.

Lemma reread_tree_leaves (v : Value) :
  loaded v ->
  leaves (reread_tree v) = map reread (leaves v) /\
  scalar_keys (reread_tree v) = scalar_keys v.
Proof.
  intros Hv. destruct (is_scalar v) eqn:Es.
  - rewrite (reread_tree_scalar _ Es), (leaves_scalar _ Es).
    destruct (reread_scalar_leaf v) as [-> ->].
    destruct v; try discriminate Es; split; reflexivity.
  - destruct v as [ | | | | | l | m]; try discriminate.
    + destruct Hv as [_ Hl]. cbn [reread_tree].
      rewrite (reread_tree_scalars Hl), (leaves_scalars Hl),
        (scalar_keys_scalars Hl).
      cbn [leaves scalar_keys].
      now rewrite leaves_reread_scalars, scalar_keys_reread_scalars.
    + destruct Hv as [_ Hm]. now apply reread_entries_leaves.
Qed.

Lemma number_char_plain (t : str) :
  forallb number_char t = true -> plain t.
Proof.
  intros H. unfold plain. destruct (any_in Dumper.must_quote t) eqn:E;
    [|reflexivity].
  unfold any_in in E. apply existsb_exists in E as (q & Hq & E).
  apply existsb_exists in E as (c & Hc & E). apply Ascii.eqb_eq in E.
  subst c. rewrite forallb_forall in H. specialize (H q Hc).
  exfalso. unfold Dumper.must_quote in Hq. cbn in Hq.
  repeat (destruct Hq as [<- | Hq]; [discriminate H|]). exact Hq.
Qed.

(** What the coercion reads from a text without any character that
    [dump] quotes is, if a String, the trimmed text, which the coercion
    reads as itself. *)
Lemma plain_text_read (t s : str) :
  plain t -> Scanner._parse_value t = Str s ->
  s = strip t /\ Scanner._parse_value s = Str s.
Proof.
  intros Hp H.
  assert (Hq : forall q, (q = dquote \/ q = "'"%char) -> ~ In q (strip t)).
  { intros q Hq Hin. apply in_strip in Hin.
    apply (@plain_no_quote t q Hp); [|exact Hin].
    unfold Dumper.must_quote. destruct Hq as [-> | ->].
    - apply in_or_app. right. now left.
    - apply in_or_app. left. cbn. tauto. }
  destruct (@coercion_string_verbatim_cases t s H)
    as [(q & Hq1 & [E | [E _]]) | (E & _)].
  - exfalso. apply (Hq q Hq1). rewrite E. now left.
  - exfalso. apply (Hq q Hq1). rewrite E. now left.
  - split; [exact E|]. subst s. rewrite parse_value_strip. exact H.
Qed.

End SecondPass.

Section SecondPassStable.

Lemma scalar_text_plain (x : Value) :
  is_scalar x = true -> (forall s, x <> Str s) -> plain (scalar_text x).
Proof.
  intros Hs Hn. destruct x as [ | [] | n | f | s | | ]; try discriminate;
    try reflexivity.
  - apply number_char_plain, py_str_int_chars.
  - apply number_char_plain, py_str_float_chars.
  - now specialize (Hn s).
Qed.

(** A String without any character that [dump] quotes, when read from
    the dumped text of a scalar, is that text trimmed, and is read by
    the coercion as itself. *)
Lemma reread_leaf_stable (x : Value) (s : str) :
  is_scalar x = true -> reread x = Str s -> plain s ->
  s = strip (scalar_text x) /\ Scanner._parse_value s = Str s.
Proof.
  intros Hs Hr Hp. destruct x as [ | b | n | f | s0 | | ];
    try discriminate Hs;
    try (apply plain_text_read; [|exact Hr];
         apply scalar_text_plain; [reflexivity | discriminate]).
  unfold reread, scalar_text in *. cbn [Dumper.dump] in *.
  destruct (any_in Dumper.must_quote s0) eqn:Eq.
  - rewrite parse_value_quoted in Hr. injection Hr as <-.
    unfold plain in Hp. congruence.
  - now apply plain_text_read.
Qed.

End SecondPassStable.

(** X18: one pass of dump and load settles a value: under the conditions
    that keep the tree (no String dumped without quotes is empty or
    ends with whitespace, no key bound to a scalar holds a colon
    followed by a space, the value is not itself a String dumped
    without quotes that begins with whitespace or with a dash and a
    space), what [load] reads from the dump of a loaded value is read
    again from its own dump, when [float] reads back the text of each
    of its Floats. *)
Theorem second_dump_and_load_is_identity
        (ind : nat) (text : str) (v w : Value) :
  0 < ind ->
  load text = Ok v ->
  (forall s, In (Str s) (leaves v) -> plain s -> s <> [] /\ rstrip s = s) ->
  (forall k, In k (scalar_keys v) -> contains k (txt ": ") = false) ->
  (forall s, v = Str s -> plain s ->
             lstrip s = s /\ startswith s (txt "- ") = false) ->
  load (dump_indent v ind) = Ok w ->
  (forall f, In (Float f) (leaves w) -> float_reads_back f) ->
  load (dump_indent w ind) = Ok w.
Proof.
  intros Hi Hload HS HK HR Hback HF.
  pose proof (load_loaded text Hload) as Hv.
  pose proof (load_loaded _ Hback) as Hw.
  pose proof (loaded_leaves v Hv) as Hlv. rewrite Forall_forall in Hlv.
  pose proof (loaded_leaves w Hw) as Hlw. rewrite Forall_forall in Hlw.
  assert (Ew : w = reread_tree v).
  { rewrite (@load_dump_reread_structure ind text v Hi Hload HS HK HR)
      in Hback. now injection Hback. }
  destruct (@reread_tree_leaves v Hv) as [El Ek]. rewrite <- Ew in El, Ek.
  assert (Hstable : forall y s, In y (leaves w) -> y = Str s -> plain s ->
                                Scanner._parse_value s = Str s
                                /\ exists x, In x (leaves v)
                                             /\ s = strip (scalar_text x)).
  { intros y s Hy -> Hp. rewrite El in Hy.
    apply in_map_iff in Hy as (x & Hx & Hin).
    destruct (@reread_leaf_stable x s (proj1 (Hlv x Hin)) Hx Hp) as [E1 E2].
    split; [exact E2|]. now exists x. }
  rewrite <- (@reread_tree_same w Hw) at 2.
  - apply load_dump_indent_reread; [exact Hi | exact Hw | | |].
    + intros Hs. apply root_line_ok; [exact Hw | exact Hs |].
      intros s E Hp.
      assert (Hin : In w (leaves w))
        by (rewrite (leaves_scalar _ Hs); now left).
      destruct (Hstable w s Hin E Hp) as [Hr _].
      split; [now apply plain_reads_back_trimmed|].
      assert (Hsv : is_scalar v = true).
      { destruct v; try reflexivity; subst w; discriminate Hs. }
      assert (Hline : line_ok (scalar_text v)).
      { apply root_line_ok; [exact Hv | exact Hsv |].
        intros s0 -> Hp0. destruct (HR s0 eq_refl Hp0) as [H1 H2].
        destruct (HS s0 (or_introl eq_refl) Hp0) as [H3 H4].
        repeat split; assumption. }
      rewrite (reread_tree_scalar _ Hsv) in Ew. rewrite E in Ew.
      destruct (@reread_leaf_stable v s Hsv (eq_sym Ew) Hp) as [Es _].
      destruct Hline as (Ht & _ & _ & Hd & _).
      rewrite (trimmed_strip Ht) in Es. now rewrite Es.
    + apply Forall_forall. intros y Hy.
      apply leaf_line_value_ok; [now apply Hlw|].
      intros s E Hp. apply plain_reads_back_trimmed; [exact Hp|].
      now destruct (Hstable y s Hy E Hp).
    + apply Forall_forall. rewrite Ek. exact HK.
  - apply Forall_forall. intros y Hy. apply reread_scalar.
    + apply (Hlw y Hy).
    + intros s E Hp. now destruct (Hstable y s Hy E Hp).
    + intros f E. apply HF. now rewrite <- E.
Qed.

Lemma second_dump_and_load_is_identity_witness :
  let text := txt "name: 'TRUE'" ++ newline :: txt "tags:"
              ++ newline :: txt "  - ' 007'" ++ newline :: txt "  - a:b"
              ++ newline :: txt "config:" ++ newline :: txt "  port: '1e0'" in
  let v := Mapping
             [(txt "name", Str (txt "TRUE"));
              (txt "tags", Sequence [Str (txt " 007"); Str (txt "a:b")]);
              (txt "config", Mapping [(txt "port", Str (txt "1e0"))])] in
  let w := Mapping
             [(txt "name", Boolean true);
              (txt "tags", Sequence [Integer 7; Str (txt "a:b")]);
              (txt "config",
               Mapping [(txt "port", Float (round_decimal false 1 0))])] in
  load text = Ok v /\ load (dump_indent v 2) = Ok w /\
  load (dump_indent w 2) = Ok w.
Proof.
  intros text v w.
  assert (Hload : load text = Ok v) by (vm_compute; reflexivity).
  assert (Hback : load (dump_indent v 2) = Ok w) by (vm_compute; reflexivity).
  split; [exact Hload|]. split; [exact Hback|].
  apply (@second_dump_and_load_is_identity 2 text v w);
    [lia | exact Hload | | | | exact Hback |].
  - intros s Hs Hp. vm_compute in Hs.
    repeat (destruct Hs as [Hs | Hs];
            [try discriminate Hs; injection Hs as <-;
             first [split; [discriminate | reflexivity]
                   | vm_compute in Hp; discriminate Hp]
            |]).
    destruct Hs.
  - intros k Hk. vm_compute in Hk.
    repeat (destruct Hk as [<- | Hk]; [vm_compute; reflexivity|]).
    destruct Hk.
  - intros s Hs. discriminate Hs.
  - intros f Hf. vm_compute in Hf.
    repeat (destruct Hf as [Hf | Hf];
            [try discriminate Hf; injection Hf as <-; vm_compute; reflexivity|]).
    destruct Hf.
Defined.

(** ** What [_parse_list] returns *)

Section ListRun.

Variable tokens : list Token.

Lemma list_loop_run (fuel : nat) :
  forall base pos acc,
    pos <= List.length tokens -> List.length tokens - pos < fuel ->
    exists raws,
      Parser.list_loop tokens fuel base pos acc
      = Ok (Sequence (acc ++ map Scanner._parse_value raws),
            pos + List.length raws) /\
      (forall i raw, nth_error raws i = Some raw ->
                     exists t, nth_error tokens (pos + i) = Some t /\
                               body t = LIST_ITEM raw /\ base <= indent t) /\
      (forall t, nth_error tokens (pos + List.length raws) = Some t ->
                 indent t < base \/ forall raw, body t <> LIST_ITEM raw).
Proof.
  induction fuel as [|n IH]; intros base pos acc Hp Hf; [lia|].
  rewrite list_loop_S.
  destruct (nth_error tokens pos) as [t|] eqn:E.
  - assert (Hlt : pos < List.length tokens)
      by (apply nth_error_Some; congruence).
    destruct (Nat.ltb_spec (indent t) base) as [Hd | Hd].
    + exists []. cbn [map List.length]. rewrite app_nil_r, Nat.add_0_r.
      split; [reflexivity|]. split.
      * intros i raw Hi. destruct i; discriminate Hi.
      * intros t' Ht'. left. congruence.
    + destruct (body t) as [raw| | |] eqn:Eb;
        try (exists []; cbn [map List.length];
             rewrite app_nil_r, Nat.add_0_r;
             split; [reflexivity|]; split;
             [ intros i raw Hi; destruct i; discriminate Hi
             | intros t' Ht'; right; intros raw; congruence ]).
      destruct (IH base (pos + 1) (acc ++ [Parser._parse_scalar raw]))
        as (raws & H1 & H2 & H3); try lia.
      exists (raw :: raws). cbn [map List.length].
      rewrite H1, <- app_assoc.
      replace (pos + 1 + List.length raws) with (pos + S (List.length raws))
        in * by lia.
      split; [reflexivity|]. split; [|exact H3].
      intros i raw' Hi. destruct i as [|i].
      * injection Hi as <-. rewrite Nat.add_0_r. now exists t.
      * cbn [nth_error] in Hi. destruct (H2 i raw' Hi) as (t' & Ht' & Hr).
        exists t'. split; [|exact Hr].
        now replace (pos + S i) with (pos + 1 + i) by lia.
  - exists []. cbn [map List.length]. rewrite app_nil_r, Nat.add_0_r.
    split; [reflexivity|]. split.
    + intros i raw Hi. destruct i; discriminate Hi.
    + intros t' Ht'. congruence.
Qed.

End ListRun.

(** X19: [_parse_list] returns the coerced texts of the longest run of
    LIST_ITEM tokens, from the cursor on, that are at least as deep as
    the base indent, and leaves the cursor after that run: on no token,
    on a token that is less deep, or on a token that is not a
    LIST_ITEM. *)
Theorem parse_list_takes_longest_run
        (tokens : list Token) (fuel base pos : nat) :
  pos <= List.length tokens -> List.length tokens - pos < fuel ->
  exists raws,
    Parser._parse_list tokens fuel base pos
    = Ok (Sequence (map Parser._parse_scalar raws), pos + List.length raws) /\
    (forall i raw, nth_error raws i = Some raw ->
                   exists t, nth_error tokens (pos + i) = Some t /\
                             body t = LIST_ITEM raw /\ base <= indent t) /\
    (forall t, nth_error tokens (pos + List.length raws) = Some t ->
               indent t < base \/ forall raw, body t <> LIST_ITEM raw).
Proof.
  intros Hp Hf. unfold Parser._parse_list.
  exact (@list_loop_run tokens fuel base pos [] Hp Hf).
Qed.

Lemma parse_list_takes_longest_run_witness :
  let tokens := [mkToken (LIST_ITEM (txt "a")) 1 2;
                 mkToken (LIST_ITEM (txt "7")) 2 6;
                 mkToken (LIST_ITEM (txt "b")) 3 0] in
  exists raws,
    Parser._parse_list tokens 4 2 0
    = Ok (Sequence (map Parser._parse_scalar raws), 0 + List.length raws) /\
    (forall i raw, nth_error raws i = Some raw ->
                   exists t, nth_error tokens (0 + i) = Some t /\
                             body t = LIST_ITEM raw /\ 2 <= indent t) /\
    (forall t, nth_error tokens (0 + List.length raws) = Some t ->
               indent t < 2 \/ forall raw, body t <> LIST_ITEM raw).
Proof.
  intros tokens.
  apply (@parse_list_takes_longest_run tokens 4 2 0); simpl; lia.
Defined.

(** ** Documents laid out in blocks *)

Section BlockDocuments.

Variable ind : nat.
Hypothesis ind_pos : 0 < ind.











End BlockDocuments.



(** ** A list at the indent of its key *)

(** X21: when the line after a key without a value is a list item that
    is not deeper than the key, the key is bound to Null, the mapping
    ends at the item, and [load] returns the mapping of that one key:
    the item and every line after it are dropped. *)
Theorem load_drops_list_at_key_indent
        (i j : nat) (k t : str) (others : list str) :
  key_text k -> item_text t -> j <= i ->
  Forall (fun l => newline_free l = true) others ->
  load (join [newline]
          ((replicate i " "%char ++ k ++ txt ":")
             :: item_line (j, t) :: others))
  = Ok (Mapping [(k, Null)]).
Proof.
  intros (K1 & K2 & K3 & K4 & _) (T1 & T2 & T3) Hji Ho. unfold load.
  assert (Hn : Forall (fun l => newline_free l = true)
                      ((replicate i " "%char ++ k ++ txt ":")
                         :: item_line (j, t) :: others)).
  { constructor; [|constructor; [|exact Ho]].
    - now rewrite !newline_free_app, spaces_newline_free, K1.
    - unfold item_line. cbn [fst snd].
      now rewrite !newline_free_app, spaces_newline_free, T3. }
  rewrite (scan_join Hn). cbn [Scanner.scan_lines].
  rewrite (scan_line_key 1 i K2 K3 K4). unfold item_line. cbn [fst snd bind].
  rewrite (scan_line_item 2 j T1 T2). cbn [bind].
  destruct (scan_lines_ok others 3) as [ts ->]. cbn [bind].
  apply (@parse_with_fuel _ 3 _ 1); [discriminate|].
  rewrite parse_value_S. cbn [nth_error body].
  rewrite mapping_loop_S. cbn [nth_error body indent Nat.add].
  replace (i <? j) with false by (symmetry; apply Nat.ltb_ge; lia).
  reflexivity.
Qed.

Lemma load_drops_list_at_key_indent_witness :
  load (join [newline]
          [replicate 0 " "%char ++ txt "items" ++ txt ":";
           item_line (0, txt "a"); txt "- b"; txt "other: 1"])
  = Ok (Mapping [(txt "items", Null)]).
Proof.
  apply (@load_drops_list_at_key_indent
           0 0 (txt "items") (txt "a") [txt "- b"; txt "other: 1"]).
  - repeat split.
  - repeat split. discriminate.
  - lia.
  - repeat constructor.
Defined.

(** ** The dump of a list of records *)

Section Records.

Variable ind : nat.

Lemma join_concat (A : Type) (sep : str) (g : A -> list str) (l : list A) :
  (forall x, In x l -> g x <> []) ->
  join sep (map (fun x => join sep (g x)) l) = join sep (flat_map g l).
Proof.
  induction l as [|x l IH]; intros H; [reflexivity|].
  cbn [map flat_map]. rewrite join_flatten by (apply H; now left).
  destruct l as [|y l].
  - cbn [map flat_map]. reflexivity.
  - assert (Hy : flat_map g (y :: l) <> []).
    { cbn [flat_map]. intros E. apply app_eq_nil in E as [E _].
      apply (H y); [right; now left | exact E]. }
    assert (Hm : map (fun x => join sep (g x)) (y :: l) <> [])
      by discriminate.
    rewrite !join_app; try assumption; try (apply H; now left).
    rewrite IH; [reflexivity|]. intros z Hz. apply H. now right.
Qed.

Lemma record_entries_dump (m : list (str * Value)) (level : nat) :
  Forall (fun kx => is_scalar (snd kx) = true) m ->
  flat_map (fun kv : str * Value =>
              let '(key, value) := kv in
              if Dumper.is_collection value && Dumper.truthy value then
                [Dumper.prefix ind level ++ key ++ txt ":";
                 Dumper.dump ind value (level + 1)]
              else
                [Dumper.prefix ind level ++ key ++ txt ": "
                   ++ Dumper.dump ind value 0]) m
  = map (fun e => Dumper.prefix ind level ++ record_entry e) m.
Proof.
  induction 1 as [|[k x] m Hx _ IH]; [reflexivity|].
  cbn [flat_map map]. rewrite IH. cbn [snd] in Hx.
  rewrite (scalar_not_collection _ Hx), (scalar_dump ind _ 0 Hx).
  reflexivity.
Qed.

Lemma lstrip_record_entry (k : str) (x : Value) (level : nat) (rest : str) :
  lstrip k = k ->
  lstrip ((Dumper.prefix ind level ++ record_entry (k, x)) ++ rest)
  = record_entry (k, x) ++ rest.
Proof.
  intros Hk. unfold Dumper.prefix, record_entry. cbn [fst snd].
  rewrite <- !app_assoc, lstrip_spaces_app.
  destruct k as [|c k]; [reflexivity|].
  apply lstrip_fixed_solid in Hk. simpl in Hk. cbn [app lstrip].
  now rewrite Hk.
Qed.

Lemma record_item_dump (m : list (str * Value)) (level : nat) :
  record m ->
  (Dumper.prefix ind level ++ txt "- ")
    ++ lstrip (Dumper.dump ind (Mapping m) (level + 1))
  = join [newline] (record_lines ind level m).
Proof.
  intros [Hs Hk]. destruct m as [|[k x] r].
  - cbn [Dumper.dump record_lines join]. now rewrite <- app_assoc.
  - assert (E : Dumper.dump ind (Mapping ((k, x) :: r)) (level + 1)
                = join [newline]
                    (flat_map
                       (fun kv : str * Value =>
                          let '(key, value) := kv in
                          if Dumper.is_collection value && Dumper.truthy value
                          then
                            [Dumper.prefix ind (level + 1) ++ key ++ txt ":";
                             Dumper.dump ind value (level + 1 + 1)]
                          else
                            [Dumper.prefix ind (level + 1) ++ key ++ txt ": "
                               ++ Dumper.dump ind value 0])
                       ((k, x) :: r))) by reflexivity.
    rewrite E, (record_entries_dump (level + 1) Hs).
    cbn [map record_lines]. destruct r as [|e r].
    + cbn [map join].
      rewrite <- (app_nil_r (Dumper.prefix ind (level + 1)
                               ++ record_entry (k, x))).
      rewrite (lstrip_record_entry x (level + 1) [] Hk).
      now rewrite app_nil_r, <- app_assoc.
    + rewrite !join_cons by discriminate.
      rewrite (lstrip_record_entry x (level + 1) _ Hk).
      now rewrite <- !app_assoc.
Qed.

End Records.

(** X22: a list of records, mappings whose values are scalars, is
    dumped with the first entry of each record on the line of its dash
    and the other entries of the record one level deeper, a record
    without entries as a dash and two braces. *)
Theorem dump_list_of_records
        (ind level : nat) (ms : list (list (str * Value))) :
  ms <> [] -> Forall record ms ->
  Dumper._dump_list ind (map Mapping ms) level
  = join [newline] (flat_map (record_lines ind level) ms).
Proof.
  intros Hne Hr. unfold Dumper._dump_list.
  assert (Hd : Dumper.dump ind (Sequence (map Mapping ms)) level
               = join [newline]
                   (map (fun item =>
                           if Dumper.is_collection item
                           then (Dumper.prefix ind level ++ txt "- ")
                                  ++ lstrip (Dumper.dump ind item (level + 1))
                           else Dumper.prefix ind level ++ txt "- "
                                  ++ Dumper.dump ind item 0)
                        (map Mapping ms)))
    by (destruct ms; [congruence | reflexivity]).
  rewrite Hd, map_map.
  rewrite <- (@join_concat _ [newline] (record_lines ind level) ms)
    by (intros m _; destruct m; discriminate).
  f_equal. apply map_ext_in. intros m Hm.
  cbn [Dumper.is_collection]. apply record_item_dump.
  rewrite Forall_forall in Hr. now apply Hr.
Qed.

Lemma dump_list_of_records_witness :
  Dumper._dump_list 2
    (map Mapping [[(txt "a", Integer 1); (txt "b", Boolean true)];
                  []; [(txt "c", Null)]]) 0
  = txt "- a: 1" ++ newline :: txt "  b: true" ++ newline :: txt "- {}"
        ++ newline :: txt "- c: null".
Proof.
  apply (@dump_list_of_records 2 0
           [[(txt "a", Integer 1); (txt "b", Boolean true)];
            []; [(txt "c", Null)]]).
  - discriminate.
  - repeat constructor.
Defined.
